(** * video2x: the decode / filter / encode / mux pipeline

    A shallow embedding of [src/encoder.cpp] (class [Encoder]) and
    [src/libvideo2x.cpp] ([process_frames], [process_video]).

    The FFmpeg, OpenCV and filter libraries are collaborators of the
    pipeline: their calls are fields of an environment record acting on an
    abstract world [W].  Every call the pipeline makes appends one [Event]
    to a chronological trace, so that statements about "what is called, and
    when" are statements about lists.  The [pause] and [abort] flags
    belong to the controlling thread: the pipeline reads them off the
    world, which moves only when a collaborator is called or the pipeline
    sleeps.  The stream map is an array on a heap that is part of the
    state: [process_frames] is handed a pointer to it.  Loops take fuel;
    undefined behaviour of the C++ code (indexing through a null or too
    short array, signed overflow of the frame counter or of a product of
    [int]s) is a result of its own, [Fault]. *)

From Stdlib Require Import ZArith Lia Bool String.
From stdpp Require Import base list.

Local Open Scope Z_scope.

(** ** Status codes (libavutil/error.h, errno.h) *)

Definition MKTAG (a b c d : Z) : Z :=
  Z.lor a (Z.lor (Z.shiftl b 8) (Z.lor (Z.shiftl c 16) (Z.shiftl d 24))).
Definition FFERRTAG (a b c d : Z) : Z := - MKTAG a b c d.
Definition AVERROR (e : Z) : Z := - e.

Definition EAGAIN : Z := 11.
Definition ENOMEM : Z := 12.
Definition EINVAL : Z := 22.

(* 'E' 'O' 'F' ' ' *)
Definition AVERROR_EOF : Z := FFERRTAG 69 79 70 32.
(* 'E' 'X' 'T' ' ' *)
Definition AVERROR_EXTERNAL : Z := FFERRTAG 69 88 84 32.
(* 'U' 'N' 'K' 'N' *)
Definition AVERROR_UNKNOWN : Z := FFERRTAG 85 78 75 78.
(* 0xF8 'E' 'N' 'C' *)
Definition AVERROR_ENCODER_NOT_FOUND : Z := FFERRTAG 248 69 78 67.

Definition AV_PIX_FMT_NONE : Z := -1.
Definition AVFMT_NOFILE : Z := 1.
Definition AVFMT_GLOBALHEADER : Z := 64.
Definition AV_CODEC_FLAG_GLOBAL_HEADER : Z := Z.shiftl 1 22.
Definition INT64_MAX : Z := 2 ^ 63 - 1.
Definition INT_MAX : Z := 2 ^ 31 - 1.
Definition INT_MIN : Z := - 2 ^ 31.

(** [ret == AVERROR(EAGAIN) || ret == AVERROR_EOF] *)
Definition is_again_or_eof (ret : Z) : bool :=
  (ret =? AVERROR EAGAIN) || (ret =? AVERROR_EOF).

(** ** Data *)

Inductive AVMediaType :=
| AVMEDIA_TYPE_UNKNOWN
| AVMEDIA_TYPE_VIDEO
| AVMEDIA_TYPE_AUDIO
| AVMEDIA_TYPE_DATA
| AVMEDIA_TYPE_SUBTITLE
| AVMEDIA_TYPE_ATTACHMENT.

Definition is_audio_or_subtitle (t : AVMediaType) : bool :=
  match t with
  | AVMEDIA_TYPE_AUDIO | AVMEDIA_TYPE_SUBTITLE => true
  | _ => false
  end.

Record AVRational := mkRational { num : Z; den : Z }.

Definition av_inv_q (q : AVRational) : AVRational := mkRational (den q) (num q).

Definition zero_q : AVRational := mkRational 0 0.

(** The fields of a stream's codec parameters the pipeline touches; the
    rest of the structure travels in [codec_opaque]. *)
Record AVCodecParameters := mkCodecpar {
  codec_type : AVMediaType;
  codec_id : Z;
  codec_tag : Z;
  codec_opaque : Z
}.

Definition set_codec_tag (p : AVCodecParameters) (t : Z) : AVCodecParameters :=
  mkCodecpar (codec_type p) (codec_id p) t (codec_opaque p).

(** What [avformat_new_stream] leaves in a fresh stream's parameters. *)
Definition empty_codecpar : AVCodecParameters :=
  mkCodecpar AVMEDIA_TYPE_UNKNOWN 0 0 0.

Record AVStream := mkStream {
  index : Z;
  codecpar : AVCodecParameters;
  time_base : AVRational;
  avg_frame_rate : AVRational;
  r_frame_rate : AVRational
}.

Record AVFrame := mkFrame {
  pts : Z;
  format : Z;
  image : Z
}.

Definition set_pts (f : AVFrame) (t : Z) : AVFrame :=
  mkFrame t (format f) (image f).

Record AVPacket := mkPacket {
  stream_index : Z;
  pkt_pts : Z;
  pkt_dts : Z;
  pkt_duration : Z;
  pkt_data : Z
}.

Definition set_stream_index (p : AVPacket) (i : Z) : AVPacket :=
  mkPacket i (pkt_pts p) (pkt_dts p) (pkt_duration p) (pkt_data p).

(** The encoder's [AVCodecContext], as [Encoder::init] fills it. *)
Record AVCodecContext := mkCodecContext {
  ctx_width : Z;
  ctx_height : Z;
  ctx_sample_aspect_ratio : AVRational;
  ctx_bit_rate : Z;
  ctx_color : Z;
  ctx_pix_fmt : Z;
  ctx_time_base : AVRational;
  ctx_framerate : AVRational;
  ctx_flags : Z;
  ctx_hw_device : bool;
  ctx_crf : Z;
  ctx_preset : Z
}.

Record AVFormatContext := mkFormatContext {
  streams : list AVStream;
  oformat_flags : Z;
  pb_open : bool
}.

Definition nb_streams (c : AVFormatContext) : Z := Z.of_nat (length (streams c)).

(** [a[i]] for a C array and an [int] index: nothing below 0 or past the
    end. *)
Definition index_Z {A : Type} (a : list A) (i : Z) : option A :=
  if i <? 0 then None else a !! Z.to_nat i.

Record EncoderConfig := mkEncoderConfig {
  out_width : Z;
  out_height : Z;
  bit_rate : Z;
  codec : Z;
  pix_fmt : Z;
  preset : Z;
  crf : Z;
  copy_streams : bool
}.

(** The members of [class Encoder]; a null pointer is [None]. *)
Record Encoder := mkEncoder {
  ofmt_ctx_ : option AVFormatContext;
  enc_ctx_ : option AVCodecContext;
  out_vstream_idx_ : Z;
  stream_map_ : option (list Z)
}.

(** The counters of [VideoProcessingContext]; its [pause] and [abort]
    flags belong to the controlling thread and are read through the
    environment. *)
Record VideoProcessingContext := mkProcCtx {
  total_frames : Z;
  processed_frames : Z;
  start_time : Z
}.

(** ** The collaborators *)

Record Env (W : Type) := mkEnv {
  (* controller *)
  ctl_abort : W -> bool;
  ctl_pause : W -> bool;
  sleep_for : Z -> W -> W;
  (* OpenCV probe, clock, allocator *)
  cap_isOpened : W -> bool;
  cap_frame_count : W -> Z;
  time_now : W -> Z;
  av_frame_alloc_ok : W -> bool;
  av_packet_alloc_ok : W -> bool;
  (* demuxer and decoder *)
  av_read_frame : W -> Z * AVPacket * W;
  avcodec_send_packet : AVPacket -> W -> Z * W;
  avcodec_receive_frame : W -> Z * AVFrame * W;
  (* filter *)
  filter_process_frame : AVFrame -> W -> Z * option AVFrame * W;
  filter_flush : W -> Z * list AVFrame * W;
  (* encoder and muxer *)
  convert_avframe_pix_fmt : AVFrame -> Z -> option AVFrame;
  avcodec_send_frame : option AVFrame -> W -> Z * W;
  avcodec_receive_packet : W -> Z * AVPacket * W;
  av_packet_rescale_ts : AVPacket -> AVRational -> AVRational -> AVPacket;
  av_interleaved_write_frame : AVPacket -> W -> Z * W
}.

Arguments ctl_abort {W} _ _.
Arguments ctl_pause {W} _ _.
Arguments sleep_for {W} _ _ _.
Arguments cap_isOpened {W} _ _.
Arguments cap_frame_count {W} _ _.
Arguments time_now {W} _ _.
Arguments av_frame_alloc_ok {W} _ _.
Arguments av_packet_alloc_ok {W} _ _.
Arguments av_read_frame {W} _ _.
Arguments avcodec_send_packet {W} _ _ _.
Arguments avcodec_receive_frame {W} _ _.
Arguments filter_process_frame {W} _ _ _.
Arguments filter_flush {W} _ _.
Arguments convert_avframe_pix_fmt {W} _ _ _.
Arguments avcodec_send_frame {W} _ _ _.
Arguments avcodec_receive_packet {W} _ _.
Arguments av_packet_rescale_ts {W} _ _ _ _.
Arguments av_interleaved_write_frame {W} _ _ _.

(** One entry per call that leaves the pipeline, with what was passed and
    what came back. *)
Inductive Event :=
| EvAbortObserved
| EvSleep (ms : Z)
| EvReadFrame (ret : Z) (pkt : AVPacket)
| EvSendPacket (pkt : AVPacket) (ret : Z)
| EvReceiveFrame (ret : Z) (frame : AVFrame)
| EvFilterProcess (frame : AVFrame) (ret : Z) (out : option AVFrame)
| EvFilterFlush (ret : Z) (flushed : list AVFrame)
| EvSendFrame (frame : option AVFrame) (ret : Z)
| EvReceivePacket (ret : Z) (pkt : AVPacket)
| EvMuxWrite (pkt : AVPacket) (ret : Z)
| EvMapLookup (i : Z) (out : Z)
| EvWriteHeader (ret : Z)
| EvWriteTrailer.

(** ** State and results *)

(** The world of the collaborators, the calls made so far, the
    processing context, and the arrays of [int] the program has on the
    heap, each at its address. *)
Record St (W : Type) := mkSt {
  world : W;
  trace : list Event;
  proc_ctx : VideoProcessingContext;
  heap : list (list Z)
}.

Arguments mkSt {W} _ _ _ _.
Arguments world {W} _.
Arguments trace {W} _.
Arguments proc_ctx {W} _.
Arguments heap {W} _.

(** An [int *] is null or the address of an array; [pointee] is the
    array it points to as the heap has it now. *)
Definition pointee {W} (s : St W) (p : option nat) : option (list Z) :=
  match p with
  | Some a => heap s !! a
  | None => None
  end.

(** A call ends with a value, runs out of fuel, or runs into undefined
    behaviour; each time the state reached is kept. *)
Inductive Result (W A : Type) :=
| Ok (a : A) (s : St W)
| Timeout (s : St W)
| Fault (s : St W).

Arguments Ok {W A} _ _.
Arguments Timeout {W A} _.
Arguments Fault {W A} _.

Definition final {W A} (r : Result W A) : St W :=
  match r with
  | Ok _ s => s
  | Timeout s => s
  | Fault s => s
  end.

Definition M (W A : Type) : Type := St W -> Result W A.

Definition ret {W A} (a : A) : M W A := fun s => Ok a s.

Definition bind {W A B} (m : M W A) (k : A -> M W B) : M W B :=
  fun s =>
    match m s with
    | Ok a s' => k a s'
    | Timeout s' => Timeout s'
    | Fault s' => Fault s'
    end.

Definition timeout {W A} : M W A := fun s => Timeout s.
Definition fault {W A} : M W A := fun s => Fault s.

Declare Scope pipe_scope.
Delimit Scope pipe_scope with pipe.
Notation "x <- m ;; k" := (bind m (fun x => k))
  (at level 90, m at level 80, right associativity) : pipe_scope.
Notation "m ;;; k" := (bind m (fun _ => k))
  (at level 90, right associativity) : pipe_scope.

(** How a loop body or a block of a C++ function ends: with the
    function's [return], or by falling through to the next statement. *)
Inductive Ctl :=
| Return (status : Z)
| Fallthrough.

Local Open Scope pipe_scope.

Section Pipeline.

Context {W : Type} (env : Env W).

(** *** Calls into the collaborators, each leaving its event *)

Definition emit (w : W) (e : Event) : M W unit :=
  fun s => Ok tt (mkSt w (trace s ++ [e]) (proc_ctx s) (heap s)).

Definition get_world : M W W := fun s => Ok (world s) s.

Definition get_state : M W (St W) := fun s => Ok s s.

(** [proc_ctx->abort], read by a loop condition. *)
Definition read_abort : M W bool :=
  w <- get_world ;;
  if ctl_abort env w then emit w EvAbortObserved ;;; ret true else ret false.

(** [proc_ctx->pause] *)
Definition read_pause : M W bool :=
  w <- get_world ;; ret (ctl_pause env w).

(** [std::this_thread::sleep_for(std::chrono::milliseconds(ms))] *)
Definition sleep_ms (ms : Z) : M W unit :=
  w <- get_world ;; emit (sleep_for env ms w) (EvSleep ms).


(** A call into a collaborator: the world moves on and the call is
    recorded with its answer. *)
Definition call {A : Type} (f : W -> A * W) (ev : A -> Event) : M W A :=
  fun s =>
    let '(a, w') := f (world s) in
    Ok a (mkSt w' (trace s ++ [ev a]) (proc_ctx s) (heap s)).

Definition call_read_frame : M W (Z * AVPacket) :=
  call (av_read_frame env) (fun rp => EvReadFrame (fst rp) (snd rp)).

Definition call_send_packet (pkt : AVPacket) : M W Z :=
  call (avcodec_send_packet env pkt) (EvSendPacket pkt).

Definition call_receive_frame : M W (Z * AVFrame) :=
  call (avcodec_receive_frame env) (fun rf => EvReceiveFrame (fst rf) (snd rf)).

Definition call_filter_process (frame : AVFrame) : M W (Z * option AVFrame) :=
  call (filter_process_frame env frame)
    (fun ro => EvFilterProcess frame (fst ro) (snd ro)).

Definition call_filter_flush : M W (Z * list AVFrame) :=
  call (filter_flush env) (fun rl => EvFilterFlush (fst rl) (snd rl)).

Definition call_send_frame (frame : option AVFrame) : M W Z :=
  call (avcodec_send_frame env frame) (EvSendFrame frame).

Definition call_receive_packet : M W (Z * AVPacket) :=
  call (avcodec_receive_packet env) (fun rp => EvReceivePacket (fst rp) (snd rp)).

Definition call_mux_write (pkt : AVPacket) : M W Z :=
  call (av_interleaved_write_frame env pkt) (EvMuxWrite pkt).

Definition packet_alloc : M W bool :=
  w <- get_world ;; ret (av_packet_alloc_ok env w).

(** A pointer the code dereferences without a check. *)
Definition deref {A : Type} (p : option A) : M W A :=
  match p with
  | Some a => ret a
  | None => fault
  end.

(** ** [Encoder::write_frame] and [Encoder::flush] (encoder.cpp) *)

(** The body shared by the two receive loops: one [avcodec_receive_packet],
    then rescale, retag and mux.  The [break] on "try again" or "end of
    stream" leads to the [return 0] after the loop, an error status is
    returned as it is, and [k] is the next iteration. *)
Definition receive_and_mux (enc : Encoder) (k : Z -> M W Z) : M W Z :=
  rp <- call_receive_packet ;;
  let '(r, enc_pkt) := rp in
  if is_again_or_eof r then ret 0
  else if r <? 0 then ret r
  else
    ectx <- deref (enc_ctx_ enc) ;;
    octx <- deref (ofmt_ctx_ enc) ;;
    ostream <- deref (index_Z (streams octx) (out_vstream_idx_ enc)) ;;
    let enc_pkt := av_packet_rescale_ts env enc_pkt (ctx_time_base ectx) (time_base ostream) in
    let enc_pkt := set_stream_index enc_pkt (out_vstream_idx_ enc) in
    r <- call_mux_write enc_pkt ;;
    if r <? 0 then ret r else k r.

(** [while (ret >= 0) { ... }] of [write_frame], then [return 0]. *)
Fixpoint write_frame_drain (fuel : nat) (enc : Encoder) (r : Z) : M W Z :=
  if r <? 0 then ret 0
  else
    match fuel with
    | O => timeout
    | S fuel' => receive_and_mux enc (write_frame_drain fuel' enc)
    end.

Definition write_frame (fuel : nat) (enc : Encoder) (frame : AVFrame) (frame_idx : Z)
  : M W Z :=
  (* Set the frame's presentation timestamp if not set *)
  let frame := if pts frame <=? 0 then set_pts frame frame_idx else frame in
  ectx <- deref (enc_ctx_ enc) ;;
  (* Convert the frame to the encoder's pixel format if needed *)
  let conversion :=
    if format frame =? ctx_pix_fmt ectx then Some None
    else
      match convert_avframe_pix_fmt env frame (ctx_pix_fmt ectx) with
      | None => None
      | Some converted_frame => Some (Some (set_pts converted_frame (pts frame)))
      end in
  match conversion with
  | None => ret AVERROR_EXTERNAL
  | Some converted_frame =>
      ok <- packet_alloc ;;
      if negb ok then ret (AVERROR ENOMEM)
      else
        (* Send the frame to the encoder *)
        r <- call_send_frame
               (Some (match converted_frame with
                      | Some c => c
                      | None => frame
                      end)) ;;
        if r <? 0 then ret r
        else write_frame_drain fuel enc r
  end.

(** [while (true) { ... }] of [flush], then [return 0]. *)
Fixpoint flush_drain (fuel : nat) (enc : Encoder) : M W Z :=
  match fuel with
  | O => timeout
  | S fuel' => receive_and_mux enc (fun _ => flush_drain fuel' enc)
  end.

Definition flush (fuel : nat) (enc : Encoder) : M W Z :=
  ok <- packet_alloc ;;
  if negb ok then ret (AVERROR ENOMEM)
  else
    (* Send a NULL frame to signal the encoder to flush *)
    r <- call_send_frame None ;;
    if r <? 0 then ret r
    else flush_drain fuel enc.

(** ** [process_frames] (libvideo2x.cpp)

    [process_frames] receives [enc_ctx] and [ofmt_ctx] and hands them to
    [write_frame] and [flush_encoder]; here they arrive together as the
    [Encoder] object [enc] that holds them, and the two calls are the
    methods [Encoder::write_frame] and [Encoder::flush] of encoder.cpp.
    The last argument of every [write_frame] call is [vstream_idx], as
    the call sites have it.  [stream_map] is a pointer: the array behind
    it is on the heap of the state. *)

Section Frames.

Variable encoder_config : EncoderConfig.
Variable ifmt_ctx : AVFormatContext.
Variable enc : Encoder.
Variable vstream_idx : Z.
Variable stream_map : option nat.
Variable benchmark : bool.

(** [proc_ctx->processed_frames++] on an [int64_t]. *)
Definition incr_processed_frames : M W unit :=
  fun s =>
    let c := proc_ctx s in
    if processed_frames c =? INT64_MAX then Fault s
    else Ok tt (mkSt (world s) (trace s)
                  (mkProcCtx (total_frames c) (processed_frames c + 1) (start_time c))
                  (heap s)).

Definition set_probe (total start : Z) : M W unit :=
  fun s =>
    Ok tt (mkSt (world s) (trace s)
             (mkProcCtx total (processed_frames (proc_ctx s)) start) (heap s)).

(** [stream_map[i]]: a read through the pointer, of the array as the
    heap has it at that moment. *)
Definition read_stream_map (i : Z) : M W Z :=
  s <- get_state ;;
  map <- deref (pointee s stream_map) ;;
  out <- deref (index_Z map i) ;;
  w <- get_world ;;
  emit w (EvMapLookup i out) ;;; ret out.

(** [if (!benchmark) { ret = write_frame(...); if (ret < 0) return ret; }] *)
Definition submit_unless_benchmark (fuel : nat) (processed_frame : AVFrame) : M W Ctl :=
  if negb benchmark then
    r <- write_frame fuel enc processed_frame vstream_idx ;;
    if r <? 0 then ret (Return r) else ret Fallthrough
  else ret Fallthrough.

(** One pass of the inner loop past its pause check: receive a frame,
    filter it, submit what the filter hands back, count it.  [k] is the
    next iteration. *)
Definition receive_step (fuel : nat) (k : M W Ctl) : M W Ctl :=
  rf <- call_receive_frame ;;
  let '(r, frame) := rf in
  if is_again_or_eof r then ret Fallthrough
  else if r <? 0 then ret (Return r)
  else
    fp <- call_filter_process frame ;;
    let '(r, processed_frame) := fp in
    if (r <? 0) && negb (r =? AVERROR EAGAIN) then ret (Return r)
    else
      match r =? 0, processed_frame with
      | true, Some processed_frame =>
          c <- submit_unless_benchmark fuel processed_frame ;;
          match c with
          | Return r => ret (Return r)
          | Fallthrough => incr_processed_frames ;;; k
          end
      | _, _ => k
      end.

(** The inner [while (!proc_ctx->abort)] that empties the decoder after
    one packet.  Reading the loop condition costs no fuel; a pass through
    the body does. *)
Fixpoint receive_loop (fuel : nat) : M W Ctl :=
  abort <- read_abort ;;
  if abort then ret Fallthrough
  else
    match fuel with
    | O => timeout
    | S fuel' =>
        pause <- read_pause ;;
        if pause then sleep_ms 100 ;;; receive_loop fuel'
        else receive_step fuel' (receive_loop fuel')
    end.

(** The [else if (encoder_config->copy_streams && stream_map[...] >= 0)]
    branch: [&&] reads the map only when the flag is set. *)
Definition passthrough (packet : AVPacket) : M W Ctl :=
  if copy_streams encoder_config then
    out <- read_stream_map (stream_index packet) ;;
    if out >=? 0 then
      in_stream <- deref (index_Z (streams ifmt_ctx) (stream_index packet)) ;;
      out_stream_index <- read_stream_map (stream_index packet) ;;
      ofmt_ctx <- deref (ofmt_ctx_ enc) ;;
      out_stream <- deref (index_Z (streams ofmt_ctx) out_stream_index) ;;
      let packet :=
        av_packet_rescale_ts env packet (time_base in_stream) (time_base out_stream) in
      let packet := set_stream_index packet out_stream_index in
      r <- call_mux_write packet ;;
      if r <? 0 then ret (Return r) else ret Fallthrough
    else ret Fallthrough
  else ret Fallthrough.

(** What the outer loop does with one packet it has read. *)
Definition route_packet (fuel : nat) (packet : AVPacket) : M W Ctl :=
  if stream_index packet =? vstream_idx then
    r <- call_send_packet packet ;;
    if r <? 0 then ret (Return r) else receive_loop fuel
  else passthrough packet.

(** The outer [while (!proc_ctx->abort)] over [av_read_frame]. *)
Fixpoint read_loop (fuel : nat) : M W Ctl :=
  abort <- read_abort ;;
  if abort then ret Fallthrough
  else
    match fuel with
    | O => timeout
    | S fuel' =>
        rp <- call_read_frame ;;
        let '(r, packet) := rp in
        if r <? 0 then
          if r =? AVERROR_EOF then ret Fallthrough else ret (Return r)
        else
          c <- route_packet fuel' packet ;;
          match c with
          | Return r => ret (Return r)
          | Fallthrough => read_loop fuel'
          end
    end.

(** [for (AVFrame *&flushed_frame : flushed_frames)] *)
Fixpoint write_flushed (fuel : nat) (flushed_frames : list AVFrame) : M W Ctl :=
  match flushed_frames with
  | [] => ret Fallthrough
  | flushed_frame :: rest =>
      r <- write_frame fuel enc flushed_frame vstream_idx ;;
      if r <? 0 then ret (Return r)
      else incr_processed_frames ;;; write_flushed fuel rest
  end.

(** Everything after the read loop: flush the filter, encode what it
    held back, flush the encoder. *)
Definition flush_sequence (fuel : nat) : M W Z :=
  ff <- call_filter_flush ;;
  let '(r, flushed_frames) := ff in
  if r <? 0 then ret r
  else
    c <- write_flushed fuel flushed_frames ;;
    match c with
    | Return r => ret r
    | Fallthrough => flush fuel enc
    end.

Definition process_frames (fuel : nat) : M W Z :=
  w <- get_world ;;
  if negb (cap_isOpened env w) then ret (-1)
  else
    set_probe (cap_frame_count env w) (time_now env w) ;;;
    if negb (av_frame_alloc_ok env w) then ret (AVERROR ENOMEM)
    else if negb (av_packet_alloc_ok env w) then ret (AVERROR ENOMEM)
    else
      c <- read_loop fuel ;;
      match c with
      | Return r => ret r
      | Fallthrough => flush_sequence fuel
      end.

End Frames.

End Pipeline.

(** ** [Encoder::init] (encoder.cpp) *)

Inductive LogLevel := LogDebug | LogWarn | LogError.

Record LogEntry := mkLog {
  log_level : LogLevel;
  log_message : string;
  log_arg : Z
}.

(** What the library calls of [Encoder::init] answer. *)
Record InitEnv := mkInitEnv {
  output_context_ok : bool;
  output_format_flags : Z;
  find_encoder_ok : bool;
  new_stream_ok : nat -> bool;
  alloc_context3_ok : bool;
  encoder_default_pix_fmt : Z -> Z;
  guess_frame_rate : AVRational;
  avcodec_open2_ret : Z;
  parameters_from_context : AVCodecContext -> Z * AVCodecParameters;
  malloc_array_ok : bool;
  uninitialised : nat -> Z;
  parameters_copy_ret : AVCodecParameters -> Z;
  avio_open_ret : Z
}.

(** [avformat_new_stream(ctx, nullptr)]: the new stream takes the next
    index. *)
Definition avformat_new_stream (ienv : InitEnv) (ctx : AVFormatContext)
  : option (AVStream * AVFormatContext) :=
  if new_stream_ok ienv (length (streams ctx)) then
    let st := mkStream (nb_streams ctx) empty_codecpar zero_q zero_q zero_q in
    Some (st, mkFormatContext (streams ctx ++ [st]) (oformat_flags ctx) (pb_open ctx))
  else None.

(** Writing through an [AVStream *] that points into the context. *)
Definition store_stream (ctx : AVFormatContext) (st : AVStream) : AVFormatContext :=
  mkFormatContext (<[Z.to_nat (index st) := st]> (streams ctx))
    (oformat_flags ctx) (pb_open ctx).

(** [av_malloc_array(n, sizeof(int))]: [n] cells of whatever was there. *)
Definition av_malloc_array (ienv : InitEnv) (n : nat) : option (list Z) :=
  if malloc_array_ok ienv then Some (map (uninitialised ienv) (seq 0 n)) else None.

Record MapState := mkMapState {
  ms_ofmt : AVFormatContext;
  ms_map : list Z;
  ms_log : list LogEntry
}.

(** The body of [for (int i = 0; i < nb_streams; i++)] on the input
    streams from [i] on; the status is 0 when the loop runs to its end. *)
Fixpoint map_streams (ienv : InitEnv) (in_vstream_idx out_vstream_idx : Z)
    (in_streams : list AVStream) (i : Z) (m : MapState) : Z * MapState :=
  match in_streams with
  | [] => (0, m)
  | in_stream :: rest =>
      let in_codecpar := codecpar in_stream in
      (* Skip the input video stream as it's already processed *)
      if i =? in_vstream_idx then
        map_streams ienv in_vstream_idx out_vstream_idx rest (i + 1)
          (mkMapState (ms_ofmt m) (<[Z.to_nat i := out_vstream_idx]> (ms_map m)) (ms_log m))
      (* Map only audio and subtitle streams (skip other types) *)
      else if negb (is_audio_or_subtitle (codec_type in_codecpar)) then
        map_streams ienv in_vstream_idx out_vstream_idx rest (i + 1)
          (mkMapState (ms_ofmt m) (<[Z.to_nat i := -1]> (ms_map m))
             (ms_log m ++ [mkLog LogWarn "Skipping unsupported stream type at index: {}" i]))
      else
        match avformat_new_stream ienv (ms_ofmt m) with
        | None =>
            (AVERROR_UNKNOWN,
             mkMapState (ms_ofmt m) (ms_map m)
               (ms_log m ++ [mkLog LogError "Failed allocating output stream" 0]))
        | Some (out_stream, ofmt) =>
            let r := parameters_copy_ret ienv in_codecpar in
            if r <? 0 then
              (r, mkMapState ofmt (ms_map m)
                    (ms_log m ++ [mkLog LogError "Failed to copy codec parameters" 0]))
            else
              let out_stream :=
                mkStream (index out_stream) (set_codec_tag in_codecpar 0)
                  (time_base in_stream) (avg_frame_rate out_stream)
                  (r_frame_rate out_stream) in
              map_streams ienv in_vstream_idx out_vstream_idx rest (i + 1)
                (mkMapState (store_stream ofmt out_stream)
                   (<[Z.to_nat i := index out_stream]> (ms_map m))
                   (ms_log m ++ [mkLog LogDebug "Stream mapping: {} (in) -> {} (out)" i]))
        end
  end.

(** [Encoder::Encoder()] *)
Definition new_Encoder : Encoder := mkEncoder None None (-1) None.

Record InitResult := mkInitResult {
  init_ret : Z;
  init_encoder : Encoder;
  init_log : list LogEntry
}.

(** An early [return] of [init]: the status, the members set so far (the
    stream map still as the constructor left it), and the message logged
    after what the log holds already. *)
Definition init_error (log : list LogEntry) (r : Z) (msg : string)
    (o : option AVFormatContext) (e : option AVCodecContext) (v : Z) : InitResult :=
  mkInitResult r (mkEncoder o e v (stream_map_ new_Encoder))
    (log ++ [mkLog LogError msg 0]).

Definition init (ienv : InitEnv) (hw_ctx : bool) (ifmt_ctx : AVFormatContext)
    (dec_ctx : AVCodecContext) (encoder_config : EncoderConfig) (in_vstream_idx : Z)
  : InitResult :=
  (* Allocate the output format context *)
  if negb (output_context_ok ienv) then
    init_error [] AVERROR_UNKNOWN "Could not create output context" None None (-1)
  else
  let ofmt := mkFormatContext [] (output_format_flags ienv) false in
  (* Find the encoder *)
  if negb (find_encoder_ok ienv) then
    init_error [] AVERROR_ENCODER_NOT_FOUND
      "Required video encoder not found for codec {}" (Some ofmt) None (-1)
  else
  (* Create a new video stream in the output file *)
  match avformat_new_stream ienv ofmt with
  | None =>
      init_error [] AVERROR_UNKNOWN "Failed to allocate the output video stream"
        (Some ofmt) None (-1)
  | Some (out_vstream, ofmt) =>
  let out_vstream_idx := index out_vstream in
  (* Allocate the encoder context *)
  if negb (alloc_context3_ok ienv) then
    init_error [] (AVERROR ENOMEM) "Failed to allocate the encoder context"
      (Some ofmt) None out_vstream_idx
  else
  (* Set the pixel format *)
  let enc_pix_fmt :=
    if negb (pix_fmt encoder_config =? AV_PIX_FMT_NONE) then pix_fmt encoder_config
    else encoder_default_pix_fmt ienv (ctx_pix_fmt dec_ctx) in
  let enc_ctx0 :=
    mkCodecContext (out_width encoder_config) (out_height encoder_config)
      (ctx_sample_aspect_ratio dec_ctx) (bit_rate encoder_config) (ctx_color dec_ctx)
      enc_pix_fmt zero_q zero_q 0 hw_ctx 0 0 in
  if enc_pix_fmt =? AV_PIX_FMT_NONE then
    init_error [] (AVERROR EINVAL) "Could not get the default pixel format for the encoder"
      (Some ofmt) (Some enc_ctx0) out_vstream_idx
  else
  let log :=
    if negb (pix_fmt encoder_config =? AV_PIX_FMT_NONE) then []
    else [mkLog LogDebug "Auto-selected pixel format: {}" enc_pix_fmt] in
  (* Set the output video's time base *)
  let enc_time_base :=
    if (0 <? num (ctx_time_base dec_ctx)) && (0 <? den (ctx_time_base dec_ctx))
    then ctx_time_base dec_ctx
    else av_inv_q (guess_frame_rate ienv) in
  (* Set the output video's frame rate *)
  let enc_framerate :=
    if (0 <? num (ctx_framerate dec_ctx)) && (0 <? den (ctx_framerate dec_ctx))
    then ctx_framerate dec_ctx
    else guess_frame_rate ienv in
  (* Use global headers if necessary *)
  let enc_flags :=
    if negb (Z.land (oformat_flags ofmt) AVFMT_GLOBALHEADER =? 0)
    then Z.lor 0 AV_CODEC_FLAG_GLOBAL_HEADER else 0 in
  let enc_ctx :=
    mkCodecContext (out_width encoder_config) (out_height encoder_config)
      (ctx_sample_aspect_ratio dec_ctx) (bit_rate encoder_config) (ctx_color dec_ctx)
      enc_pix_fmt enc_time_base enc_framerate enc_flags hw_ctx
      (crf encoder_config) (preset encoder_config) in
  (* Open the encoder *)
  if avcodec_open2_ret ienv <? 0 then
    init_error log (avcodec_open2_ret ienv) "Cannot open video encoder"
      (Some ofmt) (Some enc_ctx) out_vstream_idx
  else
  (* Copy encoder parameters to output video stream *)
  let '(r, vpar) := parameters_from_context ienv enc_ctx in
  if r <? 0 then
    init_error log r "Failed to copy encoder parameters to output video stream"
      (Some ofmt) (Some enc_ctx) out_vstream_idx
  else
  let out_vstream :=
    mkStream (index out_vstream) vpar enc_time_base enc_framerate enc_framerate in
  let ofmt := store_stream ofmt out_vstream in
  (* Copy other streams if necessary *)
  let mapped :=
    if copy_streams encoder_config then
      match av_malloc_array ienv (length (streams ifmt_ctx)) with
      | None =>
          (AVERROR ENOMEM, None,
           mkMapState ofmt []
             (log ++ [mkLog LogError "Could not allocate stream mapping" 0]))
      | Some cells =>
          let '(r, m) :=
            map_streams ienv in_vstream_idx out_vstream_idx (streams ifmt_ctx) 0
              (mkMapState ofmt cells log) in
          (r, Some (ms_map m), m)
      end
    else (0, None, mkMapState ofmt [] log) in
  let '(r, smap, m) := mapped in
  let ofmt := ms_ofmt m in
  if negb (r =? 0) then
    mkInitResult r (mkEncoder (Some ofmt) (Some enc_ctx) out_vstream_idx smap) (ms_log m)
  else
  (* Open the output file *)
  if (Z.land (oformat_flags ofmt) AVFMT_NOFILE =? 0) && (avio_open_ret ienv <? 0) then
    mkInitResult (avio_open_ret ienv)
      (mkEncoder (Some ofmt) (Some enc_ctx) out_vstream_idx smap)
      (ms_log m ++ [mkLog LogError "Could not open output file '{}'" 0])
  else
    mkInitResult 0
      (mkEncoder
         (Some (mkFormatContext (streams ofmt) (oformat_flags ofmt)
                  (Z.land (oformat_flags ofmt) AVFMT_NOFILE =? 0)))
         (Some enc_ctx) out_vstream_idx smap)
      (ms_log m)
  end.

(** ** The accessors of [Encoder] (encoder.cpp)

    [get_encoder_context], [get_format_context],
    [get_output_video_stream_index] and [get_stream_map] hand out the
    four members. *)

Definition get_encoder_context (enc : Encoder) : option AVCodecContext := enc_ctx_ enc.
Definition get_format_context (enc : Encoder) : option AVFormatContext := ofmt_ctx_ enc.
Definition get_output_video_stream_index (enc : Encoder) : Z := out_vstream_idx_ enc.
Definition get_stream_map (enc : Encoder) : option (list Z) := stream_map_ enc.

(** ** [process_video] (libvideo2x.cpp) *)

Inductive FilterType :=
| FILTER_BACKEND_LIBPLACEBO
| FILTER_BACKEND_REALESRGAN
| FILTER_BACKEND_UNKNOWN.

(** [FilterConfig]: the tag and both members of the union; a [const char *]
    is kept as "is it non-null". *)
Record FilterConfig := mkFilterConfig {
  filter_type : FilterType;
  libplacebo_out_width : Z;
  libplacebo_out_height : Z;
  libplacebo_shader_path : bool;
  realesrgan_scaling_factor : Z;
  realesrgan_model : bool
}.

(** What the setup calls of [process_video] answer. *)
Record SetupEnv := mkSetupEnv {
  av_hwdevice_ctx_create_ret : Z;
  init_decoder_ret : Z;
  decoder_ifmt_ctx : AVFormatContext;
  decoder_dec_ctx : AVCodecContext;
  decoder_vstream_idx : Z;
  avformat_write_header_ret : Z;
  muxer_time_base : AVStream -> AVRational;
  filter_init_ret : Z
}.

Definition AV_HWDEVICE_TYPE_NONE : Z := 0.

Definition with_output_size (c : EncoderConfig) (w h : Z) : EncoderConfig :=
  mkEncoderConfig w h (bit_rate c) (codec c) (pix_fmt c) (preset c) (crf c)
    (copy_streams c).

Definition set_time_base (st : AVStream) (q : AVRational) : AVStream :=
  mkStream (index st) (codecpar st) q (avg_frame_rate st) (r_frame_rate st).

(** [avformat_write_header(ofmt_ctx, NULL)]: the muxer answers with a
    status and overwrites, in the context it is given, the time base of
    each stream with the one it will use. *)
Definition avformat_write_header (senv : SetupEnv) (ofmt_ctx : AVFormatContext)
  : Z * AVFormatContext :=
  (avformat_write_header_ret senv,
   mkFormatContext
     (map (fun st => set_time_base st (muxer_time_base senv st)) (streams ofmt_ctx))
     (oformat_flags ofmt_ctx) (pb_open ofmt_ctx)).

(** The encoder object once the context its [ofmt_ctx_] points to has
    become [ofmt_ctx]. *)
Definition with_format_context (enc : Encoder) (ofmt_ctx : AVFormatContext) : Encoder :=
  mkEncoder (Some ofmt_ctx) (enc_ctx_ enc) (out_vstream_idx_ enc) (stream_map_ enc).

(** The encoder object as the header write leaves it. *)
Definition after_header (senv : SetupEnv) (enc : Encoder) : Encoder :=
  match get_format_context enc with
  | Some ofmt_ctx => with_format_context enc (snd (avformat_write_header senv ofmt_ctx))
  | None => enc
  end.

(** Does the [if]/[else if] chain get to construct a filter? *)
Definition filter_created (filter_config : FilterConfig) : bool :=
  match filter_type filter_config with
  | FILTER_BACKEND_LIBPLACEBO => libplacebo_shader_path filter_config
  | FILTER_BACKEND_REALESRGAN => realesrgan_model filter_config
  | FILTER_BACKEND_UNKNOWN => false
  end.

Section Video.

Context {W : Type} (env : Env W) (senv : SetupEnv) (ienv : InitEnv).

(** [a * b] on two [int]s: a product that does not fit is undefined. *)
Definition mul_int (a b : Z) : M W Z :=
  if (INT_MIN <=? a * b) && (a * b <=? INT_MAX) then ret (a * b) else fault.

(** The [switch] on the filter type that fixes the output dimensions;
    [None] is its [default] branch. *)
Definition output_dimensions (filter_config : FilterConfig) (dec_ctx : AVCodecContext)
  : M W (option (Z * Z)) :=
  match filter_type filter_config with
  | FILTER_BACKEND_LIBPLACEBO =>
      ret (Some (libplacebo_out_width filter_config,
                 libplacebo_out_height filter_config))
  | FILTER_BACKEND_REALESRGAN =>
      output_width <-
        mul_int (ctx_width dec_ctx) (realesrgan_scaling_factor filter_config) ;;
      output_height <-
        mul_int (ctx_height dec_ctx) (realesrgan_scaling_factor filter_config) ;;
      ret (Some (output_width, output_height))
  | FILTER_BACKEND_UNKNOWN => ret None
  end.

(** An array that the encoder's [init] allocated, seen from the run: it
    has an address on the heap from here on, and a null pointer stays
    null. *)
Definition on_heap (array : option (list Z)) : M W (option nat) :=
  fun s =>
    match array with
    | Some cells =>
        Ok (Some (length (heap s)))
          (mkSt (world s) (trace s) (proc_ctx s) (heap s ++ [cells]))
    | None => Ok None s
    end.

(** The tail of [process_video], from the call of [process_frames] on. *)
Definition process_video_run (fuel : nat) (benchmark : bool)
    (encoder_config : EncoderConfig) (enc : Encoder) (stream_map : option nat)
  : M W Z :=
  r <- process_frames env encoder_config (decoder_ifmt_ctx senv) enc
         (decoder_vstream_idx senv) stream_map benchmark fuel ;;
  if r <? 0 then ret r
  else
    (* Write the output file trailer *)
    w <- get_world ;;
    emit w EvWriteTrailer ;;;
    if (r <? 0) && negb (r =? AVERROR_EOF) then ret r else ret 0.

Definition process_video (fuel : nat) (benchmark : bool) (hw_type : Z)
    (filter_config : FilterConfig) (encoder_config : EncoderConfig) : M W Z :=
  (* Initialize hardware device context *)
  if negb (hw_type =? AV_HWDEVICE_TYPE_NONE) && (av_hwdevice_ctx_create_ret senv <? 0)
  then ret (av_hwdevice_ctx_create_ret senv)
  else
  let hw_ctx := negb (hw_type =? AV_HWDEVICE_TYPE_NONE) in
  (* Initialize input *)
  if init_decoder_ret senv <? 0 then ret (init_decoder_ret senv)
  else
  (* Initialize output dimensions based on filter configuration *)
  dimensions <- output_dimensions filter_config (decoder_dec_ctx senv) ;;
  match dimensions with
  | None => ret (-1)
  | Some (output_width, output_height) =>
  (* Initialize output encoder *)
  let encoder_config := with_output_size encoder_config output_width output_height in
  let res :=
    init ienv hw_ctx (decoder_ifmt_ctx senv) (decoder_dec_ctx senv) encoder_config
      (decoder_vstream_idx senv) in
  if init_ret res <? 0 then ret (init_ret res)
  else
  let enc := init_encoder res in
  (* [stream_map]: the pointer to the array that [init] allocated *)
  stream_map <- on_heap (get_stream_map enc) ;;
  (* Write the output file header *)
  ofmt_ctx <- deref (get_format_context enc) ;;
  let header := avformat_write_header senv ofmt_ctx in
  w <- get_world ;;
  emit w (EvWriteHeader (fst header)) ;;;
  if fst header <? 0 then ret (fst header)
  else
  let enc := with_format_context enc (snd header) in
  (* Create and initialize the appropriate filter *)
  if negb (filter_created filter_config) then ret (-1)
  else
  if filter_init_ret senv <? 0 then ret (filter_init_ret senv)
  else
  (* Process frames *)
  process_video_run fuel benchmark encoder_config enc stream_map
  end.

End Video.

(** ** Reading a trace *)

(** The events a run added to the trace it started from. *)
Definition new_events {W A} (s : St W) (r : Result W A) : list Event :=
  drop (length (trace s)) (trace (final r)).

(** A weighted count of events. *)
Fixpoint tally (weight : Event -> Z) (t : list Event) : Z :=
  match t with
  | [] => 0
  | e :: t' => weight e + tally weight t'
  end.

(** A frame the decoder handed over. *)
Definition decoded (e : Event) : Z :=
  match e with
  | EvReceiveFrame r _ => if is_again_or_eof r || (r <? 0) then 0 else 1
  | _ => 0
  end.

(** A frame given to the filter. *)
Definition filter_input (e : Event) : Z :=
  match e with
  | EvFilterProcess _ _ _ => 1
  | _ => 0
  end.

(** A frame [process_frame] handed back with status 0. *)
Definition filter_output (e : Event) : Z :=
  match e with
  | EvFilterProcess _ r (Some _) => if r =? 0 then 1 else 0
  | _ => 0
  end.

(** The frames a filter flush handed back. *)
Definition flushed (e : Event) : Z :=
  match e with
  | EvFilterFlush _ frames => Z.of_nat (length frames)
  | _ => 0
  end.

(** A frame submitted to the encoder. *)
Definition submitted (e : Event) : Z :=
  match e with
  | EvSendFrame (Some _) _ => 1
  | _ => 0
  end.

(** A packet handed to the muxer. *)
Definition mux_written (e : Event) : Z :=
  match e with
  | EvMuxWrite _ _ => 1
  | _ => 0
  end.

(** The status of a send, receive or mux call that [write_frame] has to
    report: negative, and for a receive neither "try again" nor "end of
    stream". *)
Definition failed_call (e : Event) : option Z :=
  match e with
  | EvSendFrame _ r => if r <? 0 then Some r else None
  | EvReceivePacket r _ =>
      if is_again_or_eof r then None else if r <? 0 then Some r else None
  | EvMuxWrite _ r => if r <? 0 then Some r else None
  | _ => None
  end.

(** Calls of the read / decode / filter side of the control loop. *)
Definition is_decode_side (e : Event) : bool :=
  match e with
  | EvReadFrame _ _ | EvSendPacket _ _ | EvReceiveFrame _ _
  | EvFilterProcess _ _ _ => true
  | _ => false
  end.

Definition is_filter_flush (e : Event) : bool :=
  match e with
  | EvFilterFlush _ _ => true
  | _ => false
  end.

(** The [nullptr] frame that asks the encoder to flush. *)
Definition is_encoder_flush (e : Event) : bool :=
  match e with
  | EvSendFrame None _ => true
  | _ => false
  end.

Definition is_abort (e : Event) : bool :=
  match e with
  | EvAbortObserved => true
  | _ => false
  end.

(** The pts of the frames sent to the encoder, in order. *)
Fixpoint sent_pts (t : list Event) : list Z :=
  match t with
  | [] => []
  | EvSendFrame (Some f) _ :: t' => pts f :: sent_pts t'
  | _ :: t' => sent_pts t'
  end.

(** The pts of the packets written to output stream [idx], in order. *)
Fixpoint written_pts (idx : Z) (t : list Event) : list Z :=
  match t with
  | [] => []
  | EvMuxWrite p _ :: t' =>
      if stream_index p =? idx then pkt_pts p :: written_pts idx t'
      else written_pts idx t'
  | _ :: t' => written_pts idx t'
  end.

(** ** Statements about runs *)

Definition quiet (e : Event) : Prop := failed_call e = None.

(** Either no call failed, or the last one did and its status is the
    result. *)
Definition reports_failure {W} (evs : list Event) (res : Result W Z) : Prop :=
  Forall quiet evs \/
  exists evs' e status s',
    evs = evs' ++ [e] /\ Forall quiet evs' /\ failed_call e = Some status /\
    res = Ok status s'.

(** Whatever way [m] ends, the trace it leaves is the one it found plus
    events that all satisfy [P]. *)
Definition emits {W A} (P : Event -> Prop) (m : M W A) : Prop :=
  forall s, exists evs, trace (final (m s)) = trace s ++ evs /\ Forall P evs.

(** The encoder-and-muxer side of the pipeline. *)
Definition encode_side (e : Event) : Prop :=
  match e with
  | EvSendFrame _ _ | EvReceivePacket _ _ | EvMuxWrite _ _ => True
  | _ => False
  end.

(** The calls of a receive loop of the encoder. *)
Definition drain_side (e : Event) : Prop :=
  match e with
  | EvReceivePacket _ _ | EvMuxWrite _ _ => True
  | _ => False
  end.

(** [m] leaves the counters of the processing context alone. *)
Definition keeps_ctx {W A} (m : M W A) : Prop :=
  forall s, proc_ctx (final (m s)) = proc_ctx s.

(** Three balances of a run that a complete pass of [process_frames]
    leaves where they were: frames counted against frames the filter put
    out, frames submitted against frames that had to be, and frames
    decoded against frames given to the filter. *)
Definition ledger {W} (benchmark : bool) (s : St W) : Z * Z * Z :=
  let t := trace s in
  (processed_frames (proc_ctx s) - tally filter_output t - tally flushed t,
   tally submitted t - (if benchmark then 0 else tally filter_output t) - tally flushed t,
   tally decoded t - tally filter_input t).

(** What a loop of [process_frames] owes the ledger: nothing when it
    falls through, and a [return] only with a negative status. *)
Definition balanced {W} (benchmark : bool) (s : St W) (c : Ctl) (s' : St W) : Prop :=
  match c with
  | Return r => r < 0
  | Fallthrough => ledger benchmark s' = ledger benchmark s
  end.

(** Every read of the stream map that a run records found what the map
    holds at that index. *)
Definition lookup_ok (stream_map : option (list Z)) (e : Event) : Prop :=
  match e with
  | EvMapLookup i out => exists m, stream_map = Some m /\ index_Z m i = Some out
  | _ => True
  end.

(** The world after [k] polls of 100 ms each. *)
Definition after_polls {W} (env : Env W) (k : nat) (w : W) : W :=
  Nat.iter k (sleep_for env 100) w.

(** For [k] polls in a row the controller keeps [pause] set and [abort]
    clear. *)
Definition paused_for {W} (env : Env W) (k : nat) (w : W) : Prop :=
  forall j, (j < k)%nat ->
    ctl_abort env (after_polls env j w) = false /\
    ctl_pause env (after_polls env j w) = true.

(** The state those [k] polls leave: [k] sleeps and nothing else. *)
Definition polled {W} (env : Env W) (k : nat) (s : St W) : St W :=
  mkSt (after_polls env k (world s)) (trace s ++ repeat (EvSleep 100) k) (proc_ctx s)
    (heap s).

(** Whatever way [m] ends, the events it adds and the way it ends are
    related by [Q]. *)
Definition ends_as {W A} (Q : list Event -> Result W A -> Prop) (m : M W A) : Prop :=
  forall s, exists evs, trace (final (m s)) = trace s ++ evs /\ Q evs (m s).

Definition no_abort (evs : list Event) : Prop :=
  Forall (fun e => is_abort e = false) evs.

(** How the inner loop meets [abort]: not at all, or as the last thing it
    does, leaving through its loop condition with the flag still set. *)
Definition inner_abort_shape {W} (env : Env W) (evs : list Event)
    (res : Result W Ctl) : Prop :=
  no_abort evs \/
  exists evs' s',
    evs = evs' ++ [EvAbortObserved] /\ no_abort evs' /\
    res = Ok Fallthrough s' /\ ctl_abort env (world s') = true.

(** How the outer loop meets [abort]: not at all, or by leaving through
    its loop condition, with nothing but reads of the flag from the first
    sighting on. *)
Definition outer_abort_shape {W} (evs : list Event) (res : Result W Ctl) : Prop :=
  no_abort evs \/
  exists evs' tail s',
    evs = evs' ++ EvAbortObserved :: tail /\ no_abort evs' /\
    Forall (fun e => is_abort e = true) tail /\ res = Ok Fallthrough s'.

(** What the flush sequence adds: the filter flush, then calls to the
    encoder and the muxer only. *)
Definition flush_shape {W} (evs : list Event) (res : Result W Z) : Prop :=
  exists r frames rest,
    evs = EvFilterFlush r frames :: rest /\ Forall encode_side rest.

(** The state in which [process_frames] enters its read loop. *)
Definition probed {W} (env : Env W) (s : St W) : St W :=
  mkSt (world s) (trace s)
    (mkProcCtx (cap_frame_count env (world s)) (processed_frames (proc_ctx s))
       (time_now env (world s)))
    (heap s).

(** What the pipeline has from the encoder's flushing protocol: once the
    encoder has accepted the request to flush it is draining, it stays so
    whatever is received from it, muxed or flushed out of the filter, and
    while it is draining it refuses every [avcodec_send_frame]. *)
Record DrainingContract {W} (env : Env W) (draining : W -> Prop) : Prop := {
  flush_request_accepted :
    forall w r w', avcodec_send_frame env None w = (r, w') -> 0 <= r -> draining w';
  draining_refuses_frames :
    forall f w r w', draining w -> avcodec_send_frame env f w = (r, w') -> r < 0;
  draining_receive :
    forall w r p w',
      draining w -> avcodec_receive_packet env w = (r, p, w') -> draining w';
  draining_mux :
    forall p w r w',
      draining w -> av_interleaved_write_frame env p w = (r, w') -> draining w';
  draining_filter_flush :
    forall w r frames w',
      draining w -> filter_flush env w = (r, frames, w') -> draining w'
}.

(** [m] does not take the encoder out of its draining state. *)
Definition keeps_draining {W A} (draining : W -> Prop) (m : M W A) : Prop :=
  forall s, draining (world s) -> draining (world (final (m s))).

(** The entry of the stream map for input stream [i], if there is a map
    and it has one. *)
Definition stream_entry (enc : Encoder) (i : Z) : option Z :=
  match stream_map_ enc with
  | Some m => index_Z m i
  | None => None
  end.

(** Does input stream [i] get an output stream of its own? *)
Definition copied (in_vstream_idx : Z) (i : Z) (st : AVStream) : bool :=
  negb (i =? in_vstream_idx) && is_audio_or_subtitle (codec_type (codecpar st)).

(** The number of such streams among [in_streams], the first of which
    has index [i]. *)
Fixpoint count_copied (in_vstream_idx : Z) (in_streams : list AVStream) (i : Z) : nat :=
  match in_streams with
  | [] => 0
  | st :: rest =>
      ((if copied in_vstream_idx i st then 1 else 0) +
       count_copied in_vstream_idx rest (i + 1))%nat
  end.

Definition skip_warning (i : Z) : LogEntry :=
  mkLog LogWarn "Skipping unsupported stream type at index: {}" i.

(** How the stream mapper treats input stream [st] of index [i]: the
    video stream goes to the output video stream; an audio or subtitle
    stream to an output stream created for it (at [base] or later) that
    has its codec parameters, with the codec tag cleared, and its time
    base; any other stream to -1, with a warning. *)
Definition mapped_as (in_vstream_idx out_vstream_idx : Z) (base : nat) (i : Z)
    (st : AVStream) (m : MapState) : Prop :=
  if i =? in_vstream_idx then index_Z (ms_map m) i = Some out_vstream_idx
  else if is_audio_or_subtitle (codec_type (codecpar st)) then
    exists o ost,
      index_Z (ms_map m) i = Some o /\ Z.of_nat base <= o /\
      index_Z (streams (ms_ofmt m)) o = Some ost /\ index ost = o /\
      codecpar ost = set_codec_tag (codecpar st) 0 /\
      time_base ost = time_base st
  else index_Z (ms_map m) i = Some (-1) /\ In (skip_warning i) (ms_log m).

(** [m'] is [m] after more of the mapping loop: the first [n] entries of
    the map are as they were, and output streams and log lines were only
    added. *)
Definition extends (n : nat) (m m' : MapState) : Prop :=
  length (ms_map m') = length (ms_map m) /\
  (forall j, (j < n)%nat -> ms_map m' !! j = ms_map m !! j) /\
  (exists added, streams (ms_ofmt m') = streams (ms_ofmt m) ++ added) /\
  (exists l, ms_log m' = ms_log m ++ l).

(** Every frame sent to the encoder carries pts [t]. *)
Definition sends_with_pts (t : Z) (e : Event) : Prop :=
  match e with
  | EvSendFrame (Some f) _ => pts f = t
  | _ => True
  end.

(** Every frame sent to the encoder carries a pts of its own (positive)
    or the index of the input video stream. *)
Definition pts_or_vstream_idx (vstream_idx : Z) (e : Event) : Prop :=
  match e with
  | EvSendFrame (Some f) _ => 0 < pts f \/ pts f = vstream_idx
  | _ => True
  end.

(** What follows the first time a run saw [abort] set. *)
Fixpoint after_first_abort (t : list Event) : list Event :=
  match t with
  | [] => []
  | EvAbortObserved :: t' => t'
  | _ :: t' => after_first_abort t'
  end.

(** A hard stop: once [abort] was seen, no filter flush, no encoder
    flush and no frame submitted. *)
Definition hard_stop (t : list Event) : Prop :=
  Forall (fun e => is_filter_flush e = false /\ is_encoder_flush e = false /\
                   submitted e = 0)
    (after_first_abort t).

(** ** A small world to run the pipeline in

    A container of packets, a decoder that turns each video packet into
    one frame carrying the packet's pts, a filter with one of four
    behaviours, an encoder that turns each frame into one packet and
    refuses frames once it was told to flush, and a muxer that keeps what
    it is given.  The controller raises [abort] once a given number of
    packets was read, and holds [pause] until a given time was slept. *)

Inductive FilterMode :=
| FilterPass             (* one frame out for each frame in *)
| FilterDrop             (* "try again" for every frame, nothing held *)
| FilterHold (n : nat)   (* holds the latest n frames until the flush *)
| FilterFail (r : Z).    (* answers every frame with status r *)

Record World := mkWorld {
  w_input : list AVPacket;
  w_read : nat;
  w_decoder : list AVFrame;
  w_filter_mode : FilterMode;
  w_filter : list AVFrame;
  w_encoder : list AVPacket;
  w_draining : bool;
  w_output : list AVPacket;
  w_clock : Z;
  w_abort_after : option nat;
  w_pause_until : Z
}.

Definition no_packet : AVPacket := mkPacket 0 0 0 0 0.
Definition no_frame : AVFrame := mkFrame 0 0 0.

Definition sim_abort (w : World) : bool :=
  match w_abort_after w with
  | Some n => (n <=? w_read w)%nat
  | None => false
  end.

Definition sim_pause (w : World) : bool := w_clock w <? w_pause_until w.

Definition sim_sleep (ms : Z) (w : World) : World :=
  mkWorld (w_input w) (w_read w) (w_decoder w) (w_filter_mode w) (w_filter w)
    (w_encoder w) (w_draining w) (w_output w) (w_clock w + ms)
    (w_abort_after w) (w_pause_until w).

Definition sim_read_frame (w : World) : Z * AVPacket * World :=
  match w_input w with
  | [] => (AVERROR_EOF, no_packet, w)
  | p :: rest =>
      (0, p,
       mkWorld rest (S (w_read w)) (w_decoder w) (w_filter_mode w) (w_filter w)
         (w_encoder w) (w_draining w) (w_output w) (w_clock w)
         (w_abort_after w) (w_pause_until w))
  end.

Definition sim_send_packet (p : AVPacket) (w : World) : Z * World :=
  (0,
   mkWorld (w_input w) (w_read w) (w_decoder w ++ [mkFrame (pkt_pts p) 0 (pkt_data p)])
     (w_filter_mode w) (w_filter w) (w_encoder w) (w_draining w) (w_output w)
     (w_clock w) (w_abort_after w) (w_pause_until w)).

Definition sim_receive_frame (w : World) : Z * AVFrame * World :=
  match w_decoder w with
  | [] => (AVERROR EAGAIN, no_frame, w)
  | f :: rest =>
      (0, f,
       mkWorld (w_input w) (w_read w) rest (w_filter_mode w) (w_filter w)
         (w_encoder w) (w_draining w) (w_output w) (w_clock w)
         (w_abort_after w) (w_pause_until w))
  end.

Definition with_filter (w : World) (held : list AVFrame) : World :=
  mkWorld (w_input w) (w_read w) (w_decoder w) (w_filter_mode w) held
    (w_encoder w) (w_draining w) (w_output w) (w_clock w)
    (w_abort_after w) (w_pause_until w).

Definition sim_filter_process (f : AVFrame) (w : World) : Z * option AVFrame * World :=
  match w_filter_mode w with
  | FilterPass => (0, Some f, w)
  | FilterDrop => (AVERROR EAGAIN, None, w)
  | FilterFail r => (r, None, w)
  | FilterHold n =>
      if (length (w_filter w) <? n)%nat then
        (AVERROR EAGAIN, None, with_filter w (w_filter w ++ [f]))
      else
        match w_filter w ++ [f] with
        | [] => (AVERROR EAGAIN, None, w)
        | oldest :: held => (0, Some oldest, with_filter w held)
        end
  end.

Definition sim_filter_flush (w : World) : Z * list AVFrame * World :=
  (0, w_filter w, with_filter w []).

Definition with_encoder (w : World) (queue : list AVPacket) (draining : bool)
    (output : list AVPacket) : World :=
  mkWorld (w_input w) (w_read w) (w_decoder w) (w_filter_mode w) (w_filter w)
    queue draining output (w_clock w) (w_abort_after w) (w_pause_until w).

Definition sim_send_frame (f : option AVFrame) (w : World) : Z * World :=
  if w_draining w then (AVERROR_EOF, w)
  else
    match f with
    | Some f =>
        (0, with_encoder w (w_encoder w ++ [mkPacket 0 (pts f) (pts f) 1 (image f)])
              false (w_output w))
    | None => (0, with_encoder w (w_encoder w) true (w_output w))
    end.

Definition sim_receive_packet (w : World) : Z * AVPacket * World :=
  match w_encoder w with
  | [] => (if w_draining w then AVERROR_EOF else AVERROR EAGAIN, no_packet, w)
  | p :: rest => (0, p, with_encoder w rest (w_draining w) (w_output w))
  end.

Definition sim_mux_write (p : AVPacket) (w : World) : Z * World :=
  (0, with_encoder w (w_encoder w) (w_draining w) (w_output w ++ [p])).

Definition sim_env : Env World :=
  mkEnv World sim_abort sim_pause sim_sleep
    (fun _ => true) (fun w => Z.of_nat (length (w_input w))) w_clock
    (fun _ => true) (fun _ => true)
    sim_read_frame sim_send_packet sim_receive_frame
    sim_filter_process sim_filter_flush
    (fun f fmt => Some (mkFrame (pts f) fmt (image f)))
    sim_send_frame sim_receive_packet
    (fun p _ _ => p)
    sim_mux_write.

(** A container holding [packets], nothing decoded, filtered or encoded
    yet. *)
Definition sim_world (packets : list AVPacket) (mode : FilterMode)
    (abort_after : option nat) (pause_until : Z) : World :=
  mkWorld packets 0 [] mode [] [] false [] 0 abort_after pause_until.

Definition sim_start (w : World) : St World := mkSt w [] (mkProcCtx 0 0 0) [].

(** A packet of the given stream with the given pts. *)
Definition packet_of (stream : Z) (t : Z) : AVPacket := mkPacket stream t t 1 7.

Definition sim_time_base : AVRational := mkRational 1 25.

Definition sim_enc_ctx : AVCodecContext :=
  mkCodecContext 640 480 (mkRational 1 1) 0 0 0 sim_time_base (mkRational 25 1) 0 false 23 0.

(** An encoder object as [init] would leave it for a single video stream,
    without a stream map. *)
Definition sim_encoder : Encoder :=
  mkEncoder
    (Some (mkFormatContext
             [mkStream 0 (mkCodecpar AVMEDIA_TYPE_VIDEO 27 0 0) sim_time_base
                (mkRational 25 1) (mkRational 25 1)] 0 true))
    (Some sim_enc_ctx) 0 None.

(** An input with an audio stream, a video stream and a stream of
    unknown type. *)
Definition sim_ifmt_ctx : AVFormatContext :=
  mkFormatContext
    [mkStream 0 (mkCodecpar AVMEDIA_TYPE_AUDIO 86018 7 0) (mkRational 1 48000)
       zero_q zero_q;
     mkStream 1 (mkCodecpar AVMEDIA_TYPE_VIDEO 27 5 0) sim_time_base
       (mkRational 25 1) (mkRational 25 1);
     mkStream 2 (mkCodecpar AVMEDIA_TYPE_UNKNOWN 0 0 0) (mkRational 1 1000)
       zero_q zero_q] 0 true.

Definition sim_config (copy : bool) : EncoderConfig :=
  mkEncoderConfig 640 480 0 27 0 0 23 copy.

(** A run of [process_frames] in the small world, with input video
    stream [vstream_idx] and no stream copy. *)
Definition sim_run (vstream_idx : Z) (benchmark : bool) (w : World) : Result World Z :=
  process_frames sim_env (sim_config false) sim_ifmt_ctx sim_encoder vstream_idx None
    benchmark 100 (sim_start w).

(** Ten video packets of stream [vstream_idx] whose frames carry pts 0. *)
Definition ten_frames_without_pts (vstream_idx : Z) : list AVPacket :=
  repeat (packet_of vstream_idx 0) 10.

(** Answers for the setup calls of [process_video] and [Encoder::init]
    in which every one of them succeeds. *)
Definition sim_dec_ctx : AVCodecContext :=
  mkCodecContext 320 240 (mkRational 1 1) 0 0 0 sim_time_base (mkRational 25 1) 0 false 0 0.

Definition sim_senv : SetupEnv :=
  mkSetupEnv 0 0 sim_ifmt_ctx sim_dec_ctx 1 0 time_base 0.

Definition sim_ienv : InitEnv :=
  mkInitEnv true 0 true (fun _ => true) true (fun fmt => fmt) (mkRational 25 1) 0
    (fun ctx => (0, mkCodecpar AVMEDIA_TYPE_VIDEO 27 0 0)) true (fun _ => 12345)
    (fun _ => 0) 0.

Definition sim_filter_config : FilterConfig :=
  mkFilterConfig FILTER_BACKEND_REALESRGAN 0 0 false 2 true.

(** A run that is told to stop after its second packet, with a filter
    that holds frames back. *)
Definition aborted_world : World :=
  sim_world (ten_frames_without_pts 1) (FilterHold 3) (Some 2%nat) 0.

(** The end of a run: the container is read, the filter still holds two
    frames. *)
Definition held_world : World :=
  mkWorld [] 10 [] (FilterHold 2) [mkFrame 8 0 7; mkFrame 9 0 7] [] false [] 0 None 0.

(** The encoder of the small world is draining when its flag says so. *)
Definition sim_draining (w : World) : Prop := w_draining w = true.

(** A filter that hands no frame back, and a run in benchmark mode. *)
Definition dropping_world : World :=
  sim_world (ten_frames_without_pts 1) FilterDrop None 0.

(** A filter that holds three frames back until it is flushed. *)
Definition holding_world : World :=
  sim_world (ten_frames_without_pts 1) (FilterHold 3) None 0.

(** A filter that reports the end of its stream on the first frame. *)
Definition eof_world : World :=
  sim_world [packet_of 1 0] (FilterFail AVERROR_EOF) None 0.

(** ** Relations between the start and the end of a computation *)

(** A relation between the state a computation starts in and the way it
    ends, whatever it returns. *)
Definition Rel (W : Type) : Type := forall A : Type, St W -> Result W A -> Prop.

(** [m] ends in a way [R] allows, from every state. *)
Definition holds {W A} (R : Rel W) (m : M W A) : Prop := forall s, R A s (m s).

(** [R] allows doing nothing, running out of fuel, and one step allowed
    by [R] followed by another. *)
Record Composes {W} (R : Rel W) : Prop := {
  composes_ret : forall A (a : A) s, R A s (Ok a s);
  composes_timeout : forall A s, R A s (Timeout s);
  composes_bind :
    forall A B s (res : Result W A) (k : A -> M W B),
      R A s res ->
      (forall a s1, res = Ok a s1 -> R B s1 (k a s1)) ->
      R B s (match res with
             | Ok a s1 => k a s1
             | Timeout s1 => Timeout s1
             | Fault s1 => Fault s1
             end)
}.

(** The trace grew by events that all satisfy [P]. *)
Definition adds {W} (P : Event -> Prop) : Rel W :=
  fun A s res => exists evs, trace (final res) = trace s ++ evs /\ Forall P evs.

(** Calls of the read loop: anything but the two flushes and the writes
    of the container's header and trailer. *)
Definition loop_side (e : Event) : Prop :=
  match e with
  | EvFilterFlush _ _ | EvSendFrame None _ | EvWriteHeader _ | EvWriteTrailer => False
  | _ => True
  end.

(** Calls made for a frame that is submitted: the frame is sent, packets
    are received and muxed. *)
Definition submit_side (e : Event) : Prop :=
  match e with
  | EvSendFrame (Some _) _ | EvReceivePacket _ _ | EvMuxWrite _ _ => True
  | _ => False
  end.

(** Calls of the pipeline proper, not of the container's header and
    trailer. *)
Definition pipeline_side (e : Event) : Prop :=
  match e with
  | EvWriteHeader _ | EvWriteTrailer => False
  | _ => True
  end.

(** A request to the encoder to flush. *)
Definition flush_requests (e : Event) : Z := if is_encoder_flush e then 1 else 0.

(** What the flush sequence adds, in full: the filter flush first, then
    calls to the encoder and the muxer, among them at most one request to
    flush the encoder, and exactly one when the sequence ends with a
    status that is not negative. *)
Definition flush_protocol {W} (evs : list Event) (res : Result W Z) : Prop :=
  exists r frames rest,
    evs = EvFilterFlush r frames :: rest /\ Forall encode_side rest /\
    tally flush_requests rest <= 1 /\
    (forall status s', res = Ok status s' -> 0 <= status ->
       tally flush_requests rest = 1).

(** How a receive loop of the encoder ends when it returns: on a failed
    call, with that call's status, or on the encoder's "try again" or
    "end of stream", with 0; every call before the last went well. *)
Definition drained_or_failed (evs : list Event) (r : Z) : Prop :=
  exists pre e,
    evs = pre ++ [e] /\ Forall quiet pre /\
    (failed_call e = Some r \/
     (r = 0 /\ exists rr p, e = EvReceivePacket rr p /\ is_again_or_eof rr = true)).

Definition returns_drained {W} (evs : list Event) (res : Result W Z) : Prop :=
  forall r s', res = Ok r s' -> drained_or_failed evs r.

(** An encoder object that [write_frame] and [flush] can work with: both
    contexts are there, and so is the output video stream. *)
Definition encoder_ready (enc : Encoder) : Prop :=
  exists ectx octx ostream,
    enc_ctx_ enc = Some ectx /\ ofmt_ctx_ enc = Some octx /\
    index_Z (streams octx) (out_vstream_idx_ enc) = Some ostream.

(** A stream map that covers the input: an entry for each input stream,
    and an output stream for each entry that is not negative. *)
Definition map_covers (ifmt_ctx : AVFormatContext) (enc : Encoder) : Prop :=
  exists octx m,
    ofmt_ctx_ enc = Some octx /\ stream_map_ enc = Some m /\
    forall i st, index_Z (streams ifmt_ctx) i = Some st ->
      exists out,
        index_Z m i = Some out /\
        (0 <= out -> exists ost, index_Z (streams octx) out = Some ost).

(** The only undefined behaviour left: the frame counter overflows. *)
Definition overflow_only {W} : Rel W :=
  fun A s res =>
    forall s', res = Fault s' -> processed_frames (proc_ctx s') = INT64_MAX.

(** A demuxer that delivers packets of the streams it announced only. *)
Definition sim_read_frame_of (ifmt_ctx : AVFormatContext) (w : World)
  : Z * AVPacket * World :=
  let '(r, p, w') := sim_read_frame w in
  if (0 <=? stream_index p) && (stream_index p <? nb_streams ifmt_ctx) then (r, p, w')
  else (AVERROR_UNKNOWN, p, w').

Definition sim_env_of (ifmt_ctx : AVFormatContext) : Env World :=
  mkEnv World sim_abort sim_pause sim_sleep
    (fun _ => true) (fun w => Z.of_nat (length (w_input w))) w_clock
    (fun _ => true) (fun _ => true)
    (sim_read_frame_of ifmt_ctx) sim_send_packet sim_receive_frame
    sim_filter_process sim_filter_flush
    (fun f fmt => Some (mkFrame (pts f) fmt (image f)))
    sim_send_frame sim_receive_packet
    (fun p _ _ => p)
    sim_mux_write.

(** An event that brings no frame out of the filter. *)
Definition no_output (e : Event) : Prop := filter_output e = 0 /\ flushed e = 0.

(** The frames the filter has put out so far that are not counted yet. *)
Definition uncounted {W} (s : St W) : Z :=
  tally filter_output (trace s) + tally flushed (trace s) -
  processed_frames (proc_ctx s).

(** A computation that counts at most [d] frames more than the filter
    puts out while it runs, never counts down, and leaves the other two
    fields of the processing context alone. *)
Definition owes {W} (d : Z) : Rel W :=
  fun A s res =>
    let s' := final res in
    uncounted s - d <= uncounted s' /\
    processed_frames (proc_ctx s) <= processed_frames (proc_ctx s') /\
    total_frames (proc_ctx s') = total_frames (proc_ctx s) /\
    start_time (proc_ctx s') = start_time (proc_ctx s).

(** A packet handed to the muxer goes to the output video stream or to
    an output stream that the stream map names. *)
Definition tagged_for (enc : Encoder) (stream_map : option (list Z)) (e : Event) : Prop :=
  match e with
  | EvMuxWrite p _ =>
      stream_index p = out_vstream_idx_ enc \/
      (0 <= stream_index p /\
       exists m i, stream_map = Some m /\ index_Z m i = Some (stream_index p))
  | _ => True
  end.

Definition is_error (l : LogEntry) : bool :=
  match log_level l with
  | LogError => true
  | _ => false
  end.

(** ** Failing calls of the whole pipeline *)

(** The status of a call that the control loop has to report: a negative
    one, other than the end of the input for a read, "try again" or "end
    of stream" for a receive, and "try again" for the filter. *)
Definition failed (e : Event) : option Z :=
  match e with
  | EvReadFrame r _ =>
      if r <? 0 then if r =? AVERROR_EOF then None else Some r else None
  | EvSendPacket _ r => if r <? 0 then Some r else None
  | EvReceiveFrame r _ =>
      if is_again_or_eof r then None else if r <? 0 then Some r else None
  | EvFilterProcess _ r _ =>
      if (r <? 0) && negb (r =? AVERROR EAGAIN) then Some r else None
  | EvFilterFlush r _ => if r <? 0 then Some r else None
  | _ => failed_call e
  end.

Definition unfailed (e : Event) : Prop := failed e = None.

(** The status a loop body hands to its function's [return]. *)
Definition returned (c : Ctl) : option Z :=
  match c with
  | Return r => Some r
  | Fallthrough => None
  end.

(** Either no call failed, or the last one did and the computation
    returned at once, with a value that carries the call's status. *)
Definition stops_at_failure {W A} (status_of : A -> option Z) (evs : list Event)
    (res : Result W A) : Prop :=
  Forall unfailed evs \/
  exists evs' e status a s',
    evs = evs' ++ [e] /\ Forall unfailed evs' /\ failed e = Some status /\
    res = Ok a s' /\ status_of a = Some status.

(** ** The heap during a run *)

(** [m] leaves the heap as it found it. *)
Definition keeps_heap {W} : Rel W := fun A s res => heap (final res) = heap s.

(** [m] leaves the heap as it found it, and ends in a way that [Q]
    allows of the array that was behind the pointer [p] when [m]
    started. *)
Definition with_array {W} (p : option nat) (Q : option (list Z) -> Rel W) : Rel W :=
  fun A s res => heap (final res) = heap s /\ Q (pointee s p) A s res.

(** [R], as far as [c] holds. *)
Definition provided {W} (c : Prop) (R : Rel W) : Rel W := fun A s res => c -> R A s res.

(** How [init] has filled the entry of input stream [st] of index [i]:
    with the index of the output video stream for the video stream, with
    the index of an output stream other than that one for an audio or
    subtitle stream, and with -1 for any other. *)
Definition established (in_vstream_idx out_vstream_idx : Z) (i : Z) (st : AVStream)
    (out : Z) : Prop :=
  if i =? in_vstream_idx then out = out_vstream_idx
  else if is_audio_or_subtitle (codec_type (codecpar st)) then 1 <= out
  else out = -1.

(** Output stream [o] of the encoder's format context, if there is
    one. *)
Definition output_stream (enc : Encoder) (o : Z) : option AVStream :=
  match ofmt_ctx_ enc with
  | Some octx => index_Z (streams octx) o
  | None => None
  end.

(** A muxer that gives every stream the time base 1/90000. *)
Definition sim_senv_90k : SetupEnv :=
  mkSetupEnv 0 0 sim_ifmt_ctx sim_dec_ctx 1 0 (fun _ => mkRational 1 90000) 0.

(** [av_packet_rescale_ts] in exact arithmetic, rounding down. *)
Definition sim_rescale_ts (p : AVPacket) (src dst : AVRational) : AVPacket :=
  let rescale t := t * (num src * den dst) / (den src * num dst) in
  mkPacket (stream_index p) (rescale (pkt_pts p)) (rescale (pkt_dts p))
    (rescale (pkt_duration p)) (pkt_data p).

(** The small world with timestamps that are rescaled. *)
Definition sim_env_rescaling : Env World :=
  mkEnv World sim_abort sim_pause sim_sleep
    (fun _ => true) (fun w => Z.of_nat (length (w_input w))) w_clock
    (fun _ => true) (fun _ => true)
    sim_read_frame sim_send_packet sim_receive_frame
    sim_filter_process sim_filter_flush
    (fun f fmt => Some (mkFrame (pts f) fmt (image f)))
    sim_send_frame sim_receive_packet
    sim_rescale_ts
    sim_mux_write.

(** ** The frames the filter puts out and the frames the encoder is sent *)

(** The frames a call leaves for the run to submit: the frame that
    [process_frame] hands back with status 0, unless the run is a
    benchmark, and the frames that a flush of the filter returns with a
    status that is not negative. *)
Definition due (benchmark : bool) (e : Event) : list AVFrame :=
  match e with
  | EvFilterProcess _ r (Some processed_frame) =>
      if (r =? 0) && negb benchmark then [processed_frame] else []
  | EvFilterFlush r flushed_frames => if r <? 0 then [] else flushed_frames
  | _ => []
  end.

(** All of them, in the order the filter put them out. *)
Definition to_submit (benchmark : bool) (t : list Event) : list AVFrame :=
  flat_map (due benchmark) t.

Definition sent_frame (e : Event) : list AVFrame :=
  match e with
  | EvSendFrame (Some frame) _ => [frame]
  | _ => []
  end.

(** The frames sent to the encoder, in order. *)
Definition sent_frames (t : list Event) : list AVFrame := flat_map sent_frame t.

(** [sent] goes to the encoder for [frame]: with the pts of [frame] when
    that is positive. *)
Definition keeps_pts (frame sent : AVFrame) : Prop := 0 < pts frame -> pts sent = pts frame.

(** What the events [evs] make of the frames [owed] at their start: the
    frames sent are, one for one and in order, the first of the frames
    owed and put out since, and [rest] are those still to be sent. *)
Definition forwards (benchmark : bool) (owed : list AVFrame) (evs : list Event)
    (rest : list AVFrame) : Prop :=
  exists done,
    owed ++ to_submit benchmark evs = done ++ rest /\
    Forall2 keeps_pts done (sent_frames evs).

(** A computation that starts with [owed] to submit sends them in order,
    and when it ends with the value [a] and [left a] is [Some rest], then
    [rest] is all that has not been sent. *)
Definition submits {W A} (benchmark : bool) (owed : list AVFrame)
    (left : A -> option (list AVFrame)) (evs : list Event) (res : Result W A) : Prop :=
  (exists rest, forwards benchmark owed evs rest) /\
  (forall a s', res = Ok a s' -> forall rest, left a = Some rest ->
     forwards benchmark owed evs rest).

(** A status that is not negative leaves [rest]; a negative one promises
    nothing. *)
Definition left_status (rest : list AVFrame) (r : Z) : option (list AVFrame) :=
  if r <? 0 then None else Some rest.

Definition left_ctl (rest : list AVFrame) (c : Ctl) : option (list AVFrame) :=
  match c with
  | Return r => left_status rest r
  | Fallthrough => Some rest
  end.

(** A call that neither puts out a frame nor sends one. *)
Definition inert (benchmark : bool) (e : Event) : Prop :=
  due benchmark e = [] /\ sent_frame e = [].

(** * Properties *)

(** ** Traces only grow *)

Lemma new_events_app {W A} (s : St W) (r : Result W A) (evs : list Event) :
  trace (final r) = trace s ++ evs -> new_events s r = evs.
Proof.
  intros H. unfold new_events. rewrite H. apply drop_app_length.
Qed.

Lemma tally_app (weight : Event -> Z) (t1 t2 : list Event) :
  tally weight (t1 ++ t2) = tally weight t1 + tally weight t2.
Proof.
  induction t1 as [|e t1 IH]; simpl; [reflexivity | rewrite IH; lia].
Qed.

(** If a list that ends in [x] is cut at an element [e] that cannot
    occur before [x], the cut is at [x]. *)
Lemma cut_at_last {A} (P : A -> Prop) (l pre post : list A) (x e : A) :
  Forall P l -> ~ P e -> l ++ [x] = pre ++ e :: post -> post = [] /\ x = e.
Proof.
  revert pre. induction l as [|a l IH]; intros pre Hl He Heq.
  - destruct pre as [|b pre]; simpl in Heq.
    + inversion Heq; subst. split; reflexivity.
    + inversion Heq as [[Hb Hnil]]. destruct pre; discriminate.
  - destruct pre as [|b pre]; simpl in Heq.
    + inversion Heq; subst. inversion Hl; subst. contradiction.
    + inversion Heq; subst. inversion Hl; subst. eapply IH; eauto.
Qed.

Lemma bind_call {W A B} (f : W -> A * W) (ev : A -> Event) (k : A -> M W B)
    (s : St W) :
  bind (call f ev) k s =
  k (fst (f (world s)))
    (mkSt (snd (f (world s))) (trace s ++ [ev (fst (f (world s)))]) (proc_ctx s) (heap s)).
Proof. unfold bind, call. destruct (f (world s)); reflexivity. Qed.

Ltac unfold_calls :=
  unfold read_abort, read_pause, sleep_ms, call_read_frame, call_send_packet,
    call_receive_frame, call_filter_process, call_filter_flush, call_send_frame,
    call_receive_packet, call_mux_write, call, packet_alloc, read_stream_map,
    incr_processed_frames, set_probe, get_world, get_state, emit, deref, bind, ret,
    fault, timeout in *.

(** ** Error propagation in [write_frame] *)

Section WriteFrame.

Context {W : Type} (env : Env W) (enc : Encoder).

Lemma reports_failure_prefix (pre evs : list Event) (res : Result W Z) :
  Forall quiet pre -> reports_failure evs res -> reports_failure (pre ++ evs) res.
Proof.
  intros Hpre [Hq | (evs' & e & status & s' & -> & Hq & Hf & ->)].
  - left. apply Forall_app; auto.
  - right. exists (pre ++ evs'), e, status, s'.
    rewrite app_assoc. repeat split; auto. apply Forall_app; auto.
Qed.

Lemma reports_failure_cut (evs pre post : list Event) (e : Event) (status : Z)
    (res : Result W Z) :
  reports_failure evs res -> evs = pre ++ e :: post -> failed_call e = Some status ->
  post = [] /\ exists s', res = Ok status s'.
Proof.
  intros [Hq | (evs' & e' & status' & s' & -> & Hq & Hf & ->)] Heq He.
  - subst evs. apply Forall_app in Hq as [_ Hq]. inversion Hq; subst.
    unfold quiet in *. congruence.
  - destruct (cut_at_last quiet evs' pre post e' e Hq) as [-> ->]; auto.
    + unfold quiet. congruence.
    + split; [reflexivity|]. exists s'. congruence.
Qed.

Lemma quiet_receive (r : Z) (p : AVPacket) :
  is_again_or_eof r = true \/ (r <? 0) = false -> quiet (EvReceivePacket r p).
Proof.
  unfold quiet; simpl. intros [-> | H]; [reflexivity|].
  rewrite H. destruct (is_again_or_eof r); reflexivity.
Qed.

Ltac no_events :=
  exists []; rewrite app_nil_r; split; [reflexivity | left; constructor].

Lemma receive_and_mux_reports (k : Z -> M W Z) :
  (forall r s, exists evs,
      trace (final (k r s)) = trace s ++ evs /\ reports_failure evs (k r s)) ->
  forall s, exists evs,
    trace (final (receive_and_mux env enc k s)) = trace s ++ evs /\
    reports_failure evs (receive_and_mux env enc k s).
Proof.
  intros Hk s. unfold receive_and_mux. unfold_calls. simpl.
  destruct (avcodec_receive_packet env (world s)) as [[r p] w1]. simpl.
  destruct (is_again_or_eof r) eqn:Hae.
  { exists [EvReceivePacket r p]. split; [reflexivity|].
    left. repeat constructor. apply quiet_receive; auto. }
  destruct (r <? 0) eqn:Hr.
  { exists [EvReceivePacket r p]. split; [reflexivity|].
    right. exists [], (EvReceivePacket r p), r. eexists.
    repeat split; auto. simpl. rewrite Hae, Hr. reflexivity. }
  assert (Hq : Forall quiet [EvReceivePacket r p])
    by (repeat constructor; apply quiet_receive; auto).
  destruct (enc_ctx_ enc) as [ectx|]; simpl;
    [|exists [EvReceivePacket r p]; split; [reflexivity | left; exact Hq]].
  destruct (ofmt_ctx_ enc) as [octx|]; simpl;
    [|exists [EvReceivePacket r p]; split; [reflexivity | left; exact Hq]].
  destruct (index_Z (streams octx) (out_vstream_idx_ enc)) as [ostream|]; simpl;
    [|exists [EvReceivePacket r p]; split; [reflexivity | left; exact Hq]].
  match goal with
  | |- context [av_interleaved_write_frame env ?pkt ?w] =>
      set (pkt' := pkt); destruct (av_interleaved_write_frame env pkt' w) as [m w2]
  end.
  simpl. destruct (m <? 0) eqn:Hm.
  { exists [EvReceivePacket r p; EvMuxWrite pkt' m]. split.
    - simpl. rewrite <- app_assoc. reflexivity.
    - right. exists [EvReceivePacket r p], (EvMuxWrite pkt' m), m. eexists.
      repeat split; auto. simpl. rewrite Hm. reflexivity. }
  match goal with
  | |- context [k m ?s2] => destruct (Hk m s2) as (evs & Ht & Hrep)
  end.
  exists ([EvReceivePacket r p; EvMuxWrite pkt' m] ++ evs). split.
  - rewrite Ht. simpl. rewrite <- !app_assoc. reflexivity.
  - apply reports_failure_prefix; auto.
    repeat constructor; [apply quiet_receive; auto|].
    unfold quiet; simpl. rewrite Hm. reflexivity.
Qed.

Lemma write_frame_drain_reports (fuel : nat) :
  forall r s, exists evs,
    trace (final (write_frame_drain env fuel enc r s)) = trace s ++ evs /\
    reports_failure evs (write_frame_drain env fuel enc r s).
Proof.
  induction fuel as [|fuel IH]; intros r s; simpl.
  - destruct (r <? 0); exists []; rewrite app_nil_r; split; auto; left; constructor.
  - destruct (r <? 0).
    + exists []; rewrite app_nil_r; split; auto; left; constructor.
    + apply receive_and_mux_reports. exact IH.
Qed.

Lemma flush_drain_reports (fuel : nat) :
  forall s, exists evs,
    trace (final (flush_drain env fuel enc s)) = trace s ++ evs /\
    reports_failure evs (flush_drain env fuel enc s).
Proof.
  induction fuel as [|fuel IH]; intros s; simpl.
  - exists []; rewrite app_nil_r; split; auto; left; constructor.
  - apply receive_and_mux_reports. intros _. exact IH.
Qed.

Lemma write_frame_reports (fuel : nat) (frame : AVFrame) (frame_idx : Z) (s : St W) :
  exists evs,
    trace (final (write_frame env fuel enc frame frame_idx s)) = trace s ++ evs /\
    reports_failure evs (write_frame env fuel enc frame frame_idx s).
Proof.
  unfold write_frame. unfold_calls.
  destruct (enc_ctx_ enc) as [ectx|]; [|no_events].
  set (frame' := if pts frame <=? 0 then set_pts frame frame_idx else frame).
  match goal with
  | |- context [match ?c with Some _ => _ | None => _ end s] => destruct c as [conv|]
  end; [|no_events].
  simpl. destruct (av_packet_alloc_ok env (world s)); simpl; [|no_events].
  match goal with
  | |- context [avcodec_send_frame env ?f ?w] =>
      set (sent := f); destruct (avcodec_send_frame env sent w) as [r w1]
  end.
  simpl. destruct (r <? 0) eqn:Hr.
  - exists [EvSendFrame sent r]. split; [reflexivity|].
    right. exists [], (EvSendFrame sent r), r. eexists.
    repeat split; auto. simpl. rewrite Hr. reflexivity.
  - match goal with
    | |- context [write_frame_drain env fuel enc r ?s1] =>
        destruct (write_frame_drain_reports fuel r s1) as (evs & Ht & Hrep)
    end.
    exists ([EvSendFrame sent r] ++ evs). split.
    + rewrite Ht. simpl. rewrite <- app_assoc. reflexivity.
    + apply reports_failure_prefix; auto.
      repeat constructor. unfold quiet; simpl. rewrite Hr. reflexivity.
Qed.

(** C7.  Whenever one of the calls [write_frame] makes to the encoder or
    the muxer fails -- [avcodec_send_frame], [avcodec_receive_packet]
    (other than with "try again" or "end of stream") or
    [av_interleaved_write_frame] returns a negative status -- that call is
    the last one [write_frame] makes and [write_frame] returns exactly
    that status: no retry, no other value, and the fuel is never what
    stops it. *)
Theorem write_frame_propagates_status (fuel : nat) (frame : AVFrame) (frame_idx : Z)
    (s : St W) (pre post : list Event) (e : Event) (status : Z) :
  new_events s (write_frame env fuel enc frame frame_idx s) = pre ++ e :: post ->
  failed_call e = Some status ->
  post = [] /\ exists s', write_frame env fuel enc frame frame_idx s = Ok status s'.
Proof.
  intros Hev He.
  destruct (write_frame_reports fuel frame frame_idx s) as (evs & Ht & Hrep).
  rewrite (new_events_app _ _ _ Ht) in Hev.
  eapply reports_failure_cut; eauto.
Qed.

End WriteFrame.

Lemma write_frame_propagates_status_witness :
  let s := sim_start (with_encoder (sim_world [] FilterPass None 0) [] true []) in
  @nil Event = [] /\
  exists s', write_frame sim_env 5 sim_encoder no_frame 0 s = Ok AVERROR_EOF s'.
Proof.
  intros s.
  apply (write_frame_propagates_status sim_env sim_encoder 5 no_frame 0 s
           [] [] (EvSendFrame (Some no_frame) AVERROR_EOF) AVERROR_EOF);
    reflexivity.
Defined.

(** ** What a computation can add to the trace *)

Section Emits.

Context {W : Type} (env : Env W).

Lemma emits_silent {A} (P : Event -> Prop) (m : M W A) :
  (forall s, trace (final (m s)) = trace s) -> emits P m.
Proof.
  intros H s. exists []. rewrite app_nil_r. split; [apply H | constructor].
Qed.

Lemma emits_ret {A} (P : Event -> Prop) (a : A) : emits P (ret (W := W) a).
Proof. apply emits_silent. reflexivity. Qed.

Lemma emits_bind {A B} (P : Event -> Prop) (m : M W A) (k : A -> M W B) :
  emits P m -> (forall a, emits P (k a)) -> emits P (bind m k).
Proof.
  intros Hm Hk s. unfold bind. destruct (Hm s) as (evs1 & Ht1 & HP1).
  destruct (m s) as [a s1|s1|s1]; simpl in *; try (exists evs1; split; assumption).
  destruct (Hk a s1) as (evs2 & Ht2 & HP2).
  exists (evs1 ++ evs2). split.
  - rewrite Ht2, Ht1, app_assoc. reflexivity.
  - apply Forall_app; auto.
Qed.

Lemma emits_weaken {A} (P Q : Event -> Prop) (m : M W A) :
  (forall e, P e -> Q e) -> emits P m -> emits Q m.
Proof.
  intros HPQ Hm s. destruct (Hm s) as (evs & Ht & HP).
  exists evs. split; [assumption|]. eapply Forall_impl; eauto.
Qed.

Lemma emits_emit (P : Event -> Prop) (w : W) (e : Event) :
  P e -> emits P (emit w e).
Proof.
  intros He s. exists [e]. split; [reflexivity | repeat constructor; assumption].
Qed.

Lemma emits_deref {A} (P : Event -> Prop) (p : option A) : emits P (deref (W := W) p).
Proof. apply emits_silent. intros s. destruct p; reflexivity. Qed.

Lemma emits_if {A} (P : Event -> Prop) (b : bool) (m1 m2 : M W A) :
  emits P m1 -> emits P m2 -> emits P (if b then m1 else m2).
Proof. destruct b; auto. Qed.

Lemma emits_read_pause (P : Event -> Prop) : emits P (read_pause env).
Proof. apply emits_silent. reflexivity. Qed.

Lemma emits_sleep_ms (P : Event -> Prop) (ms : Z) :
  P (EvSleep ms) -> emits P (sleep_ms env ms).
Proof.
  intros HP s. exists [EvSleep ms]. split; [reflexivity | repeat constructor; exact HP].
Qed.

Lemma emits_call {A} (P : Event -> Prop) (f : W -> A * W) (ev : A -> Event) :
  (forall a, P (ev a)) -> emits P (call f ev).
Proof.
  intros He s. unfold call. destruct (f (world s)) as [a w1].
  exists [ev a]. split; [reflexivity | repeat constructor; apply He].
Qed.

Lemma emits_send_frame (f : option AVFrame) : emits encode_side (call_send_frame env f).
Proof. apply emits_call. intros; exact I. Qed.

Lemma emits_receive_packet : emits encode_side (call_receive_packet env).
Proof. apply emits_call. intros; exact I. Qed.

Lemma emits_mux_write (p : AVPacket) : emits encode_side (call_mux_write env p).
Proof. apply emits_call. intros; exact I. Qed.

Ltac emits_go :=
  repeat first
    [ apply emits_ret
    | apply emits_deref
    | apply emits_send_frame
    | apply emits_receive_packet
    | apply emits_mux_write
    | solve [auto]
    | solve [apply emits_silent; intros; reflexivity]
    | solve [apply emits_call; intros; simpl; auto]
    | solve [apply emits_emit; simpl; eauto]
    | apply emits_bind; [|intros]
    | match goal with
      | |- emits _ (if ?b then _ else _) => destruct b
      | |- emits _ (match ?x with _ => _ end) => destruct x
      end ].

Section EncoderEmits.

Variable enc : Encoder.

Lemma drain_side_encode_side (e : Event) : drain_side e -> encode_side e.
Proof. destruct e; simpl; tauto. Qed.

Lemma emits_receive_and_mux (k : Z -> M W Z) :
  (forall r, emits drain_side (k r)) -> emits drain_side (receive_and_mux env enc k).
Proof.
  intros Hk. unfold receive_and_mux, call_receive_packet, call_mux_write. emits_go.
Qed.

Lemma emits_write_frame_drain (fuel : nat) (r : Z) :
  emits drain_side (write_frame_drain env fuel enc r).
Proof.
  revert r. induction fuel as [|fuel IH]; intros r; simpl.
  - emits_go.
  - destruct (r <? 0); [emits_go|]. apply emits_receive_and_mux. exact IH.
Qed.

Lemma emits_flush_drain (fuel : nat) : emits drain_side (flush_drain env fuel enc).
Proof.
  induction fuel as [|fuel IH]; simpl.
  - emits_go.
  - apply emits_receive_and_mux. intros _. exact IH.
Qed.

Lemma emits_write_frame (fuel : nat) (frame : AVFrame) (frame_idx : Z) :
  emits encode_side (write_frame env fuel enc frame frame_idx).
Proof.
  unfold write_frame, packet_alloc, get_world.
  assert (forall r, emits encode_side (write_frame_drain env fuel enc r))
    by (intros; eapply emits_weaken;
        [apply drain_side_encode_side | apply emits_write_frame_drain]).
  emits_go.
Qed.

Lemma emits_flush (fuel : nat) : emits encode_side (flush env fuel enc).
Proof.
  unfold flush, packet_alloc, get_world.
  assert (emits encode_side (flush_drain env fuel enc))
    by (eapply emits_weaken;
        [apply drain_side_encode_side | apply emits_flush_drain]).
  emits_go.
Qed.

(** *** The encoder stage leaves the counters alone *)

Lemma keeps_ctx_bind {A B} (m : M W A) (k : A -> M W B) :
  keeps_ctx m -> (forall a, keeps_ctx (k a)) -> keeps_ctx (bind m k).
Proof.
  intros Hm Hk s. unfold bind. specialize (Hm s).
  destruct (m s) as [a s1|s1|s1]; simpl in *; try assumption.
  rewrite Hk. assumption.
Qed.

Lemma keeps_ctx_call {A} (f : W -> A * W) (ev : A -> Event) : keeps_ctx (call f ev).
Proof. intros s. unfold call. destruct (f (world s)); reflexivity. Qed.

Lemma keeps_ctx_silent {A} (m : M W A) :
  (forall s, final (m s) = s) -> keeps_ctx m.
Proof. intros H s. rewrite H. reflexivity. Qed.

Ltac keeps_go :=
  repeat first
    [ solve [auto]
    | solve [apply keeps_ctx_call]
    | solve [apply keeps_ctx_silent; intros; reflexivity]
    | solve [apply keeps_ctx_silent; intros s; destruct s; reflexivity]
    | apply keeps_ctx_bind; [|intros]
    | match goal with
      | |- keeps_ctx (deref ?p) => destruct p
      | |- keeps_ctx (if ?b then _ else _) => destruct b
      | |- keeps_ctx (match ?x with _ => _ end) => destruct x
      end ].

Lemma keeps_ctx_receive_and_mux (k : Z -> M W Z) :
  (forall r, keeps_ctx (k r)) -> keeps_ctx (receive_and_mux env enc k).
Proof.
  intros Hk. unfold receive_and_mux, call_receive_packet, call_mux_write. keeps_go.
Qed.

Lemma keeps_ctx_write_frame_drain (fuel : nat) (r : Z) :
  keeps_ctx (write_frame_drain env fuel enc r).
Proof.
  revert r. induction fuel as [|fuel IH]; intros r; simpl.
  - keeps_go.
  - destruct (r <? 0); [keeps_go|]. apply keeps_ctx_receive_and_mux. exact IH.
Qed.

Lemma keeps_ctx_flush_drain (fuel : nat) : keeps_ctx (flush_drain env fuel enc).
Proof.
  induction fuel as [|fuel IH]; simpl.
  - keeps_go.
  - apply keeps_ctx_receive_and_mux. intros _. exact IH.
Qed.

Lemma keeps_ctx_write_frame (fuel : nat) (frame : AVFrame) (frame_idx : Z) :
  keeps_ctx (write_frame env fuel enc frame frame_idx).
Proof.
  unfold write_frame, packet_alloc, get_world, call_send_frame.
  pose proof (keeps_ctx_write_frame_drain fuel). keeps_go.
Qed.

Lemma keeps_ctx_flush (fuel : nat) : keeps_ctx (flush env fuel enc).
Proof.
  unfold flush, packet_alloc, get_world, call_send_frame.
  pose proof (keeps_ctx_flush_drain fuel). keeps_go.
Qed.

End EncoderEmits.

Section FramesEmit.

Variable encoder_config : EncoderConfig.
Variable ifmt_ctx : AVFormatContext.
Variable enc : Encoder.
Variable vstream_idx : Z.
Variable stream_map : option nat.
Variable benchmark : bool.

(** A property of events that holds of every call of the control loop
    itself, of every mux write, of every read of the stream map, and of
    whatever [write_frame], called with [vstream_idx], and [flush] emit. *)
Variable P : Event -> Prop.
Hypothesis P_control :
  forall e,
    match e with
    | EvSendFrame _ _ | EvReceivePacket _ _ | EvMuxWrite _ _ | EvMapLookup _ _ => False
    | _ => True
    end -> P e.
Hypothesis P_mux : forall p r, P (EvMuxWrite p r).
Hypothesis P_lookup : forall i out, P (EvMapLookup i out).
Hypothesis P_write_frame :
  forall fuel frame, emits P (write_frame env fuel enc frame vstream_idx).
Hypothesis P_flush : forall fuel, emits P (flush env fuel enc).

Lemma emits_control {A} (f : W -> A * W) (ev : A -> Event) :
  (forall a, match ev a with
             | EvSendFrame _ _ | EvReceivePacket _ _ | EvMuxWrite _ _
             | EvMapLookup _ _ => False
             | _ => True
             end) ->
  emits P (call f ev).
Proof. intros H. apply emits_call. intros a. apply P_control. apply H. Qed.

Lemma emits_read_stream_map (i : Z) :
  emits P (read_stream_map (W := W) stream_map i).
Proof.
  intros s. unfold read_stream_map, get_state, get_world, emit, deref, bind, ret, fault.
  destruct (pointee s stream_map) as [m|] eqn:Hm; simpl.
  - destruct (index_Z m i) as [out|] eqn:Hi; simpl.
    + exists [EvMapLookup i out]. split; [reflexivity|].
      repeat constructor. apply P_lookup.
    + exists []. rewrite app_nil_r. split; [reflexivity | constructor].
  - exists []. rewrite app_nil_r. split; [reflexivity | constructor].
Qed.

Lemma emits_incr_processed_frames : emits P (incr_processed_frames (W := W)).
Proof.
  apply emits_silent. intros s. unfold incr_processed_frames.
  destruct (processed_frames (proc_ctx s) =? INT64_MAX); reflexivity.
Qed.

Lemma emits_submit_unless_benchmark (fuel : nat) (frame : AVFrame) :
  emits P (submit_unless_benchmark env enc vstream_idx benchmark fuel frame).
Proof.
  unfold submit_unless_benchmark. pose proof (P_write_frame fuel). emits_go.
Qed.

Lemma emits_receive_step (fuel : nat) (k : M W Ctl) :
  emits P k -> emits P (receive_step env enc vstream_idx benchmark fuel k).
Proof.
  intros Hk. unfold receive_step.
  pose proof (emits_submit_unless_benchmark fuel).
  pose proof emits_incr_processed_frames.
  assert (emits P (call_receive_frame env)) by (apply emits_control; intros; exact I).
  assert (forall f, emits P (call_filter_process env f))
    by (intros; apply emits_control; intros; exact I).
  emits_go.
Qed.

Lemma emits_read_abort : emits P (read_abort env).
Proof.
  unfold read_abort, get_world.
  assert (forall w : W, emits P (emit w EvAbortObserved))
    by (intros; apply emits_emit; apply P_control; exact I).
  emits_go.
Qed.

Lemma emits_receive_loop (fuel : nat) :
  emits P (receive_loop env enc vstream_idx benchmark fuel).
Proof.
  pose proof emits_read_abort.
  assert (emits P (sleep_ms env 100))
    by (apply emits_sleep_ms; apply P_control; exact I).
  pose proof (emits_read_pause P).
  induction fuel as [|fuel IH]; simpl; [emits_go|].
  pose proof (emits_receive_step fuel _ IH).
  emits_go.
Qed.

Lemma emits_passthrough (packet : AVPacket) :
  emits P (passthrough env encoder_config ifmt_ctx enc stream_map packet).
Proof.
  unfold passthrough. pose proof emits_read_stream_map.
  assert (forall p, emits P (call_mux_write env p))
    by (intros; apply emits_call; intros; apply P_mux).
  emits_go.
Qed.

Lemma emits_route_packet (fuel : nat) (packet : AVPacket) :
  emits P (route_packet env encoder_config ifmt_ctx enc vstream_idx stream_map
             benchmark fuel packet).
Proof.
  unfold route_packet.
  pose proof (emits_receive_loop fuel). pose proof (emits_passthrough packet).
  assert (forall p, emits P (call_send_packet env p))
    by (intros; apply emits_control; intros; exact I).
  emits_go.
Qed.

Lemma emits_read_loop (fuel : nat) :
  emits P (read_loop env encoder_config ifmt_ctx enc vstream_idx stream_map
             benchmark fuel).
Proof.
  pose proof emits_read_abort.
  assert (emits P (call_read_frame env)) by (apply emits_control; intros; exact I).
  induction fuel as [|fuel IH]; simpl; [emits_go|].
  pose proof (emits_route_packet fuel).
  emits_go.
Qed.

Lemma emits_write_flushed (fuel : nat) (frames : list AVFrame) :
  emits P (write_flushed env enc vstream_idx fuel frames).
Proof.
  induction frames as [|f frames IH]; simpl; [emits_go|].
  pose proof (P_write_frame fuel). pose proof emits_incr_processed_frames.
  emits_go.
Qed.

Lemma emits_flush_sequence (fuel : nat) :
  emits P (flush_sequence env enc vstream_idx fuel).
Proof.
  unfold flush_sequence.
  pose proof (emits_write_flushed fuel). pose proof (P_flush fuel).
  assert (emits P (call_filter_flush env)) by (apply emits_control; intros; exact I).
  emits_go.
Qed.

Lemma emits_process_frames_any (fuel : nat) :
  emits P (process_frames env encoder_config ifmt_ctx enc vstream_idx stream_map
             benchmark fuel).
Proof.
  unfold process_frames, set_probe, get_world.
  pose proof (emits_read_loop fuel). pose proof (emits_flush_sequence fuel).
  emits_go.
Qed.

End FramesEmit.

(** Whatever way [process_frames] ends, the trace it leaves is the one
    it found with more added. *)
Lemma emits_process_frames (encoder_config : EncoderConfig) (ifmt_ctx : AVFormatContext)
    (enc : Encoder) (vstream_idx : Z) (stream_map : option nat) (benchmark : bool)
    (fuel : nat) :
  emits (fun _ => True)
    (process_frames env encoder_config ifmt_ctx enc vstream_idx stream_map
       benchmark fuel).
Proof.
  apply emits_process_frames_any.
  - intros. exact I.
  - intros. exact I.
  - intros. exact I.
  - intros. eapply emits_weaken; [|apply emits_write_frame]. intros; exact I.
  - intros. eapply emits_weaken; [|apply emits_flush]. intros; exact I.
Qed.

End Emits.

Ltac emits_go :=
  repeat first
    [ apply emits_ret
    | apply emits_deref
    | apply emits_send_frame
    | apply emits_receive_packet
    | apply emits_mux_write
    | solve [auto]
    | solve [apply emits_silent; intros; reflexivity]
    | solve [apply emits_call; intros; simpl; auto]
    | solve [apply emits_emit; simpl; eauto]
    | apply emits_bind; [|intros]
    | match goal with
      | |- emits _ (if ?b then _ else _) => destruct b
      | |- emits _ (match ?x with _ => _ end) => destruct x
      end ].

(** ** Pause and abort in the inner loop *)

Section Pause.

Context {W : Type} (env : Env W).
Variable enc : Encoder.
Variable vstream_idx : Z.
Variable benchmark : bool.

Lemma after_polls_S (k : nat) (w : W) :
  after_polls env (S k) w = after_polls env k (sleep_for env 100 w).
Proof. unfold after_polls. apply Nat.iter_succ_r. Qed.

Lemma polled_S (k : nat) (s : St W) :
  polled env k (polled env 1 s) = polled env (S k) s.
Proof.
  unfold polled. cbn [world trace proc_ctx]. rewrite (after_polls_S k).
  rewrite <- app_assoc. reflexivity.
Qed.

Lemma receive_loop_poll (fuel : nat) (s : St W) :
  ctl_abort env (world s) = false -> ctl_pause env (world s) = true ->
  receive_loop env enc vstream_idx benchmark (S fuel) s =
  receive_loop env enc vstream_idx benchmark fuel (polled env 1 s).
Proof.
  intros Ha Hp. simpl. unfold_calls. rewrite Ha. simpl. rewrite Hp. reflexivity.
Qed.

Lemma receive_loop_polls (k fuel : nat) :
  forall s, paused_for env k (world s) ->
    receive_loop env enc vstream_idx benchmark (k + fuel) s =
    receive_loop env enc vstream_idx benchmark fuel (polled env k s).
Proof.
  induction k as [|k IH]; intros s Hk.
  - destruct s as [w t c]. unfold polled. simpl. rewrite app_nil_r. reflexivity.
  - destruct (Hk 0%nat ltac:(lia)) as [Ha Hp].
    change (S k + fuel)%nat with (S (k + fuel)).
    rewrite receive_loop_poll by assumption.
    rewrite IH.
    + rewrite polled_S. reflexivity.
    + intros j Hj. destruct (Hk (S j) ltac:(lia)) as [Ha' Hp'].
      rewrite after_polls_S in Ha', Hp'. exact (conj Ha' Hp').
Qed.

(** C8.  While [pause] is set and [abort] is not, an iteration of the
    inner receive loop is one [sleep_for] of 100 ms and a [continue]: over
    [k] such polls the loop makes no call to the decoder, the filter or
    the encoder -- the trace gains [k] sleep events and nothing else, the
    counters are untouched -- and then goes on as the loop from the state
    reached.  There, a set [abort] ends the loop without a receive call,
    and a cleared [pause] lets the next receive happen. *)
Theorem receive_loop_waits_while_paused (k fuel : nat) (s : St W) :
  paused_for env k (world s) ->
  receive_loop env enc vstream_idx benchmark (k + fuel) s =
    receive_loop env enc vstream_idx benchmark fuel (polled env k s) /\
  (ctl_abort env (world (polled env k s)) = true ->
   receive_loop env enc vstream_idx benchmark (k + fuel) s =
     Ok Fallthrough
       (mkSt (world (polled env k s)) (trace (polled env k s) ++ [EvAbortObserved])
          (proc_ctx s) (heap s))) /\
  (ctl_abort env (world (polled env k s)) = false ->
   ctl_pause env (world (polled env k s)) = false ->
   receive_loop env enc vstream_idx benchmark (k + S fuel) s =
     receive_step env enc vstream_idx benchmark fuel
       (receive_loop env enc vstream_idx benchmark fuel) (polled env k s)).
Proof.
  intros Hk. split; [|split].
  - apply receive_loop_polls; assumption.
  - intros Ha. rewrite receive_loop_polls by assumption.
    destruct fuel; simpl; unfold_calls; simpl in *; rewrite Ha; reflexivity.
  - intros Ha Hp. rewrite receive_loop_polls by assumption.
    simpl. unfold_calls. simpl in *. rewrite Ha. simpl. rewrite Hp. reflexivity.
Qed.

End Pause.

Lemma receive_loop_waits_while_paused_witness :
  let s := sim_start (sim_world [] FilterPass None 250) in
  paused_for sim_env 3 (world s) /\
  receive_loop sim_env sim_encoder 0 false (3 + 2) s =
    receive_loop sim_env sim_encoder 0 false 2 (polled sim_env 3 s).
Proof.
  intros s.
  assert (H : paused_for sim_env 3 (world s)).
  { intros j Hj.
    destruct j as [|[|[|j]]]; [split; reflexivity .. | lia]. }
  split; [exact H|].
  exact (proj1 (receive_loop_waits_while_paused sim_env sim_encoder 0 false 3 2 s H)).
Defined.

(** ** The stream map without stream copy *)

Ltac destruct_branches :=
  repeat match goal with
    | |- context [if ?b then _ else _] => destruct b eqn:?
    | |- context [match ?x with _ => _ end] => destruct x eqn:?
    end.

Lemma init_without_copy_has_no_map (ienv : InitEnv) (hw_ctx : bool)
    (ifmt_ctx : AVFormatContext) (dec_ctx : AVCodecContext)
    (encoder_config : EncoderConfig) (in_vstream_idx : Z) :
  copy_streams encoder_config = false ->
  stream_map_ (init_encoder (init ienv hw_ctx ifmt_ctx dec_ctx encoder_config
                               in_vstream_idx)) = None.
Proof.
  intros Hcopy. unfold init. rewrite Hcopy.
  destruct_branches; simpl; try reflexivity.
  all: match goal with H : (_, _, _) = (_, _, _) |- _ => inversion H; reflexivity end.
Qed.

(** C9.  With stream copy disabled, [Encoder::init] leaves [stream_map_]
    null, and the control loop never reads through it: whatever the map
    pointer is (null included), a packet of a stream other than the video
    stream is routed to nothing -- no fault, no call, no event, no change
    of state -- because [copy_streams] is tested first. *)
Theorem null_stream_map_never_indexed (encoder_config : EncoderConfig) :
  copy_streams encoder_config = false ->
  (forall ienv hw_ctx ifmt_ctx dec_ctx in_vstream_idx,
      stream_map_ (init_encoder (init ienv hw_ctx ifmt_ctx dec_ctx encoder_config
                                   in_vstream_idx)) = None) /\
  (forall (W : Type) (env : Env W) ifmt_ctx enc vstream_idx stream_map benchmark fuel
          packet (s : St W),
      stream_index packet <> vstream_idx ->
      route_packet env encoder_config ifmt_ctx enc vstream_idx stream_map benchmark
        fuel packet s = Ok Fallthrough s).
Proof.
  intros Hcopy. split.
  - intros. apply init_without_copy_has_no_map. assumption.
  - intros W env ifmt_ctx enc vstream_idx stream_map benchmark fuel packet s Hne.
    unfold route_packet, passthrough.
    destruct (stream_index packet =? vstream_idx) eqn:He; [lia|].
    rewrite Hcopy. reflexivity.
Qed.

Lemma null_stream_map_never_indexed_witness :
  stream_map_ (init_encoder (init sim_ienv false sim_ifmt_ctx sim_dec_ctx
                               (sim_config false) 1)) = None /\
  route_packet sim_env (sim_config false) sim_ifmt_ctx sim_encoder 1 None false 5
    (packet_of 0 40) (sim_start (sim_world [] FilterPass None 0)) =
  Ok Fallthrough (sim_start (sim_world [] FilterPass None 0)).
Proof.
  destruct (null_stream_map_never_indexed (sim_config false) eq_refl) as [Hinit Hroute].
  split.
  - apply Hinit.
  - apply Hroute. discriminate.
Defined.

(** ** The status of [process_video] *)

Section VideoStatus.

Context {W : Type} (env : Env W) (senv : SetupEnv).

(** C10, as the code has it.  [process_video] hands a negative status of
    [process_frames] back unchanged, [AVERROR_EOF] like any other, and
    writes no trailer; it returns 0, after the trailer, exactly for a
    status that is not negative.  The test that spares [AVERROR_EOF] comes
    after the [return] for negative statuses and never sees one. *)
Theorem process_video_run_status (fuel : nat) (benchmark : bool)
    (encoder_config : EncoderConfig) (enc : Encoder) (stream_map : option nat)
    (s s' : St W) (r : Z) :
  process_frames env encoder_config (decoder_ifmt_ctx senv) enc
    (decoder_vstream_idx senv) stream_map benchmark fuel s = Ok r s' ->
  (r < 0 ->
   process_video_run env senv fuel benchmark encoder_config enc stream_map s =
   Ok r s') /\
  (0 <= r ->
   process_video_run env senv fuel benchmark encoder_config enc stream_map s =
   Ok 0 (mkSt (world s') (trace s' ++ [EvWriteTrailer]) (proc_ctx s') (heap s'))).
Proof.
  intros Hpf. unfold process_video_run, bind. rewrite Hpf. split; intros Hr.
  - destruct (r <? 0) eqn:E; [reflexivity | lia].
  - destruct (r <? 0) eqn:E; [lia | reflexivity].
Qed.

End VideoStatus.

Lemma process_video_run_status_witness :
  exists s',
    process_frames sim_env (sim_config false) sim_ifmt_ctx sim_encoder 1 None false 9
      (sim_start eof_world) = Ok AVERROR_EOF s' /\
    process_video_run sim_env sim_senv 9 false (sim_config false) sim_encoder None
      (sim_start eof_world) = Ok AVERROR_EOF s'.
Proof.
  eexists. split.
  - reflexivity.
  - refine (proj1 (process_video_run_status sim_env sim_senv 9 false (sim_config false)
                     sim_encoder None (sim_start eof_world) _ AVERROR_EOF eq_refl) _).
    reflexivity.
Defined.

(** C10, as stated, fails: here the call of [process_frames] that
    [process_video] makes ends with status [AVERROR_EOF], and
    [process_video] returns [AVERROR_EOF], not 0. *)
Lemma process_video_eof_is_not_success :
  let config := with_output_size (sim_config false) 640 480 in
  let enc :=
    after_header sim_senv
      (init_encoder (init sim_ienv false sim_ifmt_ctx sim_dec_ctx config 1)) in
  let run :=
    process_video sim_env sim_senv sim_ienv 9 false AV_HWDEVICE_TYPE_NONE
      sim_filter_config (sim_config false) (sim_start eof_world) in
  (exists s',
      process_frames sim_env config sim_ifmt_ctx enc 1 None false 9
        (mkSt eof_world [EvWriteHeader 0] (mkProcCtx 0 0 0) []) = Ok AVERROR_EOF s') /\
  (exists s', run = Ok AVERROR_EOF s') /\
  ~ (exists s', run = Ok 0 s').
Proof.
  intros config enc run. split; [|split].
  - eexists. vm_compute. reflexivity.
  - eexists. vm_compute. reflexivity.
  - intros [s' H]. vm_compute in H. discriminate H.
Qed.

(** ** What [abort] stops, and what it does not *)

Lemma after_first_abort_none (evs : list Event) :
  no_abort evs -> after_first_abort evs = [] /\ ~ In EvAbortObserved evs.
Proof.
  induction 1 as [|e evs He _ [IH1 IH2]]; simpl; [tauto|].
  destruct e; simpl in *; try discriminate; split; auto; intros [H|H];
    try discriminate; contradiction.
Qed.

Lemma after_first_abort_cut (pre tail : list Event) :
  no_abort pre -> after_first_abort (pre ++ EvAbortObserved :: tail) = tail.
Proof.
  induction 1 as [|e pre He _ IH]; simpl; [reflexivity|].
  destruct e; simpl in *; try discriminate; assumption.
Qed.

Lemma encode_side_no_abort (e : Event) : encode_side e -> is_abort e = false.
Proof. destruct e; simpl; tauto. Qed.

Lemma encode_side_not_decode (e : Event) : encode_side e -> is_decode_side e = false.
Proof. destruct e; simpl; tauto. Qed.

Section AbortShapes.

Context {W : Type} (env : Env W).

Lemma ends_as_ret {A} (Q : list Event -> Result W A -> Prop) (a : A) :
  (forall s, Q [] (Ok a s)) -> ends_as Q (ret a).
Proof. intros HQ s. exists []. rewrite app_nil_r. split; [reflexivity | apply HQ]. Qed.

(** A shape that tolerates a prefix of [P]-events survives being
    preceded by a computation that emits only such events. *)
Lemma ends_as_after_emits {A B} (P : Event -> Prop)
    (Q : list Event -> Result W B -> Prop) (m : M W A) (k : A -> M W B) :
  emits P m ->
  (forall pre evs res, Forall P pre -> Q evs res -> Q (pre ++ evs) res) ->
  (forall pre s, Forall P pre -> Q pre (Timeout s) /\ Q pre (Fault s)) ->
  (forall a, ends_as Q (k a)) ->
  ends_as Q (bind m k).
Proof.
  intros Hm Hpre Hstop Hk s. unfold bind.
  destruct (Hm s) as (evs1 & Ht1 & HP1).
  destruct (m s) as [a s1|s1|s1]; simpl in *.
  - destruct (Hk a s1) as (evs2 & Ht2 & HQ2).
    exists (evs1 ++ evs2). split.
    + rewrite Ht2, Ht1, app_assoc. reflexivity.
    + apply Hpre; assumption.
  - exists evs1. split; [assumption | apply Hstop; assumption].
  - exists evs1. split; [assumption | apply Hstop; assumption].
Qed.

Lemma inner_prefix (pre evs : list Event) (res : Result W Ctl) :
  no_abort pre -> inner_abort_shape env evs res -> inner_abort_shape env (pre ++ evs) res.
Proof.
  intros Hpre [Hn | (evs' & s' & -> & Hn & -> & Ha)].
  - left. apply Forall_app; auto.
  - right. exists (pre ++ evs'), s'. rewrite app_assoc.
    repeat split; auto. apply Forall_app; auto.
Qed.

Lemma outer_prefix (pre evs : list Event) (res : Result W Ctl) :
  no_abort pre -> outer_abort_shape evs res -> outer_abort_shape (pre ++ evs) res.
Proof.
  intros Hpre [Hn | (evs' & tail & s' & -> & Hn & Ht & ->)].
  - left. apply Forall_app; auto.
  - right. exists (pre ++ evs'), tail, s'. rewrite app_assoc.
    repeat split; auto. apply Forall_app; auto.
Qed.

Lemma inner_after_emits {A} (m : M W A) (k : A -> M W Ctl) :
  emits (fun e => is_abort e = false) m ->
  (forall a, ends_as (inner_abort_shape env) (k a)) ->
  ends_as (inner_abort_shape env) (bind m k).
Proof.
  intros Hm Hk. eapply ends_as_after_emits; eauto.
  - intros. apply inner_prefix; assumption.
  - intros pre s Hpre. split; left; exact Hpre.
Qed.

Lemma emits_no_abort_of_encode_side {A} (m : M W A) :
  emits encode_side m -> emits (fun e => is_abort e = false) m.
Proof. apply emits_weaken. apply encode_side_no_abort. Qed.

Section Loops.

Variable encoder_config : EncoderConfig.
Variable ifmt_ctx : AVFormatContext.
Variable enc : Encoder.
Variable vstream_idx : Z.
Variable stream_map : option nat.
Variable benchmark : bool.

Lemma emits_submit_encode_side (fuel : nat) (frame : AVFrame) :
  emits encode_side (submit_unless_benchmark env enc vstream_idx benchmark fuel frame).
Proof.
  unfold submit_unless_benchmark. pose proof (emits_write_frame env enc fuel).
  emits_go.
Qed.

Lemma emits_incr_no_abort :
  emits (fun e => is_abort e = false) (incr_processed_frames (W := W)).
Proof.
  apply emits_silent. intros s. unfold incr_processed_frames.
  destruct (processed_frames (proc_ctx s) =? INT64_MAX); reflexivity.
Qed.

Ltac inner_go :=
  repeat first
    [ solve [auto]
    | solve [apply ends_as_ret; intros; left; constructor]
    | apply inner_after_emits;
        [ first [ solve [apply emits_call; intros; reflexivity]
                | solve [apply emits_no_abort_of_encode_side;
                         apply emits_submit_encode_side]
                | solve [apply emits_incr_no_abort] ]
        | intros ]
    | match goal with
      | |- ends_as _ (if ?b then _ else _) => destruct b
      | |- ends_as _ (match ?x with _ => _ end) => destruct x
      end ].

Lemma receive_step_abort (fuel : nat) (k : M W Ctl) :
  ends_as (inner_abort_shape env) k ->
  ends_as (inner_abort_shape env) (receive_step env enc vstream_idx benchmark fuel k).
Proof.
  intros Hk. unfold receive_step, call_receive_frame, call_filter_process.
  inner_go.
Qed.

(** With [abort] set, either loop leaves at once, whatever fuel is left. *)
Lemma receive_loop_aborted (fuel : nat) (s : St W) :
  ctl_abort env (world s) = true ->
  receive_loop env enc vstream_idx benchmark fuel s =
  Ok Fallthrough (mkSt (world s) (trace s ++ [EvAbortObserved]) (proc_ctx s) (heap s)).
Proof.
  intros Ha. destruct fuel; simpl; unfold_calls; rewrite Ha; reflexivity.
Qed.

Lemma read_loop_aborted (fuel : nat) (s : St W) :
  ctl_abort env (world s) = true ->
  read_loop env encoder_config ifmt_ctx enc vstream_idx stream_map benchmark fuel s =
  Ok Fallthrough (mkSt (world s) (trace s ++ [EvAbortObserved]) (proc_ctx s) (heap s)).
Proof.
  intros Ha. destruct fuel; simpl; unfold_calls; rewrite Ha; reflexivity.
Qed.

Lemma receive_loop_running (fuel : nat) (s : St W) :
  ctl_abort env (world s) = false ->
  receive_loop env enc vstream_idx benchmark (S fuel) s =
  (pause <- read_pause env ;;
   if pause then sleep_ms env 100 ;;; receive_loop env enc vstream_idx benchmark fuel
   else receive_step env enc vstream_idx benchmark fuel
          (receive_loop env enc vstream_idx benchmark fuel)) s.
Proof.
  intros Ha. simpl. unfold read_abort, get_world, bind at 1 2. simpl.
  rewrite Ha. reflexivity.
Qed.

Lemma read_loop_running (fuel : nat) (s : St W) :
  ctl_abort env (world s) = false ->
  read_loop env encoder_config ifmt_ctx enc vstream_idx stream_map benchmark (S fuel) s =
  (rp <- call_read_frame env ;;
   let '(r, packet) := rp in
   if r <? 0 then
     if r =? AVERROR_EOF then ret Fallthrough else ret (Return r)
   else
     c <- route_packet env encoder_config ifmt_ctx enc vstream_idx stream_map
            benchmark fuel packet ;;
     match c with
     | Return r => ret (Return r)
     | Fallthrough =>
         read_loop env encoder_config ifmt_ctx enc vstream_idx stream_map benchmark fuel
     end) s.
Proof.
  intros Ha. simpl. unfold read_abort, get_world, bind at 1 2. simpl.
  rewrite Ha. reflexivity.
Qed.

Lemma loops_out_of_fuel (s : St W) :
  ctl_abort env (world s) = false ->
  receive_loop env enc vstream_idx benchmark 0 s = Timeout s /\
  read_loop env encoder_config ifmt_ctx enc vstream_idx stream_map benchmark 0 s =
  Timeout s.
Proof.
  intros Ha. simpl. unfold read_abort, get_world, bind, timeout. simpl.
  rewrite Ha. split; reflexivity.
Qed.

Lemma process_frames_unfold (fuel : nat) (s : St W) :
  process_frames env encoder_config ifmt_ctx enc vstream_idx stream_map benchmark
    fuel s =
  if negb (cap_isOpened env (world s)) then Ok (-1) s
  else if negb (av_frame_alloc_ok env (world s)) then Ok (AVERROR ENOMEM) (probed env s)
  else if negb (av_packet_alloc_ok env (world s)) then Ok (AVERROR ENOMEM) (probed env s)
  else
    match read_loop env encoder_config ifmt_ctx enc vstream_idx stream_map benchmark
            fuel (probed env s) with
    | Ok (Return r) s' => Ok r s'
    | Ok Fallthrough s' => flush_sequence env enc vstream_idx fuel s'
    | Timeout s' => Timeout s'
    | Fault s' => Fault s'
    end.
Proof.
  unfold process_frames, get_world, set_probe, bind, ret, probed. simpl.
  destruct (cap_isOpened env (world s)); simpl; [|reflexivity].
  destruct (av_frame_alloc_ok env (world s)); simpl; [|reflexivity].
  destruct (av_packet_alloc_ok env (world s)); simpl; [|reflexivity].
  destruct (read_loop env encoder_config ifmt_ctx enc vstream_idx stream_map benchmark
              fuel _) as [[r|] s'|s'|s']; reflexivity.
Qed.

Lemma receive_loop_abort (fuel : nat) :
  ends_as (inner_abort_shape env) (receive_loop env enc vstream_idx benchmark fuel).
Proof.
  induction fuel as [|fuel IH]; intros s.
  - destruct (ctl_abort env (world s)) eqn:Ha.
    + rewrite receive_loop_aborted by assumption.
      exists [EvAbortObserved]. split; [reflexivity|].
      right. exists [], (mkSt (world s) (trace s ++ [EvAbortObserved]) (proc_ctx s) (heap s)).
      split; [reflexivity|]. split; [constructor|]. split; [reflexivity | exact Ha].
    + rewrite (proj1 (loops_out_of_fuel s Ha)).
      exists []. rewrite app_nil_r. split; [reflexivity | left; constructor].
  - destruct (ctl_abort env (world s)) eqn:Ha.
    + rewrite receive_loop_aborted by assumption.
      exists [EvAbortObserved]. split; [reflexivity|].
      right. exists [], (mkSt (world s) (trace s ++ [EvAbortObserved]) (proc_ctx s) (heap s)).
      split; [reflexivity|]. split; [constructor|]. split; [reflexivity | exact Ha].
    + assert (Hbody : ends_as (inner_abort_shape env)
                (pause <- read_pause env ;;
                 if pause then sleep_ms env 100 ;;; receive_loop env enc vstream_idx benchmark fuel
                 else receive_step env enc vstream_idx benchmark fuel
                        (receive_loop env enc vstream_idx benchmark fuel))).
      { pose proof (receive_step_abort fuel _ IH).
        repeat first
          [ solve [auto]
          | apply inner_after_emits;
              [ first [ solve [apply emits_read_pause]
                      | solve [apply emits_sleep_ms; reflexivity] ]
              | intros ]
          | match goal with
            | |- ends_as _ (if ?b then _ else _) => destruct b
            end ]. }
      rewrite receive_loop_running by assumption. apply Hbody.
Qed.

Lemma ends_as_of_emits {A} (P : Event -> Prop) (Q : list Event -> Result W A -> Prop)
    (m : M W A) :
  emits P m -> (forall evs res, Forall P evs -> Q evs res) -> ends_as Q m.
Proof.
  intros Hm HQ s. destruct (Hm s) as (evs & Ht & HP). exists evs. auto.
Qed.

Lemma emits_read_stream_map_any (P : Event -> Prop) (i : Z) :
  (forall o, P (EvMapLookup i o)) -> emits P (read_stream_map (W := W) stream_map i).
Proof.
  intros HP s. unfold read_stream_map, get_state, get_world, emit, deref, bind, ret,
    fault.
  destruct (pointee s stream_map) as [m|]; simpl.
  - destruct (index_Z m i) as [out|]; simpl.
    + exists [EvMapLookup i out]. split; [reflexivity | repeat constructor; apply HP].
    + exists []. rewrite app_nil_r. split; [reflexivity | constructor].
  - exists []. rewrite app_nil_r. split; [reflexivity | constructor].
Qed.

Lemma emits_passthrough_no_abort (packet : AVPacket) :
  emits (fun e => is_abort e = false)
    (passthrough env encoder_config ifmt_ctx enc stream_map packet).
Proof.
  unfold passthrough, call_mux_write.
  assert (forall i, emits (fun e => is_abort e = false)
                      (read_stream_map (W := W) stream_map i))
    by (intros; apply emits_read_stream_map_any; reflexivity).
  emits_go.
Qed.

Lemma route_packet_abort (fuel : nat) (packet : AVPacket) :
  ends_as (inner_abort_shape env)
    (route_packet env encoder_config ifmt_ctx enc vstream_idx stream_map benchmark
       fuel packet).
Proof.
  unfold route_packet, call_send_packet.
  destruct (stream_index packet =? vstream_idx).
  - pose proof (receive_loop_abort fuel). inner_go.
  - eapply ends_as_of_emits; [apply emits_passthrough_no_abort|].
    intros evs res H. left. exact H.
Qed.

Lemma read_loop_abort (fuel : nat) :
  ends_as outer_abort_shape
    (read_loop env encoder_config ifmt_ctx enc vstream_idx stream_map benchmark fuel).
Proof.
  induction fuel as [|fuel IH]; intros s;
    (destruct (ctl_abort env (world s)) eqn:Ha;
     [ rewrite read_loop_aborted by assumption;
       exists [EvAbortObserved]; split; [reflexivity|];
       right; exists [], [], (mkSt (world s) (trace s ++ [EvAbortObserved]) (proc_ctx s) (heap s));
       repeat split; constructor |]).
  - rewrite (proj2 (loops_out_of_fuel s Ha)).
    exists []. rewrite app_nil_r. split; [reflexivity | left; constructor].
  - rewrite read_loop_running by assumption.
    unfold call_read_frame. rewrite bind_call.
    destruct (av_read_frame env (world s)) as [[r packet] w1]. cbn [fst snd].
    set (s1 := mkSt w1 (trace s ++ [EvReadFrame r packet]) (proc_ctx s) (heap s)).
    assert (Hone : no_abort [EvReadFrame r packet]) by (repeat constructor).
    destruct (r <? 0).
    { exists [EvReadFrame r packet].
      destruct (r =? AVERROR_EOF); (split; [reflexivity | left; exact Hone]). }
    unfold bind.
    destruct (route_packet_abort fuel packet s1) as (evs1 & Ht1 & Hs1).
    destruct Hs1 as [Hn1 | (evs' & s2 & -> & Hn' & Hres & Ha2)].
    + destruct (route_packet env encoder_config ifmt_ctx enc vstream_idx stream_map
                  benchmark fuel packet s1) as [[status|] s2|s2|s2]; simpl in Ht1.
      * exists ([EvReadFrame r packet] ++ evs1). split.
        { simpl. rewrite Ht1. subst s1. simpl. rewrite <- app_assoc. reflexivity. }
        { left. apply Forall_app; auto. }
      * destruct (IH s2) as (evs2 & Ht2 & Hs2).
        exists (([EvReadFrame r packet] ++ evs1) ++ evs2). split.
        { rewrite Ht2, Ht1. subst s1. simpl. rewrite <- !app_assoc. reflexivity. }
        { apply outer_prefix; [apply Forall_app; auto | exact Hs2]. }
      * exists ([EvReadFrame r packet] ++ evs1). split.
        { simpl. rewrite Ht1. subst s1. simpl. rewrite <- app_assoc. reflexivity. }
        { left. apply Forall_app; auto. }
      * exists ([EvReadFrame r packet] ++ evs1). split.
        { simpl. rewrite Ht1. subst s1. simpl. rewrite <- app_assoc. reflexivity. }
        { left. apply Forall_app; auto. }
    + rewrite Hres in *. simpl in Ht1.
      rewrite read_loop_aborted by assumption.
      exists (([EvReadFrame r packet] ++ evs') ++ EvAbortObserved :: [EvAbortObserved]).
      split.
      * simpl. rewrite Ht1. subst s1. simpl. rewrite <- !app_assoc. reflexivity.
      * right. eexists _, _, _. split; [reflexivity|].
        split; [apply Forall_app; auto|]. split; [repeat constructor | reflexivity].
Qed.

Lemma emits_write_flushed_encode_side (fuel : nat) (frames : list AVFrame) :
  emits encode_side (write_flushed env enc vstream_idx fuel frames).
Proof.
  induction frames as [|f frames IH]; simpl; [emits_go|].
  pose proof (emits_write_frame env enc fuel).
  assert (emits encode_side (incr_processed_frames (W := W))).
  { apply emits_silent. intros s. unfold incr_processed_frames.
    destruct (processed_frames (proc_ctx s) =? INT64_MAX); reflexivity. }
  emits_go.
Qed.

Lemma flush_sequence_shape (fuel : nat) :
  ends_as flush_shape (flush_sequence env enc vstream_idx fuel).
Proof.
  intros s. unfold flush_sequence, call_filter_flush. rewrite bind_call.
  destruct (filter_flush env (world s)) as [[r frames] w1]. cbn [fst snd].
  set (s1 := mkSt w1 (trace s ++ [EvFilterFlush r frames]) (proc_ctx s) (heap s)).
  assert (Hrest : emits encode_side
            (if r <? 0 then ret r
             else c <- write_flushed env enc vstream_idx fuel frames ;;
                  match c with
                  | Return r0 => ret r0
                  | Fallthrough => flush env fuel enc
                  end)).
  { pose proof (emits_write_flushed_encode_side fuel frames).
    pose proof (emits_flush env enc fuel). emits_go. }
  destruct (Hrest s1) as (rest & Ht & Hrest').
  exists (EvFilterFlush r frames :: rest). split.
  - rewrite Ht. subst s1. simpl. rewrite <- app_assoc. reflexivity.
  - exists r, frames, rest. auto.
Qed.

Lemma after_abort_in_flush (evs1 evs2 : list Event) (res1 : Result W Ctl)
    (res2 : Result W Z) :
  outer_abort_shape evs1 res1 -> flush_shape evs2 res2 ->
  Forall (fun e => is_decode_side e = false) (after_first_abort (evs1 ++ evs2)) /\
  (In EvAbortObserved (evs1 ++ evs2) ->
   exists r frames, In (EvFilterFlush r frames) (after_first_abort (evs1 ++ evs2))).
Proof.
  intros H1 (r & frames & rest & -> & Hrest).
  assert (Hn2 : no_abort (EvFilterFlush r frames :: rest)).
  { constructor; [reflexivity|].
    eapply Forall_impl; [exact Hrest | apply encode_side_no_abort]. }
  destruct H1 as [Hn1 | (evs' & tail & s' & -> & Hn' & Ht & _)].
  - destruct (after_first_abort_none (evs1 ++ EvFilterFlush r frames :: rest))
      as [-> Hnot]; [apply Forall_app; auto|].
    split; [constructor | intros H; contradiction].
  - rewrite <- app_assoc. simpl. rewrite after_first_abort_cut by assumption.
    split.
    + apply Forall_app. split.
      * eapply Forall_impl; [exact Ht|].
        intros e He. destruct e; simpl in *; congruence.
      * constructor; [reflexivity|].
        eapply Forall_impl; [exact Hrest | apply encode_side_not_decode].
    + intros _. exists r, frames. apply in_or_app. right. left. reflexivity.
Qed.

(** C2, as the code has it.  Once [process_frames] has seen [abort] set,
    it makes no further call to the demuxer, the decoder or the filter's
    [process_frame] -- and it does not stop there: the loop is left
    through its condition and the run ends as the flush sequence ends,
    which starts by flushing the filter and goes on to submit what the
    flush returned and to flush the encoder.  Nothing after the read loop
    looks at [abort]. *)
Theorem abort_stops_reading_not_draining (fuel : nat) (s : St W) :
  let run :=
    process_frames env encoder_config ifmt_ctx enc vstream_idx stream_map
      benchmark fuel s in
  let evs := new_events s run in
  Forall (fun e => is_decode_side e = false) (after_first_abort evs) /\
  (In EvAbortObserved evs ->
   (exists r frames, In (EvFilterFlush r frames) (after_first_abort evs)) /\
   (exists s', run = flush_sequence env enc vstream_idx fuel s')).
Proof.
  intros run evs. subst evs run.
  assert (Hnone : forall res : Result W Z, trace (final res) = trace s ->
            Forall (fun e => is_decode_side e = false)
              (after_first_abort (new_events s res)) /\
            ~ In EvAbortObserved (new_events s res)).
  { intros res Ht.
    rewrite (new_events_app s res []) by (rewrite app_nil_r; exact Ht).
    simpl. split; [constructor | tauto]. }
  assert (Hquiet : forall res : Result W Z,
            Forall (fun e => is_decode_side e = false)
              (after_first_abort (new_events s res)) /\
            ~ In EvAbortObserved (new_events s res) ->
            Forall (fun e => is_decode_side e = false)
              (after_first_abort (new_events s res)) /\
            (In EvAbortObserved (new_events s res) ->
             (exists r frames,
                 In (EvFilterFlush r frames) (after_first_abort (new_events s res))) /\
             (exists s', res = flush_sequence env enc vstream_idx fuel s'))).
  { intros res [H1 H2]. split; [exact H1 | intros H; contradiction]. }
  rewrite process_frames_unfold.
  destruct (cap_isOpened env (world s)); simpl;
    [|apply Hquiet, Hnone; reflexivity].
  destruct (av_frame_alloc_ok env (world s)); simpl;
    [|apply Hquiet, Hnone; reflexivity].
  destruct (av_packet_alloc_ok env (world s)); simpl;
    [|apply Hquiet, Hnone; reflexivity].
  destruct (read_loop_abort fuel (probed env s)) as (evs1 & Ht1 & Hshape1).
  destruct (read_loop env encoder_config ifmt_ctx enc vstream_idx stream_map benchmark
              fuel (probed env s)) as [[status|] s2|s2|s2] eqn:Hloop; simpl in Ht1.
  2:{ destruct (flush_sequence_shape fuel s2) as (evs2 & Ht2 & Hshape2).
      rewrite (new_events_app s _ (evs1 ++ evs2))
        by (rewrite Ht2, Ht1, app_assoc; reflexivity).
      destruct (after_abort_in_flush _ _ _ _ Hshape1 Hshape2) as [Hdec Hflush].
      split; [exact Hdec|]. intros Hin. split; [auto|]. exists s2. reflexivity. }
  all: apply Hquiet.
  all: rewrite (new_events_app s _ evs1) by (simpl; rewrite Ht1; reflexivity).
  all: destruct Hshape1 as [Hn | (evs' & tail & s' & _ & _ & _ & Hres)];
    [|discriminate Hres].
  all: destruct (after_first_abort_none evs1 Hn) as [-> Hnot].
  all: split; [constructor | exact Hnot].
Qed.

End Loops.

End AbortShapes.

(** C2, as stated, fails: after [abort] is seen, this run flushes the
    filter, submits the frame the flush returned and flushes the
    encoder. *)
Lemma abort_is_not_a_hard_stop :
  ~ hard_stop (new_events (sim_start aborted_world) (sim_run 1 false aborted_world)).
Proof.
  unfold hard_stop. intros H.
  pose proof (proj1 (List.Forall_forall _ _) H
                (EvFilterFlush 0 [mkFrame 0 0 7])) as Hflush.
  destruct Hflush as [Hff _]; [|discriminate Hff].
  vm_compute. right. left. reflexivity.
Qed.

Ltac destruct_inner H :=
  match type of H with
  | context [match ?x with _ => _ end] =>
      lazymatch x with
      | context [match _ with _ => _ end] => fail
      | _ => destruct x eqn:?
      end
  end.

Ltac run_inv H :=
  repeat (cbv beta iota in H; first [discriminate H | destruct_inner H]).


(** ** Counting frames *)

Lemma tally_encode_side (evs : list Event) :
  Forall encode_side evs ->
  tally filter_output evs = 0 /\ tally flushed evs = 0 /\ tally decoded evs = 0 /\
  tally filter_input evs = 0.
Proof.
  induction 1 as [|e evs He _ IH]; simpl; [lia|].
  destruct e; simpl in He; try contradiction; simpl; lia.
Qed.

Lemma tally_submitted_drain (evs : list Event) :
  Forall drain_side evs -> tally submitted evs = 0.
Proof.
  induction 1 as [|e evs He _ IH]; simpl; [lia|].
  destruct e; simpl in He; try contradiction; simpl; lia.
Qed.

Lemma tally_unsubmitted (evs : list Event) :
  Forall (fun e => encode_side e /\ submitted e = 0) evs ->
  Forall encode_side evs /\ tally submitted evs = 0.
Proof.
  induction 1 as [|e evs [He Hs] _ [IH1 IH2]]; simpl; [split; [constructor | lia]|].
  split; [constructor; assumption | lia].
Qed.

Section Accounting.

Context {W : Type} (env : Env W).
Variable encoder_config : EncoderConfig.
Variable ifmt_ctx : AVFormatContext.
Variable enc : Encoder.
Variable vstream_idx : Z.
Variable stream_map : option nat.
Variable benchmark : bool.

Lemma write_frame_submits (fuel : nat) (frame : AVFrame) (frame_idx : Z)
    (s s' : St W) (r : Z) :
  write_frame env fuel enc frame frame_idx s = Ok r s' -> 0 <= r ->
  exists evs,
    trace s' = trace s ++ evs /\ Forall encode_side evs /\
    tally submitted evs = 1 /\ proc_ctx s' = proc_ctx s.
Proof.
  intros H Hr.
  pose proof (keeps_ctx_write_frame env enc fuel frame frame_idx s) as Hctx.
  rewrite H in Hctx. simpl in Hctx.
  unfold write_frame, packet_alloc, get_world, call_send_frame, call, deref, bind,
    ret, fault in H.
  run_inv H.
  all: try (inversion H; subst; vm_compute in Hr; contradiction).
  all: try (inversion H; subst; lia).
  all: match goal with
       | H : write_frame_drain ?en ?fu ?ec ?z ?s1 = Ok _ _ |- _ =>
           destruct (emits_write_frame_drain en ec fu z s1) as (evs & Ht & Hd);
           rewrite H in Ht; simpl in Ht
       end.
  all: eexists (_ :: evs); split; [rewrite Ht, <- app_assoc; reflexivity|].
  all: split; [constructor; [exact I|];
               eapply Forall_impl; [exact Hd | apply drain_side_encode_side]|].
  all: split; [simpl; rewrite (tally_submitted_drain evs Hd); reflexivity | exact Hctx].
Qed.

Ltac ledger_solve :=
  unfold ledger; cbn [world trace proc_ctx processed_frames fst snd] in *;
  repeat match goal with
    | H : trace _ = _ |- _ => rewrite H
    | H : proc_ctx _ = _ |- _ => rewrite H
    end;
  rewrite ?tally_app;
  cbn [tally filter_output flushed submitted decoded filter_input
         world trace proc_ctx processed_frames fst snd];
  repeat match goal with
    | H : tally _ _ = _ |- _ => rewrite H
    | H : is_again_or_eof _ = _ |- _ => rewrite H
    | H : (_ <? _) = _ |- _ => rewrite H
    | H : (_ =? _) = _ |- _ => rewrite H
    end;
  cbn [orb andb negb length];
  f_equal; [f_equal|]; try lia;
  repeat match goal with
    | |- context [match ?x with _ => _ end] => destruct x
    end;
  cbn [negb] in *; try discriminate; lia.

(** What a successful [write_frame] adds to a state. *)
Ltac use_write_frame :=
  match goal with
  | H : write_frame _ _ _ _ _ _ = Ok ?r _, Hr : (?r <? 0) = false |- _ =>
      apply write_frame_submits in H as (?evs & ?Ht & ?Henc & ?Hsub & ?Hctx); [|lia];
      match goal with
      | Henc : Forall encode_side _ |- _ =>
          destruct (tally_encode_side _ Henc) as (?Ho & ?Hf & ?Hd & ?Hi)
      end
  end.

Ltac close_balanced Hk :=
  cbv beta iota in *; subst; cbn [fst snd world trace proc_ctx] in *;
  try use_write_frame;
  match goal with
  | H : Ok _ _ = Ok _ _ |- _ =>
      inversion H; subst; simpl; first [lia | reflexivity | ledger_solve]
  | H : _ = Ok ?c ?s' |- balanced _ _ ?c ?s' =>
      apply Hk in H; destruct c; simpl in *; [exact H | rewrite H; ledger_solve]
  end.

Lemma receive_step_ledger (fuel : nat) (k : M W Ctl) :
  (forall s c s', k s = Ok c s' -> balanced benchmark s c s') ->
  forall s c s', receive_step env enc vstream_idx benchmark fuel k s = Ok c s' ->
                 balanced benchmark s c s'.
Proof.
  intros Hk s c s' H.
  unfold receive_step, submit_unless_benchmark, call_receive_frame,
    call_filter_process, incr_processed_frames, call, bind, ret in H.
  run_inv H.
  all: close_balanced Hk.
Qed.

Lemma receive_loop_ledger (fuel : nat) :
  forall s c s', receive_loop env enc vstream_idx benchmark fuel s = Ok c s' ->
                 balanced benchmark s c s'.
Proof.
  induction fuel as [|fuel IH]; intros s c s' H;
    (destruct (ctl_abort env (world s)) eqn:Ha;
     [ rewrite receive_loop_aborted in H by assumption;
       inversion H; subst; simpl; ledger_solve |]).
  - rewrite (proj1 (loops_out_of_fuel env encoder_config ifmt_ctx enc vstream_idx
                      stream_map benchmark s Ha)) in H.
    discriminate H.
  - rewrite receive_loop_running in H by assumption.
    unfold read_pause, sleep_ms, get_world, emit, bind, ret in H.
    run_inv H.
    + apply IH in H. destruct c; simpl in *; [exact H | rewrite H; ledger_solve].
    + eapply receive_step_ledger; eauto.
Qed.

Lemma passthrough_ledger (packet : AVPacket) :
  forall s c s',
    passthrough env encoder_config ifmt_ctx enc stream_map packet s = Ok c s' ->
    balanced benchmark s c s'.
Proof.
  intros s c s' H.
  unfold passthrough, read_stream_map, call_mux_write, call, get_state, get_world, emit, deref,
    bind, ret, fault in H.
  run_inv H.
  all: cbv beta iota in *; subst; cbn [fst snd world trace proc_ctx] in *.
  all: inversion H; subst; simpl; first [lia | reflexivity | ledger_solve].
Qed.

Lemma route_packet_ledger (fuel : nat) (packet : AVPacket) :
  forall s c s',
    route_packet env encoder_config ifmt_ctx enc vstream_idx stream_map benchmark
      fuel packet s = Ok c s' ->
    balanced benchmark s c s'.
Proof.
  intros s c s' H. unfold route_packet in H.
  destruct (stream_index packet =? vstream_idx); [|eapply passthrough_ledger; eauto].
  unfold call_send_packet, call, bind, ret in H.
  run_inv H.
  - inversion H; subst; simpl; lia.
  - apply receive_loop_ledger in H.
    destruct c; simpl in *; [exact H | rewrite H; ledger_solve].
Qed.

Lemma read_loop_ledger (fuel : nat) :
  forall s c s',
    read_loop env encoder_config ifmt_ctx enc vstream_idx stream_map benchmark fuel s =
    Ok c s' ->
    balanced benchmark s c s'.
Proof.
  induction fuel as [|fuel IH]; intros s c s' H;
    (destruct (ctl_abort env (world s)) eqn:Ha;
     [ rewrite read_loop_aborted in H by assumption;
       inversion H; subst; simpl; ledger_solve |]).
  - rewrite (proj2 (loops_out_of_fuel env encoder_config ifmt_ctx enc vstream_idx
                      stream_map benchmark s Ha)) in H.
    discriminate H.
  - rewrite read_loop_running in H by assumption.
    unfold call_read_frame, call, bind, ret in H.
    run_inv H.
    all: cbv beta iota in *; subst; cbn [fst snd world trace proc_ctx] in *.
    all: try (inversion H; subst; simpl; first [lia | reflexivity | ledger_solve]).
    all: match goal with
         | Hr : route_packet _ _ _ _ _ _ _ _ _ _ = Ok _ _ |- _ =>
             apply route_packet_ledger in Hr; simpl in Hr
         end.
    + inversion H; subst. simpl. exact Heqr.
    + apply IH in H. destruct c; simpl in *; [exact H|].
      rewrite H, Heqr. ledger_solve.
Qed.

Lemma emits_flush_unsubmitted (fuel : nat) :
  emits (fun e => encode_side e /\ submitted e = 0) (flush env fuel enc).
Proof.
  unfold flush, packet_alloc, get_world, call_send_frame.
  assert (emits (fun e => encode_side e /\ submitted e = 0) (flush_drain env fuel enc)).
  { eapply emits_weaken; [|apply emits_flush_drain].
    intros e He. destruct e; simpl in *; tauto. }
  emits_go.
Qed.

Lemma write_flushed_ledger (fuel : nat) (frames : list AVFrame) :
  forall s c s',
    write_flushed env enc vstream_idx fuel frames s = Ok c s' ->
    match c with
    | Return r => r < 0
    | Fallthrough =>
        exists evs,
          trace s' = trace s ++ evs /\ Forall encode_side evs /\
          tally submitted evs = Z.of_nat (length frames) /\
          processed_frames (proc_ctx s') =
          processed_frames (proc_ctx s) + Z.of_nat (length frames)
    end.
Proof.
  induction frames as [|f frames IH]; intros s c s' H; simpl in H.
  - inversion H; subst. exists []. rewrite app_nil_r. simpl.
    repeat split; [constructor | lia].
  - unfold incr_processed_frames, bind, ret in H. run_inv H.
    + inversion H; subst. lia.
    + use_write_frame. apply IH in H. destruct c; [exact H|].
      destruct H as (evs2 & Ht2 & Henc2 & Hsub2 & Hp2).
      cbn [world trace proc_ctx processed_frames] in *.
      exists (evs ++ evs2). split; [rewrite Ht2, Ht, app_assoc; reflexivity|].
      split; [apply Forall_app; auto|].
      rewrite tally_app, Hsub, Hsub2, Hp2, Hctx.
      cbn [length]. split; lia.
Qed.

Lemma flush_sequence_ledger (fuel : nat) (s s' : St W) (r : Z) :
  flush_sequence env enc vstream_idx fuel s = Ok r s' -> 0 <= r ->
  ledger benchmark s' = ledger benchmark s.
Proof.
  intros H Hr. unfold flush_sequence, call_filter_flush, call, bind, ret in H.
  run_inv H.
  all: cbv beta iota in *; subst; cbn [fst snd world trace proc_ctx] in *.
  all: try (inversion H; subst; lia).
  all: match goal with
       | Hw : write_flushed _ _ _ _ _ _ = Ok _ _ |- _ =>
           apply write_flushed_ledger in Hw; cbn [trace proc_ctx] in Hw;
           rename Hw into Hwf
       end.
  - inversion H; subst. lia.
  - destruct Hwf as (evs1 & Ht1 & Henc1 & Hsub1 & Hp1).
    match goal with
    | H : flush _ _ _ ?s0 = Ok _ _ |- _ =>
        destruct (emits_flush_unsubmitted fuel s0) as (evs2 & Ht2 & Hun);
        pose proof (keeps_ctx_flush env enc fuel s0) as Hctx2
    end.
    rewrite H in Ht2, Hctx2. simpl in Ht2, Hctx2.
    destruct (tally_unsubmitted evs2 Hun) as [Henc2 Hsub2].
    destruct (tally_encode_side _ Henc1) as (Ho1 & Hf1 & Hd1 & Hi1).
    destruct (tally_encode_side _ Henc2) as (Ho2 & Hf2 & Hd2 & Hi2).
    unfold ledger. rewrite Ht2, Ht1, Hctx2, Hp1, !tally_app.
    cbn [tally filter_output flushed submitted decoded filter_input].
    rewrite Ho1, Hf1, Hd1, Hi1, Ho2, Hf2, Hd2, Hi2, Hsub1, Hsub2.
    f_equal; [f_equal|]; try lia. destruct benchmark; lia.
Qed.

(** C3, as the code has it.  After a complete run -- [process_frames]
    returns a status that is not negative -- [processed_frames] has grown
    by the number of frames the filter put out: those [process_frame]
    handed back with status 0 plus those its flush returned.  In normal
    mode that is the number of frames submitted to the encoder; in
    benchmark mode nothing the read loop gets from the filter is
    submitted, and it is counted all the same, as is every flushed frame.
    Every decoded frame was given to the filter, so the count is the
    number of decoded frames when the filter put out as many frames as it
    was given. *)
Theorem processed_frames_counts_filter_output (fuel : nat) (s s' : St W) (r : Z) :
  process_frames env encoder_config ifmt_ctx enc vstream_idx stream_map benchmark
    fuel s = Ok r s' ->
  0 <= r ->
  let evs := new_events s (Ok r s') in
  processed_frames (proc_ctx s') =
    processed_frames (proc_ctx s) + tally filter_output evs + tally flushed evs /\
  (benchmark = false ->
   tally submitted evs = tally filter_output evs + tally flushed evs) /\
  (benchmark = true -> tally submitted evs <= tally flushed evs) /\
  tally decoded evs = tally filter_input evs /\
  (tally filter_output evs + tally flushed evs = tally filter_input evs ->
   processed_frames (proc_ctx s') = processed_frames (proc_ctx s) + tally decoded evs).
Proof.
  intros H Hr evs.
  assert (Hl : ledger benchmark s' = ledger benchmark s).
  { rewrite process_frames_unfold in H. run_inv H.
    1-3: inversion H; subst; vm_compute in Hr; contradiction.
    all: match goal with
         | Hl : read_loop _ _ _ _ _ _ _ _ _ = Ok _ _ |- _ =>
             apply read_loop_ledger in Hl; simpl in Hl; rename Hl into Hloop
         end.
    - inversion H; subst. lia.
    - apply flush_sequence_ledger in H; [|assumption].
      rewrite H, Hloop. reflexivity. }
  destruct (emits_process_frames env encoder_config ifmt_ctx enc vstream_idx stream_map
              benchmark fuel s) as (evs' & Ht & _).
  rewrite H in Ht. simpl in Ht.
  subst evs. rewrite (new_events_app s (Ok r s') evs') by exact Ht.
  unfold ledger in Hl. rewrite Ht, !tally_app in Hl.
  inversion Hl as [[H1 H2 H3]].
  repeat split; try lia; intros Hb; rewrite Hb in H2; lia.
Qed.

End Accounting.

Lemma processed_frames_counts_filter_output_witness :
  let s := sim_start holding_world in
  let run := sim_run 1 false holding_world in
  let evs := new_events s (Ok 0 (final run)) in
  processed_frames (proc_ctx (final run)) =
    processed_frames (proc_ctx s) + tally filter_output evs + tally flushed evs /\
  (false = false -> tally submitted evs = tally filter_output evs + tally flushed evs) /\
  (false = true -> tally submitted evs <= tally flushed evs) /\
  tally decoded evs = tally filter_input evs /\
  (tally filter_output evs + tally flushed evs = tally filter_input evs ->
   processed_frames (proc_ctx (final run)) =
   processed_frames (proc_ctx s) + tally decoded evs).
Proof.
  intros s run evs.
  assert (H : process_frames sim_env (sim_config false) sim_ifmt_ctx sim_encoder 1 None
                false 100 s = Ok 0 (final run))
    by (vm_compute; exact eq_refl).
  assert (Hr : 0 <= 0) by lia.
  exact (processed_frames_counts_filter_output sim_env (sim_config false) sim_ifmt_ctx
           sim_encoder 1 None false 100 s (final run) 0 H Hr).
Defined.

(** C3, as stated, fails: in benchmark mode, with a filter that hands no
    frame back, the run is complete, the decoder produced ten frames and
    [processed_frames] is 0. *)
Lemma benchmark_count_is_not_decoder_count :
  let run := sim_run 1 true dropping_world in
  (exists s', run = Ok 0 s') /\
  tally decoded (trace (final run)) = 10 /\
  processed_frames (proc_ctx (final run)) <> tally decoded (trace (final run)).
Proof.
  intros run. split; [|split].
  - eexists. vm_compute. reflexivity.
  - vm_compute. reflexivity.
  - vm_compute. discriminate.
Qed.

(** ** Flushing twice *)

Lemma sim_draining_contract : DrainingContract sim_env sim_draining.
Proof.
  split; unfold sim_draining; simpl.
  - intros w r w'. unfold sim_send_frame.
    destruct (w_draining w) eqn:Hd; intros H Hr; inversion H; subst; simpl; auto.
  - intros f w r w' Hd. unfold sim_send_frame. rewrite Hd.
    intros H; inversion H; subst. reflexivity.
  - intros w r p w' Hd. unfold sim_receive_packet.
    destruct (w_encoder w); intros H; inversion H; subst; simpl; auto.
  - intros p w r w' Hd. unfold sim_mux_write.
    intros H; inversion H; subst; simpl; auto.
  - intros w r frames w' Hd. unfold sim_filter_flush.
    intros H; inversion H; subst; simpl; auto.
Qed.

Section FlushTwice.

Context {W : Type} (env : Env W) (draining : W -> Prop).
Hypothesis contract : DrainingContract env draining.
Variable enc : Encoder.
Variable vstream_idx : Z.

Lemma keeps_draining_bind {A B} (m : M W A) (k : A -> M W B) :
  keeps_draining draining m -> (forall a, keeps_draining draining (k a)) ->
  keeps_draining draining (bind m k).
Proof.
  intros Hm Hk s Hd. unfold bind. specialize (Hm s Hd).
  destruct (m s) as [a s1|s1|s1]; simpl in *; try assumption.
  apply Hk. assumption.
Qed.

Lemma keeps_draining_silent {A} (m : M W A) :
  (forall s, world (final (m s)) = world s) -> keeps_draining draining m.
Proof. intros H s Hd. rewrite H. assumption. Qed.

Lemma keeps_draining_receive_and_mux (k : Z -> M W Z) :
  (forall r, keeps_draining draining (k r)) ->
  keeps_draining draining (receive_and_mux env enc k).
Proof.
  intros Hk. unfold receive_and_mux.
  apply keeps_draining_bind.
  { intros s Hd. unfold call_receive_packet, call.
    destruct (avcodec_receive_packet env (world s)) as [[r p] w1] eqn:E. simpl.
    eapply draining_receive; eauto. }
  intros [r p].
  repeat first
    [ solve [auto]
    | solve [apply keeps_draining_silent; intros; reflexivity]
    | match goal with
      | |- keeps_draining _ (if ?b then _ else _) => destruct b
      | |- keeps_draining _ (bind (deref ?p) _) =>
          destruct p; [apply keeps_draining_bind; [|intros] |]
      end ].
  apply keeps_draining_bind.
  - intros s Hd. unfold call_mux_write, call.
    match goal with
    | |- context [av_interleaved_write_frame env ?pkt (world s)] =>
        destruct (av_interleaved_write_frame env pkt (world s)) as [m w1] eqn:E
    end.
    simpl. eapply draining_mux; eauto.
  - intros m. destruct (m <? 0); [apply keeps_draining_silent; reflexivity | apply Hk].
Qed.

Lemma keeps_draining_flush_drain (fuel : nat) :
  keeps_draining draining (flush_drain env fuel enc).
Proof.
  induction fuel as [|fuel IH]; simpl.
  - apply keeps_draining_silent. reflexivity.
  - apply keeps_draining_receive_and_mux. intros _. exact IH.
Qed.

(** A flush of the encoder that succeeds leaves it draining. *)
Lemma flush_leaves_draining (fuel : nat) (s s' : St W) (r : Z) :
  flush env fuel enc s = Ok r s' -> 0 <= r -> draining (world s').
Proof.
  intros H Hr. unfold flush, packet_alloc, get_world, call_send_frame, call, bind, ret in H.
  run_inv H.
  - inversion H; subst. vm_compute in Hr. contradiction.
  - inversion H; subst. lia.
  - match goal with
    | Hs : avcodec_send_frame env None _ = (?z, ?w) |- _ =>
        assert (Hd : draining w)
          by (eapply flush_request_accepted; [exact contract | exact Hs | lia])
    end.
    match goal with
    | H : flush_drain env fuel enc ?s1 = Ok _ _ |- _ =>
        pose proof (keeps_draining_flush_drain fuel s1 Hd) as Hk;
        rewrite H in Hk; exact Hk
    end.
Qed.

Lemma flush_sequence_leaves_draining (fuel : nat) (s s' : St W) (r : Z) :
  flush_sequence env enc vstream_idx fuel s = Ok r s' -> 0 <= r -> draining (world s').
Proof.
  intros H Hr. unfold flush_sequence, call_filter_flush, call, bind, ret in H.
  run_inv H.
  - inversion H; subst. lia.
  - match goal with
    | Hw : write_flushed _ _ _ _ _ _ = Ok (Return _) _ |- _ =>
        apply (write_flushed_ledger env enc vstream_idx) in Hw
    end.
    inversion H; subst. lia.
  - eapply flush_leaves_draining; eauto.
Qed.

Ltac destruct_inner_goal :=
  match goal with
  | |- context [match ?x with _ => _ end] =>
      lazymatch x with
      | context [match _ with _ => _ end] => fail
      | _ => destruct x eqn:?
      end
  end.

(** From a draining encoder, the flush sequence writes nothing. *)
Lemma flush_sequence_when_draining (fuel : nat) (s : St W) :
  draining (world s) ->
  tally mux_written (new_events s (flush_sequence env enc vstream_idx fuel s)) = 0 /\
  (forall s', flush_sequence env enc vstream_idx fuel s <> Timeout s').
Proof.
  intros Hd.
  unfold flush_sequence, call_filter_flush. rewrite bind_call.
  destruct (filter_flush env (world s)) as [[r frames] w1] eqn:Hff. cbn [fst snd].
  assert (Hd1 : draining w1) by (eapply draining_filter_flush; eauto).
  destruct (r <? 0).
  { split; [|discriminate].
    erewrite new_events_app by (simpl; reflexivity). reflexivity. }
  assert (Hrefuse : forall f z w, avcodec_send_frame env f w1 = (z, w) ->
            (z <? 0) = false -> False).
  { intros f z w Hs Hz.
    pose proof (draining_refuses_frames env draining contract f w1 z w Hd1 Hs). lia. }
  destruct frames as [|f rest]; simpl.
  - unfold flush, packet_alloc, get_world, call_send_frame, call, bind, ret.
    cbn [world trace proc_ctx].
    repeat (cbv beta iota; destruct_inner_goal).
    all: try (exfalso; eapply Hrefuse; eauto; fail).
    all: try match goal with
           | H : (_ <? 0) = false |- _ => vm_compute in H; discriminate H
           end.
    all: split; [|discriminate].
    all: erewrite new_events_app
      by (simpl; rewrite <- ?app_assoc; reflexivity); reflexivity.
  - unfold write_frame, packet_alloc, get_world, call_send_frame, call, deref, bind, ret,
      fault.
    cbn [world trace proc_ctx].
    repeat (cbv beta iota; destruct_inner_goal).
    all: try (exfalso; eapply Hrefuse; eauto; fail).
    all: try match goal with
           | H : (_ <? 0) = false |- _ => vm_compute in H; discriminate H
           end.
    all: split; [|discriminate].
    all: erewrite new_events_app
      by (simpl; rewrite <- ?app_assoc; reflexivity); reflexivity.
Qed.

(** C6.  After a flush sequence that completed -- the filter flushed, the
    frames it returned encoded, the encoder flushed, the status not
    negative -- a second flush sequence writes no packet to the muxer,
    whatever the filter returns this time, and does not get as far as a
    receive loop.  The code has no guard of its own for this: it is the
    encoder that, once flushed, refuses the frames and the second flush
    request (the draining contract). *)
Theorem second_flush_writes_nothing (fuel1 fuel2 : nat) (s0 s1 : St W) (r1 : Z) :
  flush_sequence env enc vstream_idx fuel1 s0 = Ok r1 s1 ->
  0 <= r1 ->
  tally mux_written (new_events s1 (flush_sequence env enc vstream_idx fuel2 s1)) = 0 /\
  (forall s2, flush_sequence env enc vstream_idx fuel2 s1 <> Timeout s2).
Proof.
  intros H1 Hr1. apply flush_sequence_when_draining.
  eapply flush_sequence_leaves_draining; eauto.
Qed.

End FlushTwice.

Lemma second_flush_writes_nothing_witness :
  let s0 := sim_start held_world in
  let s1 := final (flush_sequence sim_env sim_encoder 1 10 s0) in
  tally mux_written (new_events s0 (flush_sequence sim_env sim_encoder 1 10 s0)) = 2 /\
  tally mux_written (new_events s1 (flush_sequence sim_env sim_encoder 1 10 s1)) = 0 /\
  (forall s2, flush_sequence sim_env sim_encoder 1 10 s1 <> Timeout s2).
Proof.
  intros s0 s1.
  assert (H : flush_sequence sim_env sim_encoder 1 10 s0 = Ok 0 s1)
    by (vm_compute; exact eq_refl).
  assert (Hr : 0 <= 0) by lia.
  split; [vm_compute; exact eq_refl|].
  exact (second_flush_writes_nothing sim_env sim_draining sim_draining_contract
           sim_encoder 1 10 10 s0 s1 0 H Hr).
Defined.

(** ** The stream map *)

Lemma index_Z_nonneg {A} (l : list A) (i : Z) :
  0 <= i -> index_Z l i = l !! Z.to_nat i.
Proof. intros Hi. unfold index_Z. destruct (i <? 0) eqn:E; [lia | reflexivity]. Qed.

Lemma index_Z_Some {A} (l : list A) (i : Z) (x : A) :
  index_Z l i = Some x -> 0 <= i /\ l !! Z.to_nat i = Some x.
Proof. unfold index_Z. destruct (i <? 0) eqn:E; [discriminate | split; [lia | assumption]]. Qed.

Lemma insert_last {A} (l : list A) (x y : A) :
  <[length l := x]> (l ++ [y]) = l ++ [x].
Proof. rewrite insert_app_r_alt by lia. rewrite Nat.sub_diag. reflexivity. Qed.

Lemma extends_refl (n : nat) (m : MapState) : extends n m m.
Proof.
  repeat split; auto; exists []; rewrite app_nil_r; reflexivity.
Qed.

Lemma extends_trans (n n' : nat) (m m1 m' : MapState) :
  (n <= n')%nat -> extends n m m1 -> extends n' m1 m' -> extends n m m'.
Proof.
  intros Hn (Hl1 & He1 & [a1 Ha1] & [l1 Hlog1]) (Hl2 & He2 & [a2 Ha2] & [l2 Hlog2]).
  repeat split.
  - congruence.
  - intros j Hj. rewrite He2 by lia. apply He1. assumption.
  - exists (a1 ++ a2). rewrite Ha2, Ha1, app_assoc. reflexivity.
  - exists (l1 ++ l2). rewrite Hlog2, Hlog1, app_assoc. reflexivity.
Qed.

Lemma mapped_as_extends (vin vout : Z) (base base' n : nat) (i : Z) (st : AVStream)
    (m m' : MapState) :
  0 <= i -> (Z.to_nat i < n)%nat -> (base' <= base)%nat -> extends n m m' ->
  mapped_as vin vout base i st m -> mapped_as vin vout base' i st m'.
Proof.
  intros Hi Hn Hb (Hl & He & [added Ha] & [l Hlog]). unfold mapped_as.
  rewrite !(index_Z_nonneg _ i Hi), (He _ Hn).
  destruct (i =? vin); [auto|].
  destruct (is_audio_or_subtitle (codec_type (codecpar st))).
  - intros (o & ost & Hm & Ho & Hs & Hrest). exists o, ost.
    split; [assumption|]. split; [lia|]. split; [|assumption].
    apply index_Z_Some in Hs as [Ho' Hs].
    rewrite (index_Z_nonneg _ o Ho'), Ha.
    rewrite lookup_app_l by (eapply lookup_lt_Some; eauto). assumption.
  - intros [Hm Hin]. split; [assumption|]. rewrite Hlog. apply in_or_app. auto.
Qed.

Section MapStreams.

Variable ienv : InitEnv.
Variables vin vout : Z.

(** One pass of the loop, put before the passes that follow it. *)
Lemma map_streams_step (st : AVStream) (rest : list AVStream) (i : Z)
    (m m1 m' : MapState) :
  0 <= i ->
  extends (Z.to_nat i) m m1 ->
  mapped_as vin vout (length (streams (ms_ofmt m))) i st m1 ->
  length (streams (ms_ofmt m1)) =
    (length (streams (ms_ofmt m)) + (if copied vin i st then 1 else 0))%nat ->
  extends (Z.to_nat (i + 1)) m1 m' /\
  length (streams (ms_ofmt m')) =
    (length (streams (ms_ofmt m1)) + count_copied vin rest (i + 1))%nat /\
  (forall k st', rest !! k = Some st' ->
     mapped_as vin vout (length (streams (ms_ofmt m1))) (i + 1 + Z.of_nat k) st' m') ->
  extends (Z.to_nat i) m m' /\
  length (streams (ms_ofmt m')) =
    (length (streams (ms_ofmt m)) + count_copied vin (st :: rest) i)%nat /\
  (forall k st', (st :: rest) !! k = Some st' ->
     mapped_as vin vout (length (streams (ms_ofmt m))) (i + Z.of_nat k) st' m').
Proof.
  intros Hi Hext1 Hst Hlen1 (Hext & Hlen & Hrest).
  split; [|split].
  - eapply extends_trans; [|exact Hext1|exact Hext]. lia.
  - simpl. lia.
  - intros [|k] st' Hk; simpl in Hk.
    + inversion Hk; subst st'. replace (i + Z.of_nat 0) with i by lia.
      eapply mapped_as_extends; [exact Hi| |reflexivity|exact Hext|exact Hst]. lia.
    + replace (i + Z.of_nat (S k)) with (i + 1 + Z.of_nat k) by lia.
      specialize (Hrest k st' Hk).
      eapply mapped_as_extends; [lia| | |apply extends_refl|exact Hrest].
      * constructor.
      * lia.
Qed.

Lemma map_streams_spec (in_streams : list AVStream) :
  forall i m m',
    0 <= i ->
    (Z.to_nat i + length in_streams <= length (ms_map m))%nat ->
    map_streams ienv vin vout in_streams i m = (0, m') ->
    extends (Z.to_nat i) m m' /\
    length (streams (ms_ofmt m')) =
      (length (streams (ms_ofmt m)) + count_copied vin in_streams i)%nat /\
    (forall k st, in_streams !! k = Some st ->
       mapped_as vin vout (length (streams (ms_ofmt m))) (i + Z.of_nat k) st m').
Proof.
  induction in_streams as [|st rest IH]; intros i m m' Hi Hlen H.
  - inversion H; subst. split; [apply extends_refl|].
    split; [simpl; lia|]. intros k st Hk. discriminate Hk.
  - simpl in H, Hlen.
    assert (Hin : (Z.to_nat i < length (ms_map m))%nat) by lia.
    assert (Hnext : Z.to_nat (i + 1) = S (Z.to_nat i)) by lia.
    assert (Hother : forall (x : Z) (j : nat), (j < Z.to_nat i)%nat ->
              <[Z.to_nat i := x]> (ms_map m) !! j = ms_map m !! j)
      by (intros x j Hj; apply list_lookup_insert_ne; lia).
    destruct (i =? vin) eqn:Ev.
    { apply IH in H; [|lia|simpl; rewrite length_insert; lia].
      eapply map_streams_step; [exact Hi| | | |exact H]; simpl.
      - repeat split; simpl; auto using length_insert;
          exists []; rewrite app_nil_r; reflexivity.
      - unfold mapped_as. rewrite Ev, (index_Z_nonneg _ i Hi). simpl.
        apply list_lookup_insert_eq. assumption.
      - unfold copied. rewrite Ev. simpl. lia. }
    destruct (is_audio_or_subtitle (codec_type (codecpar st))) eqn:Ea; simpl in H.
    2:{ apply IH in H; [|lia|simpl; rewrite length_insert; lia].
        eapply map_streams_step; [exact Hi| | | |exact H]; simpl.
        - repeat split; simpl; auto using length_insert.
          + exists []; rewrite app_nil_r; reflexivity.
          + eexists; reflexivity.
        - unfold mapped_as. rewrite Ev, Ea, (index_Z_nonneg _ i Hi). simpl.
          split; [apply list_lookup_insert_eq; assumption|].
          apply in_or_app. right. left. reflexivity.
        - unfold copied. rewrite Ev, Ea. simpl. lia. }
    unfold avformat_new_stream in H.
    destruct (new_stream_ok ienv (length (streams (ms_ofmt m)))); simpl in H;
      [|inversion H as [[Hr Hm]]; vm_compute in Hr; discriminate Hr].
    destruct (parameters_copy_ret ienv (codecpar st) <? 0) eqn:Ec;
      [inversion H as [[Hr Hm]]; lia|].
    unfold store_stream, nb_streams in H. simpl in H.
    rewrite Nat2Z.id, insert_last in H.
    apply IH in H; [|lia|simpl; rewrite length_insert; lia].
    eapply map_streams_step; [exact Hi| | | |exact H]; simpl.
    + repeat split; simpl; auto using length_insert; eexists; reflexivity.
    + unfold mapped_as. rewrite Ev, Ea, (index_Z_nonneg _ i Hi). simpl.
      exists (Z.of_nat (length (streams (ms_ofmt m)))),
        (mkStream (Z.of_nat (length (streams (ms_ofmt m))))
           (set_codec_tag (codecpar st) 0) (time_base st) zero_q zero_q).
      split; [apply list_lookup_insert_eq; assumption|].
      split; [lia|]. split; [|repeat split; reflexivity].
      rewrite index_Z_nonneg by lia. rewrite Nat2Z.id.
      apply list_lookup_middle. reflexivity.
    + unfold copied. rewrite Ev, Ea. simpl. rewrite length_app. simpl. lia.
Qed.

End MapStreams.

Ltac destruct_inner_goal :=
  match goal with
  | |- context [match ?x with _ => _ end] =>
      lazymatch x with
      | context [match _ with _ => _ end] => fail
      | _ => destruct x eqn:?
      end
  end.

(** What a successful [init] with stream copy has done: created the
    output video stream at index 0, then run the mapping loop to its end
    over a map with one cell for each input stream. *)
Lemma init_success (ienv : InitEnv) (hw_ctx : bool) (ifmt_ctx : AVFormatContext)
    (dec_ctx : AVCodecContext) (encoder_config : EncoderConfig) (in_vstream_idx : Z) :
  init_ret (init ienv hw_ctx ifmt_ctx dec_ctx encoder_config in_vstream_idx) = 0 ->
  copy_streams encoder_config = true ->
  exists vstream cells log m' octx ectx,
    length cells = length (streams ifmt_ctx) /\
    map_streams ienv in_vstream_idx 0 (streams ifmt_ctx) 0
      (mkMapState (mkFormatContext [vstream] (output_format_flags ienv) false) cells log)
    = (0, m') /\
    init_encoder (init ienv hw_ctx ifmt_ctx dec_ctx encoder_config in_vstream_idx) =
      mkEncoder (Some octx) (Some ectx) 0 (Some (ms_map m')) /\
    streams octx = streams (ms_ofmt m') /\
    init_log (init ienv hw_ctx ifmt_ctx dec_ctx encoder_config in_vstream_idx) =
      ms_log m'.
Proof.
  intros H Hc. revert H. unfold init, av_malloc_array, avformat_new_stream. rewrite Hc.
  repeat (cbv beta iota; destruct_inner_goal).
  all: cbn [init_ret init_error init_encoder init_log]; intros H.
  all: try (vm_compute in H; discriminate H).
  all: try lia.
  all: try match goal with
         | Ha : _ && (?r <? 0) = true |- _ =>
             apply andb_prop in Ha as [_ Ha]; lia
         end.
  all: try match goal with
       | Hm : map_streams _ _ _ _ _ _ = (?z0, ?m) |- _ =>
           assert (z0 = 0)
             by (match goal with
                 | Hz : negb (z0 =? 0) = false |- _ =>
                     destruct (z0 =? 0) eqn:E; [lia | discriminate Hz]
                 end);
           subst z0;
           unfold store_stream, nb_streams in Hm; simpl in Hm;
           eexists _, _, _, m, _, _;
           split; [|split; [exact Hm | split; [reflexivity | split; reflexivity]]];
           rewrite length_map, length_seq; reflexivity
       end.
  all: match goal with
       | Hn : negb (AVERROR ENOMEM =? 0) = false |- _ =>
           vm_compute in Hn; discriminate Hn
       end.
Qed.

(** C5.  When [init] succeeds with stream copy enabled, the stream map has
    one entry for each input stream and, for every input stream other
    than the video stream: an audio or subtitle stream is mapped to an
    output stream of its own (index 1 or more, the output video stream
    being 0) that has the input's codec parameters with the codec tag set
    to 0 and the input's time base; a stream of any other type is mapped
    to -1, a warning is logged for it, and it gets no output stream -- the
    output holds the video stream and one stream for each audio or
    subtitle stream, nothing else. *)
Theorem init_copies_audio_and_subtitle_streams (ienv : InitEnv) (hw_ctx : bool)
    (ifmt_ctx : AVFormatContext) (dec_ctx : AVCodecContext)
    (encoder_config : EncoderConfig) (in_vstream_idx : Z) :
  copy_streams encoder_config = true ->
  init_ret (init ienv hw_ctx ifmt_ctx dec_ctx encoder_config in_vstream_idx) = 0 ->
  let res := init ienv hw_ctx ifmt_ctx dec_ctx encoder_config in_vstream_idx in
  exists octx smap,
    ofmt_ctx_ (init_encoder res) = Some octx /\
    stream_map_ (init_encoder res) = Some smap /\
    length smap = length (streams ifmt_ctx) /\
    length (streams octx) = S (count_copied in_vstream_idx (streams ifmt_ctx) 0) /\
    forall i st,
      index_Z (streams ifmt_ctx) i = Some st -> i <> in_vstream_idx ->
      if is_audio_or_subtitle (codec_type (codecpar st)) then
        exists o ost,
          index_Z smap i = Some o /\ 1 <= o /\
          index_Z (streams octx) o = Some ost /\ index ost = o /\
          codecpar ost = set_codec_tag (codecpar st) 0 /\
          time_base ost = time_base st
      else index_Z smap i = Some (-1) /\ In (skip_warning i) (init_log res).
Proof.
  intros Hc H res.
  destruct (init_success _ _ _ _ _ _ H Hc)
    as (vstream & cells & log & m' & octx & ectx & Hcells & Hmap & Henc & Hstreams &
        Hlog).
  apply map_streams_spec in Hmap; [|lia|simpl; lia].
  destruct Hmap as ((Hlen & _) & Hcount & Hall). simpl in Hlen, Hcount.
  subst res. rewrite Henc, Hlog. simpl.
  exists octx, (ms_map m'). rewrite Hstreams.
  split; [reflexivity|]. split; [reflexivity|]. split; [congruence|].
  split; [exact Hcount|].
  intros i st Hst Hne.
  apply index_Z_Some in Hst as [Hi Hst].
  specialize (Hall _ _ Hst).
  replace (0 + Z.of_nat (Z.to_nat i)) with i in Hall by lia.
  unfold mapped_as in Hall. cbn [ms_ofmt ms_map ms_log streams length] in Hall.
  change (Z.of_nat 1) with 1 in Hall.
  destruct (i =? in_vstream_idx) eqn:E; [lia|].
  destruct (is_audio_or_subtitle (codec_type (codecpar st))); exact Hall.
Qed.

Lemma init_copies_audio_and_subtitle_streams_witness :
  let res := init sim_ienv false sim_ifmt_ctx sim_dec_ctx (sim_config true) 1 in
  exists octx smap,
    ofmt_ctx_ (init_encoder res) = Some octx /\
    stream_map_ (init_encoder res) = Some smap /\
    length smap = length (streams sim_ifmt_ctx) /\
    length (streams octx) = S (count_copied 1 (streams sim_ifmt_ctx) 0) /\
    forall i st,
      index_Z (streams sim_ifmt_ctx) i = Some st -> i <> 1 ->
      if is_audio_or_subtitle (codec_type (codecpar st)) then
        exists o ost,
          index_Z smap i = Some o /\ 1 <= o /\
          index_Z (streams octx) o = Some ost /\ index ost = o /\
          codecpar ost = set_codec_tag (codecpar st) 0 /\
          time_base ost = time_base st
      else index_Z smap i = Some (-1) /\ In (skip_warning i) (init_log res).
Proof.
  exact (init_copies_audio_and_subtitle_streams sim_ienv false
           sim_ifmt_ctx sim_dec_ctx (sim_config true) 1 eq_refl eq_refl).
Defined.

(** The scenario of C5: one video, one audio and one stream of unknown
    type give two output streams, the map 1, 0, -1 and one warning. *)
Example init_video_audio_unknown :
  let res := init sim_ienv false sim_ifmt_ctx sim_dec_ctx (sim_config true) 1 in
  init_ret res = 0 /\
  option_map (fun c => length (streams c)) (ofmt_ctx_ (init_encoder res)) = Some 2%nat /\
  stream_map_ (init_encoder res) = Some [1; 0; -1] /\
  List.filter (fun l => match log_level l with LogWarn => true | _ => false end)
    (init_log res) = [skip_warning 2].
Proof. vm_compute. repeat split. Qed.

(** What [init] has put into the map for the video stream. *)
Lemma init_maps_video_stream (ienv : InitEnv) (hw_ctx : bool)
    (ifmt_ctx : AVFormatContext) (dec_ctx : AVCodecContext)
    (encoder_config : EncoderConfig) (in_vstream_idx : Z) :
  let enc :=
    init_encoder (init ienv hw_ctx ifmt_ctx dec_ctx encoder_config in_vstream_idx) in
  init_ret (init ienv hw_ctx ifmt_ctx dec_ctx encoder_config in_vstream_idx) = 0 ->
  (forall out, stream_entry enc in_vstream_idx = Some out -> out = out_vstream_idx_ enc) /\
  (copy_streams encoder_config = true ->
   0 <= in_vstream_idx < nb_streams ifmt_ctx ->
   stream_entry enc in_vstream_idx = Some (out_vstream_idx_ enc)).
Proof.
  intros enc H. subst enc. unfold stream_entry.
  destruct (copy_streams encoder_config) eqn:Hc.
  2:{ rewrite init_without_copy_has_no_map by assumption.
      split; [discriminate | discriminate]. }
  destruct (init_success _ _ _ _ _ _ H Hc)
    as (vstream & cells & log & m' & octx & ectx & Hcells & Hmap & Henc & Hstreams &
        Hlog).
  apply map_streams_spec in Hmap; [|lia|simpl; lia].
  destruct Hmap as ((Hlen & _) & _ & Hall). simpl in Hlen.
  rewrite Henc. simpl.
  assert (Hin : forall st, streams ifmt_ctx !! Z.to_nat in_vstream_idx = Some st ->
            0 <= in_vstream_idx ->
            index_Z (ms_map m') in_vstream_idx = Some 0).
  { intros st Hst Hi. specialize (Hall _ _ Hst).
    replace (0 + Z.of_nat (Z.to_nat in_vstream_idx)) with in_vstream_idx in Hall by lia.
    unfold mapped_as in Hall. rewrite Z.eqb_refl in Hall. exact Hall. }
  split.
  - intros out Hout.
    apply index_Z_Some in Hout as [Hi Hout].
    assert (Hlt : (Z.to_nat in_vstream_idx < length (streams ifmt_ctx))%nat)
      by (apply lookup_lt_Some in Hout; lia).
    apply lookup_lt_is_Some_2 in Hlt as [st Hst].
    pose proof (Hin st Hst Hi) as H0.
    rewrite (index_Z_nonneg _ _ Hi) in H0. congruence.
  - intros _ [Hi Hlt]. unfold nb_streams in Hlt.
    assert (Hlt' : (Z.to_nat in_vstream_idx < length (streams ifmt_ctx))%nat) by lia.
    apply lookup_lt_is_Some_2 in Hlt' as [st Hst]. eauto.
Qed.

(** ** Frames without a pts *)

Section PtsFallback.

Context {W : Type} (env : Env W).
Variable enc : Encoder.

(** The fallback of [write_frame]: the frame it sends carries the frame's
    own pts when that is positive and [frame_idx] otherwise, converted or
    not. *)
Lemma write_frame_pts_fallback (fuel : nat) (frame : AVFrame) (frame_idx : Z) :
  emits (sends_with_pts (if pts frame <=? 0 then frame_idx else pts frame))
    (write_frame env fuel enc frame frame_idx).
Proof.
  unfold write_frame, packet_alloc, get_world, call_send_frame.
  set (t := if pts frame <=? 0 then frame_idx else pts frame).
  assert (Ht : pts (if pts frame <=? 0 then set_pts frame frame_idx else frame) = t)
    by (subst t; destruct (pts frame <=? 0); reflexivity).
  assert (Hdrain : forall r, emits (sends_with_pts t) (write_frame_drain env fuel enc r)).
  { intros r. eapply emits_weaken; [|apply emits_write_frame_drain].
    intros e He. destruct e; simpl in *; tauto. }
  apply emits_bind; [apply emits_deref|]. intros ectx.
  destruct (format (if pts frame <=? 0 then set_pts frame frame_idx else frame) =?
            ctx_pix_fmt ectx).
  - apply emits_bind; [apply emits_silent; reflexivity|]. intros ok.
    destruct (negb ok); [apply emits_ret|].
    apply emits_bind; [apply emits_call; intros; exact Ht|]. intros r.
    destruct (r <? 0); [apply emits_ret | apply Hdrain].
  - destruct (convert_avframe_pix_fmt env _ (ctx_pix_fmt ectx)) as [conv|];
      [|apply emits_ret].
    apply emits_bind; [apply emits_silent; reflexivity|]. intros ok.
    destruct (negb ok); [apply emits_ret|].
    apply emits_bind; [apply emits_call; intros; simpl; exact Ht|]. intros r.
    destruct (r <? 0); [apply emits_ret | apply Hdrain].
Qed.

(** What [process_frames] makes of it: the last argument of each of its
    [write_frame] calls is [vstream_idx], so a frame that comes without a
    pts is sent with pts [vstream_idx], whatever its place in the
    sequence. *)
Lemma process_frames_sends_vstream_idx (encoder_config : EncoderConfig)
    (ifmt_ctx : AVFormatContext) (vstream_idx : Z) (stream_map : option nat)
    (benchmark : bool) (fuel : nat) :
  emits (pts_or_vstream_idx vstream_idx)
    (process_frames env encoder_config ifmt_ctx enc vstream_idx stream_map
       benchmark fuel).
Proof.
  apply emits_process_frames_any.
  - intros e He. destruct e; simpl in *; tauto.
  - intros. exact I.
  - intros. exact I.
  - intros fuel' frame. eapply emits_weaken; [|apply write_frame_pts_fallback].
    intros e He. destruct e as [| | | | | | |[f|] r| | | | |]; simpl in *; try exact I.
    destruct (pts frame <=? 0) eqn:E; [right; exact He | left; lia].
  - intros fuel'. eapply emits_weaken; [|apply emits_flush_unsubmitted].
    intros e [He Hs]. destruct e as [| | | | | | |[f|] r| | | | |]; simpl in *;
      try exact I; try contradiction. discriminate Hs.
Qed.

End PtsFallback.

(** C1, where the code departs from it.  Ten frames with pts 0 go through
    [process_frames]; each [write_frame] call gets [vstream_idx] where a
    frame number is expected, so every frame is sent to the encoder, and
    every packet written, with pts [vstream_idx]: ten times 0 for video
    stream 0 and ten times 1 for video stream 1, never 0, 1, ..., 9. *)
Theorem frames_without_pts_get_vstream_idx :
  let run0 := sim_run 0 false (sim_world (ten_frames_without_pts 0) FilterPass None 0) in
  let run1 := sim_run 1 false (sim_world (ten_frames_without_pts 1) FilterPass None 0) in
  sent_pts (trace (final run0)) = repeat 0 10 /\
  written_pts 0 (trace (final run0)) = repeat 0 10 /\
  sent_pts (trace (final run1)) = repeat 1 10 /\
  written_pts 0 (trace (final run1)) = repeat 1 10 /\
  written_pts 0 (trace (final run0)) <> [0; 1; 2; 3; 4; 5; 6; 7; 8; 9] /\
  written_pts 0 (trace (final run1)) <> [0; 1; 2; 3; 4; 5; 6; 7; 8; 9].
Proof.
  vm_compute. repeat split; discriminate.
Qed.

Section Holds.

Context {W : Type} (env : Env W) (R : Rel W) (HR : Composes R).

Lemma holds_ret {A} (a : A) : holds R (ret a).
Proof. intros s. exact (composes_ret R HR _ a s). Qed.

Lemma holds_timeout {A} : holds R (timeout (A := A)).
Proof. intros s. exact (composes_timeout R HR _ s). Qed.

Lemma holds_bind {A B} (m : M W A) (k : A -> M W B) :
  holds R m -> (forall a, holds R (k a)) -> holds R (bind m k).
Proof.
  intros Hm Hk s. unfold bind. apply (composes_bind R HR); [apply Hm|].
  intros a s1 _. apply Hk.
Qed.

Lemma holds_get_world : holds R (get_world (W := W)).
Proof. intros s. exact (composes_ret R HR _ _ s). Qed.

Lemma holds_read_pause : holds R (read_pause env).
Proof. intros s. exact (composes_ret R HR _ _ s). Qed.

Lemma holds_packet_alloc : holds R (packet_alloc env).
Proof. intros s. exact (composes_ret R HR _ _ s). Qed.

End Holds.

Ltac holds_go HR :=
  repeat first
    [ apply (holds_ret _ HR)
    | apply (holds_timeout _ HR)
    | apply (holds_get_world _ HR)
    | apply (holds_read_pause _ _ HR)
    | apply (holds_packet_alloc _ _ HR)
    | solve [auto]
    | apply (holds_bind _ HR); [|intros]
    | match goal with
      | |- holds _ (if ?b then _ else _) => destruct b
      | |- holds _ (match ?x with _ => _ end) => destruct x
      end ].

Section LoopRules.

Context {W : Type} (env : Env W).

Variable encoder_config : EncoderConfig.
Variable ifmt_ctx : AVFormatContext.
Variable enc : Encoder.
Variable vstream_idx : Z.
Variable stream_map : option nat.
Variable benchmark : bool.

Variable R : Rel W.
Hypothesis HR : Composes R.

(** What the demuxer is known to deliver. *)
Variable delivered : AVPacket -> Prop.
Hypothesis H_delivered :
  forall w r p w', av_read_frame env w = (r, p, w') -> (r <? 0) = false -> delivered p.

Hypothesis H_abort : holds R (read_abort env).
Hypothesis H_sleep : holds R (sleep_ms env 100).
Hypothesis H_read : holds R (call_read_frame env).
Hypothesis H_send_packet : forall p, holds R (call_send_packet env p).
Hypothesis H_receive_step :
  forall fuel k,
    holds R k -> holds R (receive_step env enc vstream_idx benchmark fuel k).
Hypothesis H_passthrough :
  forall p, delivered p ->
    holds R (passthrough env encoder_config ifmt_ctx enc stream_map p).
Hypothesis H_flush_sequence :
  forall fuel, holds R (flush_sequence env enc vstream_idx fuel).
Hypothesis H_probe : forall total start, holds R (set_probe (W := W) total start).

Lemma holds_receive_loop (fuel : nat) :
  holds R (receive_loop env enc vstream_idx benchmark fuel).
Proof.
  induction fuel as [|fuel IH]; simpl; [holds_go HR|].
  pose proof (H_receive_step fuel _ IH). holds_go HR.
Qed.

Lemma holds_route_packet (fuel : nat) (packet : AVPacket) :
  delivered packet ->
  holds R (route_packet env encoder_config ifmt_ctx enc vstream_idx stream_map
             benchmark fuel packet).
Proof.
  intros Hp. unfold route_packet.
  pose proof (holds_receive_loop fuel). pose proof (H_passthrough packet Hp).
  holds_go HR.
Qed.

Lemma holds_read_loop (fuel : nat) :
  holds R (read_loop env encoder_config ifmt_ctx enc vstream_idx stream_map
             benchmark fuel).
Proof.
  induction fuel as [|fuel IH]; simpl; [holds_go HR|].
  apply (holds_bind _ HR); [exact H_abort|]. intros abort.
  destruct abort; [holds_go HR|].
  intros s. unfold bind. apply (composes_bind R HR); [apply H_read|].
  intros [r packet] s1 Hcall. destruct (r <? 0) eqn:Hr.
  { destruct (r =? AVERROR_EOF); exact (composes_ret R HR _ _ s1). }
  assert (Hp : delivered packet).
  { unfold call_read_frame, call in Hcall.
    destruct (av_read_frame env (world s)) as [[r' p'] w'] eqn:Hread.
    inversion Hcall; subst. simpl in Hr. eapply H_delivered; eauto. }
  pose proof (holds_route_packet fuel packet Hp).
  assert (Hb : holds R (bind
    (route_packet env encoder_config ifmt_ctx enc vstream_idx stream_map benchmark
       fuel packet)
    (fun c => match c with
              | Return r => ret (Return r)
              | Fallthrough =>
                  read_loop env encoder_config ifmt_ctx enc vstream_idx stream_map
                    benchmark fuel
              end))) by holds_go HR.
  exact (Hb s1).
Qed.

Lemma holds_process_frames (fuel : nat) :
  holds R
    (process_frames env encoder_config ifmt_ctx enc vstream_idx stream_map
       benchmark fuel).
Proof.
  unfold process_frames.
  pose proof (holds_read_loop fuel). pose proof (H_flush_sequence fuel).
  holds_go HR.
Qed.

End LoopRules.

Section StepRules.

Context {W : Type} (env : Env W).

Variable encoder_config : EncoderConfig.
Variable ifmt_ctx : AVFormatContext.
Variable enc : Encoder.
Variable vstream_idx : Z.
Variable stream_map : option nat.
Variable benchmark : bool.

Variable R : Rel W.
Hypothesis HR : Composes R.

Variable delivered : AVPacket -> Prop.
Hypothesis H_delivered :
  forall w r p w', av_read_frame env w = (r, p, w') -> (r <? 0) = false -> delivered p.

Hypothesis H_abort : holds R (read_abort env).
Hypothesis H_sleep : holds R (sleep_ms env 100).
Hypothesis H_read : holds R (call_read_frame env).
Hypothesis H_send_packet : forall p, holds R (call_send_packet env p).
Hypothesis H_receive_frame : holds R (call_receive_frame env).
Hypothesis H_filter_process : forall f, holds R (call_filter_process env f).
Hypothesis H_incr : holds R (incr_processed_frames (W := W)).
Hypothesis H_write_frame :
  forall fuel frame, holds R (write_frame env fuel enc frame vstream_idx).
Hypothesis H_passthrough :
  forall p, delivered p ->
    holds R (passthrough env encoder_config ifmt_ctx enc stream_map p).

Lemma holds_submit_unless_benchmark (fuel : nat) (frame : AVFrame) :
  holds R (submit_unless_benchmark env enc vstream_idx benchmark fuel frame).
Proof.
  unfold submit_unless_benchmark. pose proof (H_write_frame fuel). holds_go HR.
Qed.

Lemma holds_receive_step (fuel : nat) (k : M W Ctl) :
  holds R k -> holds R (receive_step env enc vstream_idx benchmark fuel k).
Proof.
  intros Hk. unfold receive_step.
  pose proof (holds_submit_unless_benchmark fuel). holds_go HR.
Qed.

Lemma holds_write_flushed (fuel : nat) (frames : list AVFrame) :
  holds R (write_flushed env enc vstream_idx fuel frames).
Proof.
  induction frames as [|f frames IH]; simpl; [holds_go HR|].
  pose proof (H_write_frame fuel). holds_go HR.
Qed.

Lemma holds_read_loop_of_calls (fuel : nat) :
  holds R (read_loop env encoder_config ifmt_ctx enc vstream_idx stream_map
             benchmark fuel).
Proof.
  apply (holds_read_loop env encoder_config ifmt_ctx enc vstream_idx stream_map
           benchmark R HR delivered); auto using holds_receive_step.
Qed.

Hypothesis H_filter_flush : holds R (call_filter_flush env).
Hypothesis H_flush : forall fuel, holds R (flush env fuel enc).

Lemma holds_flush_sequence (fuel : nat) :
  holds R (flush_sequence env enc vstream_idx fuel).
Proof.
  unfold flush_sequence.
  pose proof (holds_write_flushed fuel). pose proof (H_flush fuel). holds_go HR.
Qed.

Hypothesis H_probe : forall total start, holds R (set_probe (W := W) total start).

Lemma holds_process_frames_of_calls (fuel : nat) :
  holds R
    (process_frames env encoder_config ifmt_ctx enc vstream_idx stream_map
       benchmark fuel).
Proof.
  apply (holds_process_frames env encoder_config ifmt_ctx enc vstream_idx stream_map
           benchmark R HR delivered);
    auto using holds_receive_step, holds_flush_sequence.
Qed.

End StepRules.


(** ** Composing trace properties *)

Lemma adds_composes {W} (P : Event -> Prop) : Composes (adds (W := W) P).
Proof.
  split.
  - intros A a s. exists []. simpl. rewrite app_nil_r. split; [reflexivity | constructor].
  - intros A s. exists []. simpl. rewrite app_nil_r. split; [reflexivity | constructor].
  - intros A B s res k (evs1 & Ht1 & HP1) Hk.
    destruct res as [a s1|s1|s1]; simpl in *; try (exists evs1; split; assumption).
    destruct (Hk a s1 eq_refl) as (evs2 & Ht2 & HP2).
    exists (evs1 ++ evs2). split.
    + rewrite Ht2, Ht1, app_assoc. reflexivity.
    + apply Forall_app; auto.
Qed.

Section RunEmits.

Context {W : Type} (env : Env W).

Variable encoder_config : EncoderConfig.
Variable ifmt_ctx : AVFormatContext.
Variable enc : Encoder.
Variable vstream_idx : Z.
Variable stream_map : option nat.
Variable benchmark : bool.

Lemma emits_read_abort_when (P : Event -> Prop) :
  P EvAbortObserved -> emits P (read_abort env).
Proof.
  intros HP. unfold read_abort, get_world.
  assert (forall w : W, emits P (emit w EvAbortObserved))
    by (intros; apply emits_emit; exact HP).
  emits_go.
Qed.

Lemma emits_incr_silent (P : Event -> Prop) : emits P (incr_processed_frames (W := W)).
Proof.
  apply emits_silent. intros s. unfold incr_processed_frames.
  destruct (processed_frames (proc_ctx s) =? INT64_MAX); reflexivity.
Qed.

Lemma emits_write_frame_submit_side (fuel : nat) (frame : AVFrame) (frame_idx : Z) :
  emits submit_side (write_frame env fuel enc frame frame_idx).
Proof.
  unfold write_frame, packet_alloc, get_world, call_send_frame.
  assert (forall r, emits submit_side (write_frame_drain env fuel enc r)).
  { intros r. eapply emits_weaken; [|apply emits_write_frame_drain].
    intros e He. destruct e; simpl in *; tauto. }
  emits_go.
Qed.

(** The read loop flushes nothing. *)
Lemma emits_read_loop_loop_side (fuel : nat) :
  emits loop_side
    (read_loop env encoder_config ifmt_ctx enc vstream_idx stream_map benchmark fuel).
Proof.
  apply (holds_read_loop_of_calls env encoder_config ifmt_ctx enc vstream_idx stream_map
           benchmark (adds loop_side) (adds_composes loop_side) (fun _ => True)).
  - intros; exact I.
  - apply emits_read_abort_when. exact I.
  - apply emits_sleep_ms. exact I.
  - apply emits_call. intros; exact I.
  - intros p. apply emits_call. intros; exact I.
  - apply emits_call. intros; exact I.
  - intros f. apply emits_call. intros; exact I.
  - apply emits_incr_silent.
  - intros fuel' frame. eapply emits_weaken; [|apply emits_write_frame_submit_side].
    intros e He. destruct e as [| | | | | | |[f|] r| | | | |]; simpl in *; tauto.
  - intros p _. apply emits_passthrough.
    + intros p' r. exact I.
    + intros i out. exact I.
Qed.

End RunEmits.

(** ** The order of the two flushes *)

Lemma tally_flush_requests_submit_side (evs : list Event) :
  Forall submit_side evs -> Forall encode_side evs /\ tally flush_requests evs = 0.
Proof.
  induction 1 as [|e evs He _ [IH1 IH2]]; simpl; [split; [constructor | lia]|].
  destruct e as [| | | | | | |[f|] r| | | | |]; simpl in He; try contradiction;
    (split; [constructor; [exact I | assumption] | rewrite IH2; reflexivity]).
Qed.

Lemma drain_side_submit_side (e : Event) : drain_side e -> submit_side e.
Proof. destruct e; simpl; tauto. Qed.

Section FlushOrder.

Context {W : Type} (env : Env W).

Variable encoder_config : EncoderConfig.
Variable ifmt_ctx : AVFormatContext.
Variable enc : Encoder.
Variable vstream_idx : Z.
Variable stream_map : option nat.
Variable benchmark : bool.

Lemma emits_write_flushed_submit_side (fuel : nat) (frames : list AVFrame) :
  emits submit_side (write_flushed env enc vstream_idx fuel frames).
Proof.
  induction frames as [|f frames IH]; simpl; [emits_go|].
  pose proof (emits_write_frame_submit_side env enc fuel).
  pose proof (emits_incr_silent (W := W) submit_side).
  emits_go.
Qed.

(** [flush] asks the encoder to flush at most once, and has asked when
    it returns a status that is not negative. *)
Lemma flush_requests_once (fuel : nat) (s : St W) :
  exists evs,
    trace (final (flush env fuel enc s)) = trace s ++ evs /\
    Forall encode_side evs /\ tally flush_requests evs <= 1 /\
    (forall status s', flush env fuel enc s = Ok status s' -> 0 <= status ->
       tally flush_requests evs = 1).
Proof.
  unfold flush, packet_alloc, get_world, call_send_frame, call, bind, ret. simpl.
  destruct (av_packet_alloc_ok env (world s)); simpl.
  2:{ exists []. rewrite app_nil_r. simpl.
      split; [reflexivity|]. split; [constructor|]. split; [lia|].
      intros status s' H Hs. inversion H; subst. vm_compute in Hs. contradiction. }
  destruct (avcodec_send_frame env None (world s)) as [r w1]. simpl.
  destruct (r <? 0) eqn:Hr; simpl.
  { exists [EvSendFrame None r].
    split; [reflexivity|]. split; [repeat constructor|].
    split; [unfold flush_requests; simpl; lia | intros; reflexivity]. }
  match goal with
  | |- context [flush_drain env fuel enc ?s1] =>
      destruct (emits_flush_drain env enc fuel s1) as (evs & Ht & Hd)
  end.
  assert (Hs : Forall submit_side evs)
    by (eapply Forall_impl; [exact Hd | apply drain_side_submit_side]).
  destruct (tally_flush_requests_submit_side evs Hs) as [Henc H0].
  exists (EvSendFrame None r :: evs). split.
  - rewrite Ht. simpl. rewrite <- app_assoc. reflexivity.
  - split; [constructor; [exact I | exact Henc]|].
    simpl. rewrite H0. change (flush_requests (EvSendFrame None r)) with 1.
    split; [lia|]. intros; lia.
Qed.

Lemma flush_sequence_protocol (fuel : nat) :
  ends_as flush_protocol (flush_sequence env enc vstream_idx fuel).
Proof.
  intros s. unfold flush_sequence, call_filter_flush. rewrite bind_call.
  destruct (filter_flush env (world s)) as [[r frames] w1]. cbn [fst snd].
  set (s1 := mkSt w1 (trace s ++ [EvFilterFlush r frames]) (proc_ctx s) (heap s)).
  destruct (r <? 0) eqn:Hr.
  { exists [EvFilterFlush r frames]. split; [reflexivity|].
    exists r, frames, []. split; [reflexivity|]. split; [constructor|].
    split; [simpl; lia|].
    intros status s' H Hs. inversion H; subst. lia. }
  unfold bind.
  destruct (emits_write_flushed_submit_side fuel frames s1) as (evs1 & Ht1 & Hs1).
  destruct (tally_flush_requests_submit_side evs1 Hs1) as [Henc1 H01].
  destruct (write_flushed env enc vstream_idx fuel frames s1) as [[status|] s2|s2|s2]
    eqn:Hwf; simpl in Ht1.
  2:{ destruct (flush_requests_once fuel s2) as (evs2 & Ht2 & Henc2 & Hle & Hone).
      exists (EvFilterFlush r frames :: evs1 ++ evs2). split.
      - rewrite Ht2, Ht1. subst s1. simpl. rewrite <- !app_assoc. reflexivity.
      - exists r, frames, (evs1 ++ evs2). split; [reflexivity|].
        split; [apply Forall_app; auto|]. rewrite tally_app, H01.
        split; [lia|]. intros status s' H Hs. rewrite (Hone status s' H Hs). lia. }
  all: exists (EvFilterFlush r frames :: evs1); split;
    [simpl; rewrite Ht1; subst s1; simpl; rewrite <- app_assoc; reflexivity|].
  all: exists r, frames, evs1; split; [reflexivity|]; split; [exact Henc1|];
    split; [lia|]; intros st s' H Hs; try discriminate H.
  apply (write_flushed_ledger env enc vstream_idx) in Hwf. simpl in Hwf.
  inversion H; subst. lia.
Qed.

(** X1.  A run of [process_frames] is a stretch of read-loop calls, among
    which neither the filter nor the encoder is flushed, followed by
    nothing or by the flush sequence: the filter flush, then calls to
    the encoder and the muxer only, with at most one request to the
    encoder to flush.  When the run returns a status that is not negative
    the flush sequence is there and the encoder was asked to flush exactly
    once. *)
Theorem process_frames_flushes_last (fuel : nat) (s : St W) :
  let run :=
    process_frames env encoder_config ifmt_ctx enc vstream_idx stream_map
      benchmark fuel s in
  exists loop_evs flush_evs,
    new_events s run = loop_evs ++ flush_evs /\
    Forall loop_side loop_evs /\
    (flush_evs = [] \/ flush_protocol flush_evs run) /\
    (forall r s', run = Ok r s' -> 0 <= r -> flush_protocol flush_evs run).
Proof.
  intros run. subst run.
  assert (Hearly : forall (res : Result W Z) r s1,
            res = Ok r s1 -> trace s1 = trace s -> r < 0 ->
            exists loop_evs flush_evs,
              new_events s res = loop_evs ++ flush_evs /\
              Forall loop_side loop_evs /\
              (flush_evs = [] \/ flush_protocol flush_evs res) /\
              (forall r s', res = Ok r s' -> 0 <= r -> flush_protocol flush_evs res)).
  { intros res r s1 -> Ht Hr. exists [], []. split.
    - apply new_events_app. simpl. rewrite app_nil_r. exact Ht.
    - split; [constructor|]. split; [left; reflexivity|].
      intros r' s' H Hr'. inversion H; subst. lia. }
  rewrite process_frames_unfold.
  destruct (cap_isOpened env (world s)); simpl;
    [|eapply Hearly; [reflexivity | reflexivity | lia]].
  destruct (av_frame_alloc_ok env (world s)); simpl;
    [|eapply Hearly; [reflexivity | reflexivity | vm_compute; reflexivity]].
  destruct (av_packet_alloc_ok env (world s)); simpl;
    [|eapply Hearly; [reflexivity | reflexivity | vm_compute; reflexivity]].
  destruct (emits_read_loop_loop_side env encoder_config ifmt_ctx enc vstream_idx
              stream_map benchmark fuel (probed env s)) as (evs1 & Ht1 & Hl1).
  destruct (read_loop env encoder_config ifmt_ctx enc vstream_idx stream_map benchmark
              fuel (probed env s)) as [[status|] s2|s2|s2] eqn:Hloop; simpl in Ht1.
  2:{ destruct (flush_sequence_protocol fuel s2) as (evs2 & Ht2 & Hp2).
      exists evs1, evs2. split.
      - apply new_events_app. rewrite Ht2, Ht1, app_assoc. reflexivity.
      - split; [exact Hl1|]. split; [right; exact Hp2|]. intros; exact Hp2. }
  all: exists evs1, []; split;
    [apply new_events_app; rewrite app_nil_r; simpl; exact Ht1|].
  all: split; [exact Hl1|]; split; [left; reflexivity|].
  all: intros r s' H Hr; try discriminate H.
  apply (read_loop_ledger env encoder_config ifmt_ctx enc vstream_idx stream_map
           benchmark) in Hloop. simpl in Hloop.
  inversion H; subst. lia.
Qed.

End FlushOrder.

(** ** Properties of every event of a run *)

Section RunEvents.

Context {W : Type} (env : Env W).

Variable encoder_config : EncoderConfig.
Variable ifmt_ctx : AVFormatContext.
Variable enc : Encoder.
Variable vstream_idx : Z.
Variable stream_map : option nat.
Variable benchmark : bool.

(** A property of the calls of the control loop itself that also holds of
    what [write_frame], [flush] and the stream copy emit holds of every
    event of [process_frames]. *)
Lemma emits_process_frames_of (P : Event -> Prop) :
  P EvAbortObserved -> P (EvSleep 100) ->
  (forall r p, P (EvReadFrame r p)) ->
  (forall p r, P (EvSendPacket p r)) ->
  (forall r f, P (EvReceiveFrame r f)) ->
  (forall f r o, P (EvFilterProcess f r o)) ->
  (forall r l, P (EvFilterFlush r l)) ->
  (forall fuel frame, emits P (write_frame env fuel enc frame vstream_idx)) ->
  (forall fuel, emits P (flush env fuel enc)) ->
  (forall p, emits P (passthrough env encoder_config ifmt_ctx enc stream_map p)) ->
  forall fuel,
    emits P
      (process_frames env encoder_config ifmt_ctx enc vstream_idx stream_map
         benchmark fuel).
Proof.
  intros Habort Hsleep Hread Hsend Hrecv Hfilter Hff Hwf Hflush Hpass fuel.
  apply (holds_process_frames_of_calls env encoder_config ifmt_ctx enc vstream_idx
           stream_map benchmark (adds P) (adds_composes P) (fun _ => True)).
  - intros; exact I.
  - apply emits_read_abort_when. exact Habort.
  - apply emits_sleep_ms. exact Hsleep.
  - apply emits_call. intros; apply Hread.
  - intros p. apply emits_call. intros; apply Hsend.
  - apply emits_call. intros; apply Hrecv.
  - intros f. apply emits_call. intros; apply Hfilter.
  - apply emits_incr_silent.
  - exact Hwf.
  - intros p _. apply Hpass.
  - apply emits_call. intros; apply Hff.
  - exact Hflush.
  - intros total start. apply emits_silent. reflexivity.
Qed.

Lemma encode_side_pipeline_side (e : Event) : encode_side e -> pipeline_side e.
Proof. destruct e; simpl; tauto. Qed.

(** [process_frames] writes neither the header nor the trailer. *)
Lemma emits_process_frames_pipeline_side (fuel : nat) :
  emits pipeline_side
    (process_frames env encoder_config ifmt_ctx enc vstream_idx stream_map
       benchmark fuel).
Proof.
  apply emits_process_frames_of; try (intros; exact I).
  - intros. eapply emits_weaken; [apply encode_side_pipeline_side | apply emits_write_frame].
  - intros. eapply emits_weaken; [apply encode_side_pipeline_side | apply emits_flush].
  - intros p. apply emits_passthrough; intros; exact I.
Qed.

End RunEvents.

(** ** The header and the trailer *)

Section Container.

Context {W : Type} (env : Env W) (senv : SetupEnv) (ienv : InitEnv).

Lemma process_video_run_events (fuel : nat) (benchmark : bool)
    (encoder_config : EncoderConfig) (enc : Encoder) (stream_map : option nat)
    (s s' : St W) (r : Z) :
  process_video_run env senv fuel benchmark encoder_config enc stream_map s = Ok r s' ->
  exists mid,
    Forall pipeline_side mid /\
    ((r < 0 /\ trace s' = trace s ++ mid) \/
     (r = 0 /\ trace s' = trace s ++ mid ++ [EvWriteTrailer])).
Proof.
  intros H. unfold process_video_run, bind in H.
  destruct (emits_process_frames_pipeline_side env encoder_config (decoder_ifmt_ctx senv)
              enc (decoder_vstream_idx senv) stream_map benchmark fuel s)
    as (mid & Ht & Hmid).
  destruct (process_frames env encoder_config (decoder_ifmt_ctx senv) enc
              (decoder_vstream_idx senv) stream_map benchmark fuel s)
    as [r0 s1|s1|s1]; try discriminate H.
  simpl in Ht. exists mid. split; [exact Hmid|].
  destruct (r0 <? 0) eqn:Hr0.
  - inversion H; subst. left. split; [lia | exact Ht].
  - unfold get_world, emit, ret in H. simpl in H.
    inversion H; subst. right. split; [reflexivity|].
    simpl. rewrite Ht, app_assoc. reflexivity.
Qed.

(** The output dimensions are computed without a call and without a
    change of state. *)
Lemma output_dimensions_state (filter_config : FilterConfig) (dec_ctx : AVCodecContext)
    (s s0 : St W) (d : option (Z * Z)) :
  output_dimensions (W := W) filter_config dec_ctx s = Ok d s0 -> s0 = s.
Proof.
  unfold output_dimensions, mul_int, bind, ret, fault. intros H.
  destruct (filter_type filter_config); run_inv H; inversion H; reflexivity.
Qed.

(** Putting an array on the heap is no call either. *)
Lemma on_heap_state (array : option (list Z)) (s s0 : St W) (p : option nat) :
  on_heap array s = Ok p s0 ->
  world s0 = world s /\ trace s0 = trace s /\ proc_ctx s0 = proc_ctx s /\
  pointee s0 p = array /\
  forall q cells, pointee s q = Some cells -> pointee s0 q = Some cells.
Proof.
  unfold on_heap. intros H. destruct array as [cells|]; inversion H; subst; simpl.
  - repeat split; try reflexivity.
    + apply list_lookup_middle. reflexivity.
    + intros [a|] c Hc; [|discriminate Hc]. simpl in *.
      apply lookup_app_l_Some. exact Hc.
  - repeat split; try reflexivity. intros q c Hc. exact Hc.
Qed.

(** X2.  A status that [process_video] returns is 0 or negative.  It is 0
    exactly when the run wrote the header, with a status that is not
    negative, went through [process_frames] and wrote the trailer as the
    last thing it did.  When it is negative no trailer was written, and
    either nothing was called at all -- a setup step before the header
    failed -- or the header was written first. *)
Theorem process_video_writes_trailer_on_success (fuel : nat) (benchmark : bool)
    (hw_type : Z) (filter_config : FilterConfig) (encoder_config : EncoderConfig)
    (s s' : St W) (r : Z) :
  process_video env senv ienv fuel benchmark hw_type filter_config encoder_config s =
    Ok r s' ->
  let evs := new_events s (Ok r s' : Result W Z) in
  r <= 0 /\
  (r = 0 ->
   exists h mid,
     evs = EvWriteHeader h :: mid ++ [EvWriteTrailer] /\ 0 <= h /\
     Forall pipeline_side mid) /\
  (r < 0 ->
   ~ In EvWriteTrailer evs /\
   (evs = [] \/
    exists h mid, evs = EvWriteHeader h :: mid /\ Forall pipeline_side mid)).
Proof.
  intros H evs. subst evs.
  assert (Hearly : forall x, x < 0 -> Ok x s = Ok r s' ->
            r <= 0 /\
            (r = 0 ->
             exists h mid,
               new_events s (Ok r s' : Result W Z) =
                 EvWriteHeader h :: mid ++ [EvWriteTrailer] /\ 0 <= h /\
               Forall pipeline_side mid) /\
            (r < 0 ->
             ~ In EvWriteTrailer (new_events s (Ok r s' : Result W Z)) /\
             (new_events s (Ok r s' : Result W Z) = [] \/
              exists h mid,
                new_events s (Ok r s' : Result W Z) = EvWriteHeader h :: mid /\
                Forall pipeline_side mid))).
  { intros x Hx Heq. inversion Heq; subst.
    rewrite (new_events_app s' (Ok r s') []) by (rewrite app_nil_r; reflexivity).
    split; [lia|]. split; [lia|]. intros _. split; [intros []|]. left. reflexivity. }
  assert (Hnot : forall mid, Forall pipeline_side mid -> ~ In EvWriteTrailer mid).
  { intros mid Hmid Hin.
    exact (proj1 (List.Forall_forall _ _) Hmid _ Hin). }
  unfold process_video in H.
  destruct (negb (hw_type =? AV_HWDEVICE_TYPE_NONE) &&
            (av_hwdevice_ctx_create_ret senv <? 0)) eqn:Hhw.
  { apply andb_prop in Hhw as [_ Hhw]. eapply Hearly; [|exact H]. lia. }
  destruct (init_decoder_ret senv <? 0) eqn:Hdec.
  { eapply Hearly; [|exact H]. lia. }
  unfold bind at 1 in H.
  destruct (output_dimensions filter_config (decoder_dec_ctx senv) s)
    as [dims s0|s0|s0] eqn:Hdim; try discriminate H.
  apply output_dimensions_state in Hdim. subst s0.
  destruct dims as [[ow oh]|]; [|eapply Hearly; [|exact H]; lia].
  match type of H with
  | context [init ?a ?b ?c ?d ?e ?f] => set (res := init a b c d e f) in *
  end.
  destruct (init_ret res <? 0) eqn:Hinit.
  { eapply Hearly; [|exact H]. lia. }
  unfold bind at 1 in H.
  destruct (on_heap (get_stream_map (init_encoder res)) s) as [p s0|s0|s0] eqn:Hheap;
    try discriminate H.
  apply on_heap_state in Hheap as (Hw0 & Ht0 & _).
  unfold bind at 1 in H. unfold deref in H.
  destruct (get_format_context (init_encoder res)) as [octx|]; [|discriminate H].
  unfold ret at 1 in H.
  unfold bind at 1 2 in H. unfold get_world, emit in H. simpl in H.
  set (h := avformat_write_header_ret senv) in *.
  match type of H with
  | context [mkSt ?w ?t ?c ?hp] => set (s1 := mkSt w t c hp) in *
  end.
  assert (Ht1 : trace s1 = trace s ++ [EvWriteHeader h])
    by (subst s1; simpl; rewrite Ht0; reflexivity).
  clearbody s1.
  assert (Hafter : forall mid, Forall pipeline_side mid ->
            trace s' = trace s1 ++ mid -> r < 0 ->
            r <= 0 /\
            (r = 0 ->
             exists h mid,
               new_events s (Ok r s' : Result W Z) =
                 EvWriteHeader h :: mid ++ [EvWriteTrailer] /\ 0 <= h /\
               Forall pipeline_side mid) /\
            (r < 0 ->
             ~ In EvWriteTrailer (new_events s (Ok r s' : Result W Z)) /\
             (new_events s (Ok r s' : Result W Z) = [] \/
              exists h mid,
                new_events s (Ok r s' : Result W Z) = EvWriteHeader h :: mid /\
                Forall pipeline_side mid))).
  { intros mid Hmid Ht Hr.
    rewrite (new_events_app s (Ok r s') (EvWriteHeader h :: mid))
      by (simpl; rewrite Ht, Ht1, <- app_assoc; reflexivity).
    split; [lia|]. split; [lia|]. intros _. split.
    - intros [Hin | Hin]; [discriminate Hin | exact (Hnot mid Hmid Hin)].
    - right. exists h, mid. auto. }
  destruct (h <? 0) eqn:Hh.
  { inversion H; subst. apply (Hafter []); [constructor | |lia].
    rewrite app_nil_r. reflexivity. }
  destruct (negb (filter_created filter_config)).
  { inversion H; subst. apply (Hafter []); [constructor | |lia].
    rewrite app_nil_r. reflexivity. }
  destruct (filter_init_ret senv <? 0) eqn:Hfi.
  { inversion H; subst. apply (Hafter []); [constructor | |lia].
    rewrite app_nil_r. reflexivity. }
  apply process_video_run_events in H as (mid & Hmid & [[Hr Ht] | [Hr Ht]]).
  - apply (Hafter mid); assumption.
  - rewrite (new_events_app s (Ok r s') (EvWriteHeader h :: mid ++ [EvWriteTrailer]))
      by (simpl; rewrite Ht, Ht1, <- app_assoc; reflexivity).
    split; [lia|]. split; [|lia]. intros _. exists h, mid.
    split; [reflexivity|]. split; [lia | exact Hmid].
Qed.

End Container.

Lemma process_video_writes_trailer_on_success_witness :
  let s := sim_start (sim_world [packet_of 1 0; packet_of 1 1] FilterPass None 0) in
  let run :=
    process_video sim_env sim_senv sim_ienv 30 false AV_HWDEVICE_TYPE_NONE
      sim_filter_config (sim_config false) s in
  run = Ok 0 (final run) /\
  exists h mid,
    new_events s (Ok 0 (final run) : Result World Z) =
      EvWriteHeader h :: mid ++ [EvWriteTrailer] /\ 0 <= h /\
    Forall pipeline_side mid.
Proof.
  intros s run.
  assert (H : process_video sim_env sim_senv sim_ienv 30 false AV_HWDEVICE_TYPE_NONE
                sim_filter_config (sim_config false) s = Ok 0 (final run))
    by (vm_compute; reflexivity).
  split; [exact H|].
  exact (proj1 (proj2 (process_video_writes_trailer_on_success sim_env sim_senv
                         sim_ienv 30 false AV_HWDEVICE_TYPE_NONE sim_filter_config
                         (sim_config false) s (final run) 0 H)) eq_refl).
Defined.

(** ** What [write_frame] and [flush] return *)

Lemma drained_prefix (pre evs : list Event) (r : Z) :
  Forall quiet pre -> drained_or_failed evs r -> drained_or_failed (pre ++ evs) r.
Proof.
  intros Hpre (pre' & e & -> & Hq & He). exists (pre ++ pre'), e.
  rewrite app_assoc. split; [reflexivity|]. split; [apply Forall_app; auto | exact He].
Qed.

Lemma quiet_of_status (r : Z) (e : Event) :
  (r <? 0) = false ->
  match e with
  | EvSendFrame _ r' | EvMuxWrite _ r' | EvReceivePacket r' _ => r' = r
  | _ => True
  end -> quiet e.
Proof.
  intros Hr. unfold quiet. destruct e; simpl; try reflexivity; intros ->; rewrite Hr;
    try reflexivity.
  destruct (is_again_or_eof r); reflexivity.
Qed.

Section Outcome.

Context {W : Type} (env : Env W) (enc : Encoder).

Lemma receive_and_mux_drained (k : Z -> M W Z) :
  (forall r, 0 <= r -> ends_as returns_drained (k r)) ->
  ends_as returns_drained (receive_and_mux env enc k).
Proof.
  intros Hk s. unfold receive_and_mux. unfold_calls. simpl.
  destruct (avcodec_receive_packet env (world s)) as [[r p] w1]. simpl.
  destruct (is_again_or_eof r) eqn:Hae.
  { exists [EvReceivePacket r p]. split; [reflexivity|].
    intros r0 s' H. inversion H; subst. exists [], (EvReceivePacket r p).
    split; [reflexivity|]. split; [constructor|]. right. split; [reflexivity|]. eauto. }
  destruct (r <? 0) eqn:Hr.
  { exists [EvReceivePacket r p]. split; [reflexivity|].
    intros r0 s' H. inversion H; subst. exists [], (EvReceivePacket r0 p).
    split; [reflexivity|]. split; [constructor|]. left. simpl. rewrite Hae, Hr.
    reflexivity. }
  assert (Hq : quiet (EvReceivePacket r p)) by (apply (quiet_of_status r); auto).
  destruct (enc_ctx_ enc) as [ectx|]; simpl;
    [|exists [EvReceivePacket r p]; split; [reflexivity | intros ? ? H; discriminate H]].
  destruct (ofmt_ctx_ enc) as [octx|]; simpl;
    [|exists [EvReceivePacket r p]; split; [reflexivity | intros ? ? H; discriminate H]].
  destruct (index_Z (streams octx) (out_vstream_idx_ enc)) as [ostream|]; simpl;
    [|exists [EvReceivePacket r p]; split; [reflexivity | intros ? ? H; discriminate H]].
  match goal with
  | |- context [av_interleaved_write_frame env ?pkt ?w] =>
      set (pkt' := pkt); destruct (av_interleaved_write_frame env pkt' w) as [m w2]
  end.
  simpl. destruct (m <? 0) eqn:Hm.
  { exists [EvReceivePacket r p; EvMuxWrite pkt' m]. split.
    - simpl. rewrite <- app_assoc. reflexivity.
    - intros r0 s' H. inversion H; subst.
      exists [EvReceivePacket r p], (EvMuxWrite pkt' r0).
      split; [reflexivity|]. split; [repeat constructor; exact Hq|].
      left. simpl. rewrite Hm. reflexivity. }
  match goal with
  | |- context [k m ?s2] => destruct (Hk m ltac:(lia) s2) as (evs & Ht & Hrep)
  end.
  exists ([EvReceivePacket r p; EvMuxWrite pkt' m] ++ evs). split.
  - rewrite Ht. simpl. rewrite <- !app_assoc. reflexivity.
  - intros r0 s' H. apply drained_prefix; [|exact (Hrep r0 s' H)].
    repeat constructor; [exact Hq | apply (quiet_of_status m); auto].
Qed.

Lemma write_frame_drain_drained (fuel : nat) :
  forall r, 0 <= r -> ends_as returns_drained (write_frame_drain env fuel enc r).
Proof.
  induction fuel as [|fuel IH]; intros r Hr s; simpl;
    (destruct (r <? 0) eqn:E; [lia|]).
  - exists []. rewrite app_nil_r. split; [reflexivity | intros ? ? H; discriminate H].
  - apply receive_and_mux_drained. exact IH.
Qed.

Lemma flush_drain_drained (fuel : nat) :
  ends_as returns_drained (flush_drain env fuel enc).
Proof.
  induction fuel as [|fuel IH]; intros s; simpl.
  - exists []. rewrite app_nil_r. split; [reflexivity | intros ? ? H; discriminate H].
  - apply receive_and_mux_drained. intros _ _. exact IH.
Qed.

(** X3.  What [write_frame] does and returns.  It calls nothing, or it
    sends one frame -- carrying the frame's own pts when that is
    positive and [frame_idx] otherwise, converted or not -- and after
    that only receives packets and writes them.  When it returns, then
    with [AVERROR_EXTERNAL] or [AVERROR(ENOMEM)] if it called nothing;
    with the status of the call that failed, which is its last; or with 0
    after the encoder answered "try again" or "end of stream", never
    earlier. *)
Theorem write_frame_outcome (fuel : nat) (frame : AVFrame) (frame_idx : Z) (s : St W) :
  let run := write_frame env fuel enc frame frame_idx s in
  let evs := new_events s run in
  (evs = [] \/
   exists f status rest,
     evs = EvSendFrame (Some f) status :: rest /\
     pts f = (if pts frame <=? 0 then frame_idx else pts frame) /\
     Forall drain_side rest) /\
  (forall r s', run = Ok r s' ->
     (evs = [] /\ (r = AVERROR_EXTERNAL \/ r = AVERROR ENOMEM)) \/
     drained_or_failed evs r).
Proof.
  intros run evs. subst evs run.
  assert (Hnone : forall res : Result W Z,
            trace (final res) = trace s ->
            (forall r s', res = Ok r s' -> r = AVERROR_EXTERNAL \/ r = AVERROR ENOMEM) ->
            (new_events s res = [] \/
             exists f status rest,
               new_events s res = EvSendFrame (Some f) status :: rest /\
               pts f = (if pts frame <=? 0 then frame_idx else pts frame) /\
               Forall drain_side rest) /\
            (forall r s', res = Ok r s' ->
               (new_events s res = [] /\ (r = AVERROR_EXTERNAL \/ r = AVERROR ENOMEM)) \/
               drained_or_failed (new_events s res) r)).
  { intros res Ht Hres.
    rewrite (new_events_app s res []) by (rewrite app_nil_r; exact Ht).
    split; [left; reflexivity|]. intros r s' H. left. split; [reflexivity|]. eauto. }
  unfold write_frame. unfold_calls.
  destruct (enc_ctx_ enc) as [ectx|];
    [|apply Hnone; [reflexivity | intros ? ? H; discriminate H]].
  set (frame' := if pts frame <=? 0 then set_pts frame frame_idx else frame).
  assert (Hpts : pts frame' = (if pts frame <=? 0 then frame_idx else pts frame))
    by (subst frame'; destruct (pts frame <=? 0); reflexivity).
  match goal with
  | |- context [match ?c with Some _ => _ | None => _ end s] =>
      destruct c as [conv|] eqn:Hconv
  end; [|apply Hnone; [reflexivity | intros ? ? H; inversion H; auto]].
  simpl. destruct (av_packet_alloc_ok env (world s)); simpl;
    [|apply Hnone; [reflexivity | intros ? ? H; inversion H; auto]].
  assert (Hsent : pts (match conv with Some c => c | None => frame' end) =
                  (if pts frame <=? 0 then frame_idx else pts frame)).
  { destruct conv as [c|]; [|exact Hpts].
    destruct (format frame' =? ctx_pix_fmt ectx); [discriminate Hconv|].
    destruct (convert_avframe_pix_fmt env frame' (ctx_pix_fmt ectx));
      inversion Hconv; subst. simpl. exact Hpts. }
  match goal with
  | |- context [avcodec_send_frame env (Some ?f) ?w] =>
      set (sent := f) in *; destruct (avcodec_send_frame env (Some sent) w) as [r w1]
  end.
  simpl. destruct (r <? 0) eqn:Hr.
  - rewrite (new_events_app s _ [EvSendFrame (Some sent) r]) by reflexivity.
    split.
    + right. exists sent, r, []. split; [reflexivity|]. split; [exact Hsent | constructor].
    + intros r0 s' H. inversion H; subst. right.
      exists [], (EvSendFrame (Some sent) r0). split; [reflexivity|].
      split; [constructor|]. left. simpl. rewrite Hr. reflexivity.
  - match goal with
    | |- context [write_frame_drain env fuel enc r ?s1] =>
        destruct (write_frame_drain_drained fuel r ltac:(lia) s1) as (evs & Ht & Hrep);
        destruct (emits_write_frame_drain env enc fuel r s1) as (evs' & Ht' & Hd);
        rewrite (new_events_app s (write_frame_drain env fuel enc r s1)
                   (EvSendFrame (Some sent) r :: evs))
          by (rewrite Ht; simpl; rewrite <- app_assoc; reflexivity)
    end.
    assert (evs' = evs) by (rewrite Ht in Ht'; eapply app_inv_head; eauto).
    subst evs'. split.
    + right. exists sent, r, evs. auto.
    + intros r0 s' H. right.
      apply (drained_prefix [EvSendFrame (Some sent) r]); [|exact (Hrep r0 s' H)].
      repeat constructor. apply (quiet_of_status r); auto.
Qed.

(** X4.  What [flush] does and returns.  It calls nothing, or it sends
    the null frame first and after that only receives packets and writes
    them.  When it returns, then with [AVERROR(ENOMEM)] if it called
    nothing; with the status of the call that failed, which is its last;
    or with 0 after the encoder answered "try again" or "end of
    stream". *)
Theorem flush_outcome (fuel : nat) (s : St W) :
  let run := flush env fuel enc s in
  let evs := new_events s run in
  (evs = [] \/
   exists status rest, evs = EvSendFrame None status :: rest /\ Forall drain_side rest) /\
  (forall r s', run = Ok r s' ->
     (evs = [] /\ r = AVERROR ENOMEM) \/ drained_or_failed evs r).
Proof.
  intros run evs. subst evs run.
  unfold flush. unfold_calls. simpl.
  destruct (av_packet_alloc_ok env (world s)); simpl.
  2:{ rewrite (new_events_app s (Ok (AVERROR ENOMEM) s) [])
        by (rewrite app_nil_r; reflexivity).
      split; [left; reflexivity|]. intros r s' H. inversion H; subst. left. auto. }
  destruct (avcodec_send_frame env None (world s)) as [r w1]. simpl.
  destruct (r <? 0) eqn:Hr.
  - rewrite (new_events_app s _ [EvSendFrame None r]) by reflexivity.
    split.
    + right. exists r, []. split; [reflexivity | constructor].
    + intros r0 s' H. inversion H; subst. right.
      exists [], (EvSendFrame None r0). split; [reflexivity|].
      split; [constructor|]. left. simpl. rewrite Hr. reflexivity.
  - match goal with
    | |- context [flush_drain env fuel enc ?s1] =>
        destruct (flush_drain_drained fuel s1) as (evs & Ht & Hrep);
        destruct (emits_flush_drain env enc fuel s1) as (evs' & Ht' & Hd);
        rewrite (new_events_app s (flush_drain env fuel enc s1)
                   (EvSendFrame None r :: evs))
          by (rewrite Ht; simpl; rewrite <- app_assoc; reflexivity)
    end.
    assert (evs' = evs) by (rewrite Ht in Ht'; eapply app_inv_head; eauto).
    subst evs'. split.
    + right. exists r, evs. auto.
    + intros r0 s' H. right.
      apply (drained_prefix [EvSendFrame None r]); [|exact (Hrep r0 s' H)].
      repeat constructor. apply (quiet_of_status r); auto.
Qed.

End Outcome.

(** ** What a successful [init] leaves behind *)

(** The output video stream is stream 0 and carries the encoder's time
    base and frame rate; with stream copy the mapping loop then ran to
    its end over a map with one cell for each input stream. *)
Lemma init_success_video (ienv : InitEnv) (hw_ctx : bool) (ifmt_ctx : AVFormatContext)
    (dec_ctx : AVCodecContext) (encoder_config : EncoderConfig) (in_vstream_idx : Z) :
  init_ret (init ienv hw_ctx ifmt_ctx dec_ctx encoder_config in_vstream_idx) = 0 ->
  exists vpar ectx flags pb,
    let vstream :=
      mkStream 0 vpar (ctx_time_base ectx) (ctx_framerate ectx) (ctx_framerate ectx) in
    (if copy_streams encoder_config then
       exists cells log m',
         length cells = length (streams ifmt_ctx) /\
         map_streams ienv in_vstream_idx 0 (streams ifmt_ctx) 0
           (mkMapState (mkFormatContext [vstream] (output_format_flags ienv) false)
              cells log) = (0, m') /\
         init_encoder (init ienv hw_ctx ifmt_ctx dec_ctx encoder_config in_vstream_idx) =
           mkEncoder (Some (mkFormatContext (streams (ms_ofmt m')) flags pb)) (Some ectx) 0
             (Some (ms_map m'))
     else
       init_encoder (init ienv hw_ctx ifmt_ctx dec_ctx encoder_config in_vstream_idx) =
         mkEncoder (Some (mkFormatContext [vstream] flags pb)) (Some ectx) 0 None) /\
    ctx_width ectx = out_width encoder_config /\
    ctx_height ectx = out_height encoder_config /\
    ctx_pix_fmt ectx <> AV_PIX_FMT_NONE.
Proof.
  intros H. revert H. unfold init, av_malloc_array, avformat_new_stream.
  destruct (copy_streams encoder_config) eqn:Hc.
  all: repeat (cbv beta iota; destruct_inner_goal).
  all: cbn [init_ret init_error init_encoder init_log]; intros H.
  all: try (vm_compute in H; discriminate H).
  all: try lia.
  all: try match goal with
         | Ha : _ && (?r <? 0) = true |- _ =>
             apply andb_prop in Ha as [_ Ha]; lia
         end.
  all: try match goal with
       | Hn : negb (AVERROR ENOMEM =? 0) = false |- _ =>
           vm_compute in Hn; discriminate Hn
       end.
  all: try match goal with
       | Hm : map_streams _ _ _ _ _ _ = (?z0, ?m) |- _ =>
           assert (z0 = 0)
             by (match goal with
                 | Hz : negb (z0 =? 0) = false |- _ =>
                     destruct (z0 =? 0) eqn:E; [lia | discriminate Hz]
                 end);
           subst z0;
           unfold store_stream, nb_streams in Hm; simpl in Hm;
           eexists _, _, _, _; cbv zeta;
           split;
             [eexists _, _, m; (split; [|split]); cycle 2;
              [reflexivity | rewrite length_map, length_seq; reflexivity | exact Hm]|];
           split; [reflexivity|]; split; [reflexivity|];
           simpl; apply Z.eqb_neq; assumption
       end.
  all: unfold store_stream, nb_streams; simpl.
  all: match goal with
       | Hp : parameters_from_context _ ?e = (_, ?a) |- _ => exists a, e
       end.
  all: eexists _, _; split; [reflexivity|].
  all: split; [reflexivity|]; split; [reflexivity|].
  all: simpl; apply Z.eqb_neq; assumption.
Qed.

Lemma init_encoder_ready (ienv : InitEnv) (hw_ctx : bool) (ifmt_ctx : AVFormatContext)
    (dec_ctx : AVCodecContext) (encoder_config : EncoderConfig) (in_vstream_idx : Z) :
  init_ret (init ienv hw_ctx ifmt_ctx dec_ctx encoder_config in_vstream_idx) = 0 ->
  encoder_ready
    (init_encoder (init ienv hw_ctx ifmt_ctx dec_ctx encoder_config in_vstream_idx)).
Proof.
  intros H.
  destruct (init_success_video _ _ _ _ _ _ H) as (vpar & ectx & flags & pb & Henc & _).
  cbv zeta in Henc. destruct (copy_streams encoder_config).
  - destruct Henc as (cells & log & m' & Hcells & Hmap & ->).
    apply map_streams_spec in Hmap; [|lia|simpl; lia].
    destruct Hmap as ((_ & _ & [added Hadd] & _) & _). simpl in Hadd.
    exists ectx. eexists. eexists. split; [reflexivity|]. split; [reflexivity|].
    simpl. rewrite Hadd. reflexivity.
  - rewrite Henc. exists ectx. eexists. eexists. repeat split.
Qed.

(** The entries of the map that [init] built, stream by stream. *)
Lemma init_mapping (ienv : InitEnv) (hw_ctx : bool) (ifmt_ctx : AVFormatContext)
    (dec_ctx : AVCodecContext) (encoder_config : EncoderConfig) (in_vstream_idx : Z) :
  init_ret (init ienv hw_ctx ifmt_ctx dec_ctx encoder_config in_vstream_idx) = 0 ->
  copy_streams encoder_config = true ->
  exists octx ectx m',
    init_encoder (init ienv hw_ctx ifmt_ctx dec_ctx encoder_config in_vstream_idx) =
      mkEncoder (Some octx) (Some ectx) 0 (Some (ms_map m')) /\
    streams octx = streams (ms_ofmt m') /\
    length (ms_map m') = length (streams ifmt_ctx) /\
    (exists vstream, index_Z (streams octx) 0 = Some vstream) /\
    forall i st, index_Z (streams ifmt_ctx) i = Some st ->
      mapped_as in_vstream_idx 0 1 i st m'.
Proof.
  intros H Hc.
  destruct (init_success_video _ _ _ _ _ _ H) as (vpar & ectx & flags & pb & Henc & _).
  cbv zeta in Henc. rewrite Hc in Henc.
  destruct Henc as (cells & log & m' & Hcells & Hmap & ->).
  apply map_streams_spec in Hmap; [|lia|simpl; lia].
  destruct Hmap as ((Hlen & _ & [added Hadd] & _) & _ & Hall). simpl in Hlen, Hadd.
  eexists _, ectx, m'. split; [reflexivity|]. split; [reflexivity|].
  split; [congruence|]. split; [simpl; rewrite Hadd; eexists; reflexivity|].
  intros i st Hst. apply index_Z_Some in Hst as [Hi Hst].
  specialize (Hall _ _ Hst).
  replace (0 + Z.of_nat (Z.to_nat i)) with i in Hall by lia. exact Hall.
Qed.

Lemma init_map_covers (ienv : InitEnv) (hw_ctx : bool) (ifmt_ctx : AVFormatContext)
    (dec_ctx : AVCodecContext) (encoder_config : EncoderConfig) (in_vstream_idx : Z) :
  init_ret (init ienv hw_ctx ifmt_ctx dec_ctx encoder_config in_vstream_idx) = 0 ->
  copy_streams encoder_config = true ->
  map_covers ifmt_ctx
    (init_encoder (init ienv hw_ctx ifmt_ctx dec_ctx encoder_config in_vstream_idx)).
Proof.
  intros H Hc.
  destruct (init_mapping _ _ _ _ _ _ H Hc)
    as (octx & ectx & m' & -> & Hstreams & Hlen & [vstream Hv] & Hall).
  exists octx, (ms_map m'). split; [reflexivity|]. split; [reflexivity|].
  intros i st Hst. specialize (Hall i st Hst). unfold mapped_as in Hall.
  destruct (i =? in_vstream_idx).
  - exists 0. split; [exact Hall|]. intros _. eauto.
  - destruct (is_audio_or_subtitle (codec_type (codecpar st))).
    + destruct Hall as (o & ost & Hm & Ho & Hs & _). exists o. split; [exact Hm|].
      intros _. exists ost. rewrite Hstreams. exact Hs.
    + destruct Hall as [Hm _]. exists (-1). split; [exact Hm|]. lia.
Qed.

(** ** The heap during a run *)

Lemma keeps_heap_composes {W} : Composes (keeps_heap (W := W)).
Proof.
  split.
  - intros A a s. reflexivity.
  - intros A s. reflexivity.
  - intros A B s res k Hres Hk. unfold keeps_heap in *.
    destruct res as [a s1|s1|s1]; simpl in *; try assumption.
    rewrite (Hk a s1 eq_refl). exact Hres.
Qed.

Lemma provided_composes {W} (c : Prop) (R : Rel W) :
  Composes R -> Composes (provided c R).
Proof.
  intros HR. split.
  - intros A a s _. apply (composes_ret R HR).
  - intros A s _. apply (composes_timeout R HR).
  - intros A B s res k Hres Hk Hc. apply (composes_bind R HR); [exact (Hres Hc)|].
    intros a s1 E. exact (Hk a s1 E Hc).
Qed.

Lemma pointee_heap {W} (s s1 : St W) (p : option nat) :
  heap s1 = heap s -> pointee s1 p = pointee s p.
Proof. intros H. unfold pointee. rewrite H. reflexivity. Qed.

Lemma with_array_composes {W} (p : option nat) (Q : option (list Z) -> Rel W) :
  (forall a, Composes (Q a)) -> Composes (with_array p Q).
Proof.
  intros HQ. split.
  - intros A a s. split; [reflexivity | apply (composes_ret _ (HQ _))].
  - intros A s. split; [reflexivity | apply (composes_timeout _ (HQ _))].
  - intros A B s res k [Hh Hres] Hk. split.
    + destruct res as [a s1|s1|s1]; simpl in *; try assumption.
      rewrite (proj1 (Hk a s1 eq_refl)). exact Hh.
    + apply (composes_bind _ (HQ _)); [exact Hres|].
      intros a s1 E. subst res. simpl in Hh.
      rewrite <- (pointee_heap s s1 p Hh). exact (proj2 (Hk a s1 eq_refl)).
Qed.

(** A computation that leaves the heap alone, and does what [Q] allows
    whatever the array is, does what [Q] allows of the array behind
    [p]. *)
Lemma with_array_of {W A} (p : option nat) (Q : option (list Z) -> Rel W) (m : M W A) :
  holds keeps_heap m -> (forall a, holds (Q a) m) -> holds (with_array p Q) m.
Proof. intros Hh HQ s. split; [apply Hh | apply HQ]. Qed.

Section KeepsHeap.

Context {W : Type} (env : Env W).

Lemma keeps_heap_call {A} (f : W -> A * W) (ev : A -> Event) :
  holds keeps_heap (call f ev).
Proof. intros s. unfold keeps_heap, call. destruct (f (world s)); reflexivity. Qed.

Lemma keeps_heap_incr : holds keeps_heap (incr_processed_frames (W := W)).
Proof.
  intros s. unfold keeps_heap, incr_processed_frames.
  destruct (processed_frames (proc_ctx s) =? INT64_MAX); reflexivity.
Qed.

Ltac heap_go :=
  repeat first
    [ solve [auto]
    | solve [apply keeps_heap_call]
    | solve [apply keeps_heap_incr]
    | solve [intros ?; reflexivity]
    | apply (holds_bind _ keeps_heap_composes); [|intros]
    | match goal with
      | |- holds _ (deref ?p) => destruct p
      | |- holds _ (if ?b then _ else _) => destruct b
      | |- holds _ (match ?x with _ => _ end) => destruct x
      end ].

Lemma keeps_heap_read_abort : holds keeps_heap (read_abort env).
Proof. unfold read_abort. heap_go. Qed.

Lemma keeps_heap_sleep (ms : Z) : holds keeps_heap (sleep_ms env ms).
Proof. unfold sleep_ms. heap_go. Qed.

Variable enc : Encoder.

Lemma keeps_heap_receive_and_mux (k : Z -> M W Z) :
  (forall r, holds keeps_heap (k r)) -> holds keeps_heap (receive_and_mux env enc k).
Proof.
  intros Hk. unfold receive_and_mux, call_receive_packet, call_mux_write. heap_go.
Qed.

Lemma keeps_heap_write_frame_drain (fuel : nat) (r : Z) :
  holds keeps_heap (write_frame_drain env fuel enc r).
Proof.
  revert r. induction fuel as [|fuel IH]; intros r; simpl.
  - heap_go.
  - destruct (r <? 0); [heap_go|]. apply keeps_heap_receive_and_mux. exact IH.
Qed.

Lemma keeps_heap_flush_drain (fuel : nat) : holds keeps_heap (flush_drain env fuel enc).
Proof.
  induction fuel as [|fuel IH]; simpl.
  - heap_go.
  - apply keeps_heap_receive_and_mux. intros _. exact IH.
Qed.

Lemma keeps_heap_write_frame (fuel : nat) (frame : AVFrame) (frame_idx : Z) :
  holds keeps_heap (write_frame env fuel enc frame frame_idx).
Proof.
  unfold write_frame, packet_alloc, call_send_frame.
  pose proof (keeps_heap_write_frame_drain fuel). heap_go.
Qed.

Lemma keeps_heap_flush (fuel : nat) : holds keeps_heap (flush env fuel enc).
Proof.
  unfold flush, packet_alloc, call_send_frame.
  pose proof (keeps_heap_flush_drain fuel). heap_go.
Qed.

Variable encoder_config : EncoderConfig.
Variable ifmt_ctx : AVFormatContext.
Variable vstream_idx : Z.
Variable stream_map : option nat.
Variable benchmark : bool.

Lemma keeps_heap_read_stream_map (i : Z) :
  holds keeps_heap (read_stream_map (W := W) stream_map i).
Proof. unfold read_stream_map. heap_go. Qed.

Lemma keeps_heap_passthrough (packet : AVPacket) :
  holds keeps_heap (passthrough env encoder_config ifmt_ctx enc stream_map packet).
Proof.
  unfold passthrough, call_mux_write. pose proof keeps_heap_read_stream_map. heap_go.
Qed.

(** [process_frames] stores nothing on the heap: however it ends, the
    heap is as it was. *)
Lemma keeps_heap_process_frames (fuel : nat) :
  holds keeps_heap
    (process_frames env encoder_config ifmt_ctx enc vstream_idx stream_map benchmark
       fuel).
Proof.
  apply (holds_process_frames_of_calls env encoder_config ifmt_ctx enc vstream_idx
           stream_map benchmark keeps_heap keeps_heap_composes (fun _ => True)).
  - intros; exact I.
  - apply keeps_heap_read_abort.
  - apply keeps_heap_sleep.
  - apply keeps_heap_call.
  - intros p. apply keeps_heap_call.
  - apply keeps_heap_call.
  - intros f. apply keeps_heap_call.
  - apply keeps_heap_incr.
  - intros fuel' frame. apply keeps_heap_write_frame.
  - intros p _. apply keeps_heap_passthrough.
  - apply keeps_heap_call.
  - intros fuel'. apply keeps_heap_flush.
  - intros total start s. reflexivity.
Qed.

(** The same with a property of the events added that depends on the
    array behind [stream_map]: it is enough that the reads of the map
    and the stream copy have it. *)
Lemma with_array_process_frames (P : option (list Z) -> Event -> Prop) (fuel : nat) :
  (forall a e,
      match e with
      | EvMapLookup _ _ | EvMuxWrite _ _ | EvSendFrame _ _ | EvReceivePacket _ _ => False
      | _ => True
      end -> P a e) ->
  (forall a fuel frame, emits (P a) (write_frame env fuel enc frame vstream_idx)) ->
  (forall a fuel, emits (P a) (flush env fuel enc)) ->
  (forall packet,
      holds (with_array stream_map (fun a => adds (P a)))
        (passthrough env encoder_config ifmt_ctx enc stream_map packet)) ->
  holds (with_array stream_map (fun a => adds (P a)))
    (process_frames env encoder_config ifmt_ctx enc vstream_idx stream_map benchmark
       fuel).
Proof.
  intros Hctl Hwrite Hflush Hpass.
  assert (HR : Composes (with_array (W := W) stream_map (fun a => adds (P a))))
    by (apply with_array_composes; intros; apply adds_composes).
  apply (holds_process_frames_of_calls env encoder_config ifmt_ctx enc vstream_idx
           stream_map benchmark _ HR (fun _ => True)).
  - intros; exact I.
  - apply with_array_of; [apply keeps_heap_read_abort|]. intros a.
    apply emits_read_abort_when. apply Hctl. exact I.
  - apply with_array_of; [apply keeps_heap_sleep|]. intros a.
    apply emits_sleep_ms. apply Hctl. exact I.
  - apply with_array_of; [apply keeps_heap_call|]. intros a.
    apply emits_call. intros; apply Hctl; exact I.
  - intros p. apply with_array_of; [apply keeps_heap_call|]. intros a.
    apply emits_call. intros; apply Hctl; exact I.
  - apply with_array_of; [apply keeps_heap_call|]. intros a.
    apply emits_call. intros; apply Hctl; exact I.
  - intros f. apply with_array_of; [apply keeps_heap_call|]. intros a.
    apply emits_call. intros; apply Hctl; exact I.
  - apply with_array_of; [apply keeps_heap_incr|]. intros a. apply emits_incr_silent.
  - intros fuel' frame. apply with_array_of; [apply keeps_heap_write_frame|].
    intros a. apply Hwrite.
  - intros p _. apply Hpass.
  - apply with_array_of; [apply keeps_heap_call|]. intros a.
    apply emits_call. intros; apply Hctl; exact I.
  - intros fuel'. apply with_array_of; [apply keeps_heap_flush|]. intros a. apply Hflush.
  - intros total start. apply with_array_of; [intros s; reflexivity|]. intros a.
    apply emits_silent. reflexivity.
Qed.

End KeepsHeap.

(** ** The stream map during a run *)

Lemma index_Z_map {A B} (f : A -> B) (l : list A) (i : Z) :
  index_Z (map f l) i = option_map f (index_Z l i).
Proof.
  unfold index_Z. destruct (i <? 0); [reflexivity|].
  generalize (Z.to_nat i). induction l as [|x l IH]; intros [|n]; simpl; auto.
Qed.

(** The header write leaves the encoder object its stream map, its
    encoder context and the index of its video stream, and each output
    stream but for its time base. *)
Lemma after_header_members (senv : SetupEnv) (enc : Encoder) :
  stream_map_ (after_header senv enc) = stream_map_ enc /\
  enc_ctx_ (after_header senv enc) = enc_ctx_ enc /\
  out_vstream_idx_ (after_header senv enc) = out_vstream_idx_ enc /\
  forall o,
    output_stream (after_header senv enc) o =
    option_map (fun ost => set_time_base ost (muxer_time_base senv ost))
      (output_stream enc o).
Proof.
  unfold after_header, output_stream, get_format_context.
  destruct enc as [[octx|] ectx v m]; simpl.
  - repeat split. intros o. apply index_Z_map.
  - repeat split.
Qed.

Lemma encode_side_lookup_ok (a : option (list Z)) (e : Event) :
  encode_side e -> lookup_ok a e.
Proof. destruct e; simpl; tauto. Qed.

Section Lookups.

Context {W : Type} (env : Env W).

Variable encoder_config : EncoderConfig.
Variable ifmt_ctx : AVFormatContext.
Variable enc : Encoder.
Variable vstream_idx : Z.
Variable stream_map : option nat.
Variable benchmark : bool.

(** A read of the stream map finds what the array holds, and changes
    nothing in it. *)
Lemma lookups_read_stream_map (i : Z) :
  holds (with_array stream_map (fun a => adds (lookup_ok a)))
    (read_stream_map (W := W) stream_map i).
Proof.
  intros s. unfold with_array, adds, read_stream_map, get_state, get_world, emit, deref,
    bind, ret, fault.
  destruct (pointee s stream_map) as [m|] eqn:Hm; simpl.
  - destruct (index_Z m i) as [out|] eqn:Hi; simpl.
    + split; [reflexivity|]. exists [EvMapLookup i out]. split; [reflexivity|].
      repeat constructor. exists m. auto.
    + split; [reflexivity|]. exists []. rewrite app_nil_r.
      split; [reflexivity | constructor].
  - split; [reflexivity|]. exists []. rewrite app_nil_r.
    split; [reflexivity | constructor].
Qed.

Lemma lookups_passthrough (packet : AVPacket) :
  holds (with_array stream_map (fun a => adds (lookup_ok a)))
    (passthrough env encoder_config ifmt_ctx enc stream_map packet).
Proof.
  assert (HR : Composes (with_array (W := W) stream_map (fun a => adds (lookup_ok a))))
    by (apply with_array_composes; intros; apply adds_composes).
  pose proof lookups_read_stream_map as Hread.
  assert (Hmux : forall p,
             holds (with_array stream_map (fun a => adds (lookup_ok a)))
               (call_mux_write env p)).
  { intros p. apply with_array_of; [apply keeps_heap_call|]. intros a.
    apply emits_call. intros; exact I. }
  assert (Hfault : forall A,
             holds (with_array stream_map (fun a => adds (lookup_ok a)))
               (fault (W := W) (A := A))).
  { intros A. apply with_array_of; [intros s; reflexivity|]. intros a.
    apply emits_silent. reflexivity. }
  unfold passthrough, deref. holds_go HR.
Qed.

(** However [process_frames] ends, the heap is as it found it, and each
    read of the stream map it recorded found what the array behind
    [stream_map] held when it started. *)
Lemma lookups_process_frames (fuel : nat) :
  holds (with_array stream_map (fun a => adds (lookup_ok a)))
    (process_frames env encoder_config ifmt_ctx enc vstream_idx stream_map benchmark
       fuel).
Proof.
  apply with_array_process_frames.
  - intros a e He. destruct e; simpl in *; tauto.
  - intros a fuel' frame. eapply emits_weaken; [|apply emits_write_frame].
    apply encode_side_lookup_ok.
  - intros a fuel'. eapply emits_weaken; [|apply emits_flush].
    apply encode_side_lookup_ok.
  - apply lookups_passthrough.
Qed.

End Lookups.

Lemma lookups_process_video_run {W} (env : Env W) (senv : SetupEnv) (fuel : nat)
    (benchmark : bool) (encoder_config : EncoderConfig) (enc : Encoder)
    (stream_map : option nat) :
  holds (with_array stream_map (fun a => adds (lookup_ok a)))
    (process_video_run env senv fuel benchmark encoder_config enc stream_map).
Proof.
  assert (HR : Composes (with_array (W := W) stream_map (fun a => adds (lookup_ok a))))
    by (apply with_array_composes; intros; apply adds_composes).
  pose proof (lookups_process_frames env encoder_config (decoder_ifmt_ctx senv) enc
                (decoder_vstream_idx senv) stream_map benchmark fuel).
  assert (forall w : W,
             holds (with_array stream_map (fun a => adds (lookup_ok a)))
               (emit w EvWriteTrailer)).
  { intros w. apply with_array_of; [intros s; reflexivity|]. intros a.
    apply emits_emit. exact I. }
  unfold process_video_run. holds_go HR.
Qed.

(** C4, as the code has it.  With stream copy enabled and the designated
    video stream among the streams of the input, after a successful
    [init]: the entry of the stream map for the video stream is the index
    of the output video stream; every input stream has an entry, and the
    entry is one that [init] wrote -- the output video stream for the
    video stream, an output stream other than that for an audio or
    subtitle stream, -1 for any other -- whatever the allocator had left
    in the array.  The run that is handed a pointer to this array stores
    nothing in it: however the run ends, the array behind the pointer is
    as [init] built it, every read of the map that the run made found the
    entry [init] wrote, and so two reads of the same index agree. *)
Theorem stream_map_fixed_for_run {W} (env : Env W) (senv : SetupEnv) (ienv : InitEnv)
    (hw_ctx : bool) (encoder_config : EncoderConfig) (fuel : nat) (benchmark : bool)
    (stream_map : option nat) (s : St W) :
  let res :=
    init ienv hw_ctx (decoder_ifmt_ctx senv) (decoder_dec_ctx senv) encoder_config
      (decoder_vstream_idx senv) in
  let built := init_encoder res in
  let run :=
    process_video_run env senv fuel benchmark encoder_config (after_header senv built)
      stream_map s in
  init_ret res = 0 ->
  copy_streams encoder_config = true ->
  0 <= decoder_vstream_idx senv < nb_streams (decoder_ifmt_ctx senv) ->
  pointee s stream_map = get_stream_map built ->
  stream_entry built (decoder_vstream_idx senv) =
    Some (get_output_video_stream_index built) /\
  (forall i st,
      index_Z (streams (decoder_ifmt_ctx senv)) i = Some st ->
      exists out,
        stream_entry built i = Some out /\
        established (decoder_vstream_idx senv) (get_output_video_stream_index built)
          i st out) /\
  pointee (final run) stream_map = get_stream_map built /\
  (forall i out, In (EvMapLookup i out) (new_events s run) ->
     stream_entry built i = Some out) /\
  (forall i out1 out2,
      In (EvMapLookup i out1) (new_events s run) ->
      In (EvMapLookup i out2) (new_events s run) -> out1 = out2).
Proof.
  intros res built run Hinit Hc Hrange Hp.
  destruct (lookups_process_video_run env senv fuel benchmark encoder_config
              (after_header senv built) stream_map s) as [Hheap (evs & Ht & Hevs)].
  fold run in Hheap, Ht. rewrite Hp in Hevs.
  assert (Hread : forall i out, In (EvMapLookup i out) (new_events s run) ->
            stream_entry built i = Some out).
  { intros i out Hin. rewrite (new_events_app _ _ _ Ht) in Hin.
    pose proof (proj1 (List.Forall_forall _ _) Hevs _ Hin) as (m & Hm & Hi).
    unfold stream_entry. unfold get_stream_map in Hm. rewrite Hm. exact Hi. }
  split; [|split; [|split; [|split]]].
  - apply (init_maps_video_stream _ _ _ _ _ _ Hinit); assumption.
  - intros i st Hst.
    destruct (init_mapping _ _ _ _ _ _ Hinit Hc)
      as (octx & ectx & m' & Henc & _ & _ & _ & Hall).
    specialize (Hall i st Hst). subst built res.
    unfold stream_entry, get_output_video_stream_index, established.
    rewrite Henc. cbn [stream_map_ out_vstream_idx_].
    unfold mapped_as in Hall. destruct (i =? decoder_vstream_idx senv).
    + exists 0. split; [exact Hall | reflexivity].
    + destruct (is_audio_or_subtitle (codec_type (codecpar st))).
      * destruct Hall as (o & ost & Hm & Ho & _). exists o. split; [exact Hm | lia].
      * destruct Hall as [Hm _]. exists (-1). split; [exact Hm | reflexivity].
  - rewrite (pointee_heap s (final run) stream_map Hheap). exact Hp.
  - exact Hread.
  - intros i out1 out2 H1 H2. apply Hread in H1, H2. congruence.
Qed.

Lemma stream_map_fixed_for_run_witness :
  let res := init sim_ienv false sim_ifmt_ctx sim_dec_ctx (sim_config true) 1 in
  let built := init_encoder res in
  let s :=
    final (on_heap (get_stream_map built)
             (sim_start (sim_world [packet_of 0 5; packet_of 2 6; packet_of 1 0;
                                    packet_of 0 7] FilterPass None 0))) in
  let run :=
    process_video_run sim_env sim_senv 20 false (sim_config true)
      (after_header sim_senv built) (Some 0%nat) s in
  stream_entry built 1 = Some 0 /\
  pointee (final run) (Some 0%nat) = Some [1; 0; -1] /\
  (forall i out, In (EvMapLookup i out) (new_events s run) ->
     stream_entry built i = Some out).
Proof.
  intros res built s run.
  assert (Hinit : init_ret res = 0) by reflexivity.
  assert (Hrange : 0 <= decoder_vstream_idx sim_senv < nb_streams (decoder_ifmt_ctx sim_senv))
    by (vm_compute; split; [discriminate | reflexivity]).
  assert (Hp : pointee s (Some 0%nat) = get_stream_map built) by reflexivity.
  pose proof (stream_map_fixed_for_run sim_env sim_senv sim_ienv false (sim_config true)
                20 false (Some 0%nat) s Hinit eq_refl Hrange Hp)
    as (Hentry & _ & Hkept & Hread & _).
  split; [exact Hentry|]. split; [exact Hkept | exact Hread].
Defined.

(** C4, as stated, fails for a run without stream copy: [init] succeeds
    and [process_video] returns 0, but [init] has built no stream map --
    the pointer it leaves is null and the run puts no array on the heap --
    so the video stream has no entry that could map it to the output
    video stream. *)
Lemma no_stream_map_without_copy :
  let res :=
    init sim_ienv false sim_ifmt_ctx sim_dec_ctx
      (with_output_size (sim_config false) 640 480) 1 in
  let run :=
    process_video sim_env sim_senv sim_ienv 30 false AV_HWDEVICE_TYPE_NONE
      sim_filter_config (sim_config false)
      (sim_start (sim_world [packet_of 1 0; packet_of 0 5] FilterPass None 0)) in
  init_ret res = 0 /\
  (exists s', run = Ok 0 s') /\
  get_stream_map (init_encoder res) = None /\
  stream_entry (init_encoder res) 1 = None /\
  stream_entry (init_encoder res) 1 <>
    Some (get_output_video_stream_index (init_encoder res)) /\
  heap (final run) = [].
Proof.
  vm_compute. split; [reflexivity|]. split; [eexists; reflexivity|].
  split; [reflexivity|]. split; [reflexivity|]. split; [discriminate | reflexivity].
Qed.

(** ** Packets of the other streams *)

Section StreamCopy.

Context {W : Type} (env : Env W) (ienv : InitEnv) (senv : SetupEnv).

Variable hw_ctx : bool.
Variable ifmt_ctx : AVFormatContext.
Variable dec_ctx : AVCodecContext.
Variable encoder_config : EncoderConfig.
Variable in_vstream_idx : Z.
Variable benchmark : bool.

(** X5.  After a successful [init] with stream copy and the header
    write, what the control loop does with a packet of an input stream
    other than the video stream.  A packet of an audio or subtitle stream
    is written to the muxer once, tagged with the output stream [init]
    created for that stream (index 1 or more), with its timestamps
    rescaled from the input stream's time base to the time base that
    output stream has now: [init] had given it the input's, and the
    header write has put the muxer's in its place.  A failed write ends
    the run with the write's status.  A packet of a stream of any other
    type is dropped: the map is read once and the muxer is not called. *)
Theorem other_stream_packet_is_copied_or_dropped (fuel : nat) (packet : AVPacket)
    (st : AVStream) (stream_map : option nat) (s : St W) :
  let res := init ienv hw_ctx ifmt_ctx dec_ctx encoder_config in_vstream_idx in
  let built := init_encoder res in
  let i := stream_index packet in
  let run :=
    route_packet env encoder_config ifmt_ctx (after_header senv built) in_vstream_idx
      stream_map benchmark fuel packet s in
  init_ret res = 0 ->
  copy_streams encoder_config = true ->
  pointee s stream_map = get_stream_map built ->
  i <> in_vstream_idx ->
  index_Z (streams ifmt_ctx) i = Some st ->
  if is_audio_or_subtitle (codec_type (codecpar st)) then
    exists o ost,
      stream_entry built i = Some o /\ 1 <= o /\
      output_stream built o = Some ost /\ time_base ost = time_base st /\
      let out_packet :=
        set_stream_index
          (av_packet_rescale_ts env packet (time_base st) (muxer_time_base senv ost))
          o in
      let written := av_interleaved_write_frame env out_packet (world s) in
      run =
      Ok (if fst written <? 0 then Return (fst written) else Fallthrough)
        (mkSt (snd written)
           (trace s ++ [EvMapLookup i o; EvMapLookup i o;
                        EvMuxWrite out_packet (fst written)])
           (proc_ctx s) (heap s))
  else
    stream_entry built i = Some (-1) /\
    run =
    Ok Fallthrough
      (mkSt (world s) (trace s ++ [EvMapLookup i (-1)]) (proc_ctx s) (heap s)).
Proof.
  intros res built i run H Hc Hp Hne Hst. subst run i.
  destruct (init_mapping _ _ _ _ _ _ H Hc)
    as (octx & ectx & m' & Henc & Hstreams & Hlen & _ & Hall).
  fold res in Henc. fold built in Henc.
  specialize (Hall _ st Hst). unfold mapped_as in Hall.
  destruct (stream_index packet =? in_vstream_idx) eqn:Ei; [lia|].
  destruct (after_header_members senv built) as (_ & _ & _ & Hafter).
  assert (Hmap : stream_map_ built = Some (ms_map m')) by (rewrite Henc; reflexivity).
  assert (Hofmt : forall o, output_stream built o = index_Z (streams (ms_ofmt m')) o).
  { intros o. unfold output_stream. rewrite Henc. cbn [ofmt_ctx_]. rewrite Hstreams.
    reflexivity. }
  unfold get_stream_map in Hp. rewrite Hmap in Hp. clear Henc.
  unfold stream_entry. rewrite Hmap.
  unfold route_packet, passthrough. rewrite Ei, Hc.
  unfold read_stream_map, call_mux_write, call, get_state, get_world, emit, deref, bind,
    ret.
  cbv beta iota. rewrite Hp. cbv beta iota.
  destruct (is_audio_or_subtitle (codec_type (codecpar st))).
  - destruct Hall as (o & ost & Hm & Ho & Hs & _ & _ & Htb).
    exists o, ost. split; [exact Hm|]. split; [lia|].
    split; [rewrite Hofmt; exact Hs|]. split; [exact Htb|]. cbv zeta.
    specialize (Hafter o). rewrite Hofmt, Hs in Hafter. simpl in Hafter.
    unfold output_stream in Hafter.
    rewrite Hm. cbv beta iota.
    destruct (o >=? 0) eqn:Eo; [|lia].
    rewrite Hst. cbv beta iota.
    match goal with
    | |- context [pointee ?s1 stream_map] =>
        replace (pointee s1 stream_map) with (Some (ms_map m')) by (symmetry; exact Hp)
    end.
    cbv beta iota. rewrite Hm. cbv beta iota.
    destruct (ofmt_ctx_ (after_header senv built)) as [octx'|]; [|discriminate Hafter].
    cbv beta iota. cbn [trace world proc_ctx heap]. rewrite Hafter. cbv beta iota.
    cbn [time_base set_time_base trace world proc_ctx heap].
    destruct (av_interleaved_write_frame env _ (world s)) as [r w'].
    simpl. rewrite <- !app_assoc. simpl.
    destruct (r <? 0); reflexivity.
  - destruct Hall as [Hm _]. split; [exact Hm|].
    rewrite Hm. reflexivity.
Qed.

(** X6.  A packet whose stream index the input did not announce when
    [init] ran -- negative, or the number of streams or more -- and that
    is not taken for a video packet makes the control loop read outside
    the stream map: the array has one cell for each stream there was. *)
Theorem unannounced_stream_packet_reads_outside_map (fuel : nat) (packet : AVPacket)
    (enc : Encoder) (stream_map : option nat) (s : St W) :
  let res := init ienv hw_ctx ifmt_ctx dec_ctx encoder_config in_vstream_idx in
  let built := init_encoder res in
  init_ret res = 0 ->
  copy_streams encoder_config = true ->
  pointee s stream_map = get_stream_map built ->
  stream_index packet <> in_vstream_idx ->
  ~ (0 <= stream_index packet < nb_streams ifmt_ctx) ->
  stream_entry built (stream_index packet) = None /\
  route_packet env encoder_config ifmt_ctx enc in_vstream_idx stream_map benchmark fuel
    packet s = Fault s.
Proof.
  intros res built H Hc Hp Hne Hout. subst built res.
  destruct (init_mapping _ _ _ _ _ _ H Hc)
    as (octx & ectx & m' & Henc & Hstreams & Hlen & _ & Hall).
  rewrite Henc in *. unfold get_stream_map in Hp. cbn [stream_map_] in Hp.
  assert (Hnone : index_Z (ms_map m') (stream_index packet) = None).
  { unfold index_Z. destruct (stream_index packet <? 0) eqn:E; [reflexivity|].
    apply lookup_ge_None_2. unfold nb_streams in Hout. lia. }
  unfold stream_entry. cbn [stream_map_]. split; [exact Hnone|].
  unfold route_packet, passthrough.
  destruct (stream_index packet =? in_vstream_idx) eqn:Ei; [lia|].
  rewrite Hc. unfold read_stream_map, get_state, deref, bind, ret, fault.
  cbv beta iota. rewrite Hp. cbv beta iota. rewrite Hnone. reflexivity.
Qed.

End StreamCopy.

(** ** No access through a null pointer or outside an array *)

Lemma overflow_only_composes {W} : Composes (overflow_only (W := W)).
Proof.
  split.
  - intros A a s s' H. discriminate H.
  - intros A s s' H. discriminate H.
  - intros A B s res k Hres Hk s' H.
    destruct res as [a s1|s1|s1]; [|discriminate H|].
    + exact (Hk a s1 eq_refl s' H).
    + apply Hres. inversion H; reflexivity.
Qed.

Lemma overflow_only_call {W A} (f : W -> A * W) (ev : A -> Event) :
  holds overflow_only (call f ev).
Proof. intros s s' H. unfold call in H. destruct (f (world s)); discriminate H. Qed.

Lemma overflow_only_returns {W A} (m : M W A) :
  (forall s, exists a s1, m s = Ok a s1) -> holds overflow_only m.
Proof.
  intros Hm s s' H. destruct (Hm s) as (a & s1 & Ha). rewrite Ha in H. discriminate H.
Qed.

Lemma sim_env_of_delivers (ifmt_ctx : AVFormatContext) :
  forall w r p w',
    av_read_frame (sim_env_of ifmt_ctx) w = (r, p, w') -> 0 <= r ->
    0 <= stream_index p < nb_streams ifmt_ctx.
Proof.
  intros w r p w' H Hr. simpl in H. unfold sim_read_frame_of, sim_read_frame in H.
  destruct (w_input w) as [|q rest].
  - destruct ((0 <=? stream_index no_packet) &&
              (stream_index no_packet <? nb_streams ifmt_ctx));
      inversion H; subst; vm_compute in Hr; contradiction.
  - destruct ((0 <=? stream_index q) && (stream_index q <? nb_streams ifmt_ctx)) eqn:E;
      inversion H; subst; [|vm_compute in Hr; contradiction].
    apply andb_prop in E as [E1 E2]. lia.
Qed.

Section MemorySafety.

Context {W : Type} (env : Env W).

Variable encoder_config : EncoderConfig.
Variable ifmt_ctx : AVFormatContext.
Variable enc : Encoder.
Variable vstream_idx : Z.
Variable benchmark : bool.

Hypothesis Hready : encoder_ready enc.

Lemma overflow_only_receive_and_mux (k : Z -> M W Z) :
  (forall r, holds overflow_only (k r)) ->
  holds overflow_only (receive_and_mux env enc k).
Proof.
  intros Hk s s' H. destruct Hready as (ectx & octx & ostream & He & Ho & Hs).
  unfold receive_and_mux, call_receive_packet, call_mux_write, call, deref, bind, ret
    in H.
  rewrite He, Ho in H. cbv beta iota in H. rewrite Hs in H.
  run_inv H. eapply Hk; eauto.
Qed.

Lemma overflow_only_write_frame_drain (fuel : nat) (r : Z) :
  holds overflow_only (write_frame_drain env fuel enc r).
Proof.
  revert r. induction fuel as [|fuel IH]; intros r; simpl.
  - destruct (r <? 0); intros s s' H; discriminate H.
  - destruct (r <? 0); [intros s s' H; discriminate H|].
    apply overflow_only_receive_and_mux. exact IH.
Qed.

Lemma overflow_only_flush_drain (fuel : nat) :
  holds overflow_only (flush_drain env fuel enc).
Proof.
  induction fuel as [|fuel IH]; simpl.
  - intros s s' H; discriminate H.
  - apply overflow_only_receive_and_mux. intros _. exact IH.
Qed.

Lemma overflow_only_write_frame (fuel : nat) (frame : AVFrame) (frame_idx : Z) :
  holds overflow_only (write_frame env fuel enc frame frame_idx).
Proof.
  intros s s' H. destruct Hready as (ectx & octx & ostream & He & Ho & Hs).
  unfold write_frame, packet_alloc, get_world, call_send_frame, call, deref, bind, ret
    in H.
  rewrite He in H. run_inv H.
  all: eapply overflow_only_write_frame_drain; eauto.
Qed.

Lemma overflow_only_flush (fuel : nat) : holds overflow_only (flush env fuel enc).
Proof.
  intros s s' H.
  unfold flush, packet_alloc, get_world, call_send_frame, call, bind, ret in H.
  run_inv H. eapply overflow_only_flush_drain; eauto.
Qed.

Variable stream_map : option nat.

(** The stream copy reads the map and the two stream arrays in range
    when the packet belongs to a stream of the input and the pointer
    points to the encoder's map. *)
Lemma in_bounds_passthrough (packet : AVPacket) :
  (copy_streams encoder_config = true ->
   map_covers ifmt_ctx enc /\
   exists st, index_Z (streams ifmt_ctx) (stream_index packet) = Some st) ->
  holds (with_array stream_map (fun a => provided (a = stream_map_ enc) overflow_only))
    (passthrough env encoder_config ifmt_ctx enc stream_map packet).
Proof.
  intros Hcov s. split; [apply keeps_heap_passthrough|]. intros Ha s' H.
  unfold passthrough in H.
  destruct (copy_streams encoder_config); [|discriminate H].
  destruct (Hcov eq_refl) as [(octx & m & Ho & Hm & Hall) [st Hst]].
  destruct (Hall _ _ Hst) as (out & Hout & Hos).
  rewrite Hm in Ha. unfold pointee in Ha.
  unfold read_stream_map, call_mux_write, call, get_state, get_world, emit, deref, bind,
    ret, pointee in H.
  cbn [heap] in H. rewrite Ha, Ho in H. cbv beta iota in H. rewrite Hout, Hst in H.
  cbv beta iota in H.
  destruct (out >=? 0) eqn:Eo; [|discriminate H].
  cbn [heap] in H. rewrite Ha in H. cbv beta iota in H. rewrite Hout in H.
  cbv beta iota in H.
  destruct Hos as [ost Host]; [lia|]. rewrite Host in H.
  run_inv H.
Qed.

End MemorySafety.

Lemma provided_of {W A} (c : Prop) (R : Rel W) (m : M W A) :
  holds R m -> holds (provided c R) m.
Proof. intros H s _. apply H. Qed.

Lemma encoder_ready_after_header (senv : SetupEnv) (enc : Encoder) :
  encoder_ready enc -> encoder_ready (after_header senv enc).
Proof.
  intros (ectx & octx & ostream & He & Ho & Hs).
  unfold after_header, get_format_context. rewrite Ho.
  exists ectx. eexists. eexists. split; [exact He|]. split; [reflexivity|].
  simpl. rewrite index_Z_map, Hs. reflexivity.
Qed.

Lemma map_covers_after_header (senv : SetupEnv) (ifmt_ctx : AVFormatContext)
    (enc : Encoder) :
  map_covers ifmt_ctx enc -> map_covers ifmt_ctx (after_header senv enc).
Proof.
  intros (octx & m & Ho & Hm & Hall).
  unfold after_header, get_format_context. rewrite Ho.
  eexists. exists m. split; [reflexivity|]. split; [exact Hm|].
  intros i st Hst. destruct (Hall i st Hst) as (out & Hout & Hos).
  exists out. split; [exact Hout|]. intros Hge. destruct (Hos Hge) as [ost Host].
  eexists. simpl. rewrite index_Z_map, Host. reflexivity.
Qed.



(** ** The frame counter, however the run ends *)

Lemma tally_no_output (evs : list Event) :
  Forall no_output evs -> tally filter_output evs = 0 /\ tally flushed evs = 0.
Proof.
  induction 1 as [|e evs [He1 He2] _ [IH1 IH2]]; simpl; lia.
Qed.

Lemma encode_side_no_output (e : Event) : encode_side e -> no_output e.
Proof. destruct e; simpl; try tauto; intros _; split; reflexivity. Qed.

Section Owes.

Context {W : Type} (env : Env W).

Lemma owes_inert {A} (m : M W A) :
  keeps_ctx m -> emits no_output m -> holds (owes 0) m.
Proof.
  intros Hk He s. destruct (He s) as (evs & Ht & Hevs).
  destruct (tally_no_output evs Hevs) as [H1 H2].
  unfold owes, uncounted. cbv zeta. rewrite (Hk s), Ht, !tally_app, H1, H2. lia.
Qed.

Lemma owes_composes : Composes (owes (W := W) 0).
Proof.
  split.
  - intros A a s. unfold owes. simpl. lia.
  - intros A s. unfold owes. simpl. lia.
  - intros A B s res k Hres Hk. unfold owes in *. cbv zeta in *.
    destruct res as [a s1|s1|s1]; simpl in *; try lia.
    specialize (Hk a s1 eq_refl). lia.
Qed.

Lemma owes_weaken {A} (d d' : Z) (m : M W A) :
  d <= d' -> holds (owes d) m -> holds (owes d') m.
Proof. intros Hd Hm s. specialize (Hm s). unfold owes in *. cbv zeta in *. lia. Qed.

Lemma owes_ret {A} (d : Z) (a : A) : 0 <= d -> holds (owes d) (ret (W := W) a).
Proof. intros Hd s. unfold owes, ret. simpl. lia. Qed.

Lemma owes_bind {A B} (a b : Z) (m : M W A) (k : A -> M W B) :
  0 <= b -> holds (owes a) m -> (forall x, holds (owes b) (k x)) ->
  holds (owes (a + b)) (bind m k).
Proof.
  intros Hb Hm Hk s. specialize (Hm s). unfold bind, owes in *. cbv zeta in *.
  destruct (m s) as [x s1|s1|s1]; simpl in *; try lia.
  specialize (Hk x s1). cbv beta zeta in Hk. lia.
Qed.

Lemma owes_call_bind {A B} (d : Z) (f : W -> A * W) (ev : A -> Event) (k : A -> M W B) :
  (forall a, holds (owes (d + filter_output (ev a) + flushed (ev a))) (k a)) ->
  holds (owes d) (bind (call f ev) k).
Proof.
  intros Hk s. rewrite bind_call.
  specialize (Hk (fst (f (world s)))
                (mkSt (snd (f (world s))) (trace s ++ [ev (fst (f (world s)))])
                   (proc_ctx s) (heap s))).
  unfold owes, uncounted in *. cbv zeta in *. simpl in Hk.
  rewrite !tally_app in Hk. simpl in Hk. lia.
Qed.

Lemma owes_incr_bind {B} (d : Z) (k : M W B) :
  0 <= d + 1 -> holds (owes d) k ->
  holds (owes (d + 1)) (bind incr_processed_frames (fun _ => k)).
Proof.
  intros Hd Hk s. unfold bind, incr_processed_frames.
  destruct (processed_frames (proc_ctx s) =? INT64_MAX).
  - unfold owes. simpl. lia.
  - match goal with |- owes _ _ _ (k ?s1) => specialize (Hk s1) end.
    unfold owes, uncounted in *. cbv zeta in *. simpl in Hk. lia.
Qed.

Variable encoder_config : EncoderConfig.
Variable ifmt_ctx : AVFormatContext.
Variable enc : Encoder.
Variable vstream_idx : Z.
Variable stream_map : option nat.
Variable benchmark : bool.

Lemma owes_write_frame (fuel : nat) (frame : AVFrame) (frame_idx : Z) :
  holds (owes 0) (write_frame env fuel enc frame frame_idx).
Proof.
  apply owes_inert; [apply keeps_ctx_write_frame|].
  eapply emits_weaken; [apply encode_side_no_output | apply emits_write_frame].
Qed.

Lemma owes_flush (fuel : nat) : holds (owes 0) (flush env fuel enc).
Proof.
  apply owes_inert; [apply keeps_ctx_flush|].
  eapply emits_weaken; [apply encode_side_no_output | apply emits_flush].
Qed.

Lemma owes_submit_unless_benchmark (fuel : nat) (frame : AVFrame) :
  holds (owes 0) (submit_unless_benchmark env enc vstream_idx benchmark fuel frame).
Proof.
  unfold submit_unless_benchmark. pose proof (owes_write_frame fuel frame vstream_idx).
  holds_go owes_composes.
Qed.

Lemma owes_receive_step (fuel : nat) (k : M W Ctl) :
  holds (owes 0) k ->
  holds (owes 0) (receive_step env enc vstream_idx benchmark fuel k).
Proof.
  intros Hk. unfold receive_step, call_receive_frame, call_filter_process.
  apply owes_call_bind. intros [r frame]. cbn [filter_output flushed fst snd].
  change (0 + 0 + 0) with 0.
  destruct (is_again_or_eof r); [apply owes_ret; lia|].
  destruct (r <? 0); [apply owes_ret; lia|].
  apply owes_call_bind. intros [r' processed_frame]. cbn [flushed fst snd].
  assert (Hw : 0 <= 0 + filter_output (EvFilterProcess frame r' processed_frame) + 0).
  { simpl. destruct processed_frame; [destruct (r' =? 0)|]; lia. }
  destruct ((r' <? 0) && negb (r' =? AVERROR EAGAIN)); [apply owes_ret; exact Hw|].
  destruct (r' =? 0) eqn:E0; [|eapply owes_weaken; [exact Hw | exact Hk]].
  destruct processed_frame as [pf|]; [|eapply owes_weaken; [exact Hw | exact Hk]].
  simpl. rewrite E0. change (0 + 1 + 0) with (0 + 1).
  apply owes_bind; [lia | apply owes_submit_unless_benchmark|].
  intros [status|]; [apply owes_ret; lia|].
  apply (owes_incr_bind 0); [lia | exact Hk].
Qed.

Lemma owes_write_flushed (fuel : nat) (frames : list AVFrame) :
  holds (owes (Z.of_nat (length frames)))
    (write_flushed env enc vstream_idx fuel frames).
Proof.
  induction frames as [|f frames IH]; simpl write_flushed.
  - apply owes_ret. simpl. lia.
  - apply (owes_weaken (0 + (Z.of_nat (length frames) + 1))); [simpl length; lia|].
    apply owes_bind; [lia | apply owes_write_frame|].
    intros r. destruct (r <? 0); [apply owes_ret; lia|].
    apply owes_incr_bind; [lia | exact IH].
Qed.

Lemma owes_flush_sequence (fuel : nat) :
  holds (owes 0) (flush_sequence env enc vstream_idx fuel).
Proof.
  unfold flush_sequence, call_filter_flush.
  apply owes_call_bind. intros [r frames]. cbn [filter_output flushed fst snd].
  destruct (r <? 0); [apply owes_ret; lia|].
  apply (owes_weaken (Z.of_nat (length frames) + 0)); [lia|].
  apply owes_bind; [lia | apply owes_write_flushed|].
  intros [status|]; [apply owes_ret; lia | apply owes_flush].
Qed.

Lemma keeps_ctx_passthrough (packet : AVPacket) :
  keeps_ctx (passthrough env encoder_config ifmt_ctx enc stream_map packet).
Proof.
  intros s.
  unfold passthrough, read_stream_map, call_mux_write, call, get_state, get_world, emit, deref,
    bind, ret, fault.
  repeat (cbv beta iota; first [reflexivity | destruct_inner_goal]).
Qed.

Lemma owes_read_loop (fuel : nat) :
  holds (owes 0)
    (read_loop env encoder_config ifmt_ctx enc vstream_idx stream_map benchmark fuel).
Proof.
  apply (holds_read_loop env encoder_config ifmt_ctx enc vstream_idx stream_map
           benchmark (owes 0) owes_composes (fun _ => True)).
  - intros; exact I.
  - apply owes_inert.
    + intros s. unfold read_abort, get_world, emit, bind, ret. simpl.
      destruct (ctl_abort env (world s)); reflexivity.
    + apply emits_read_abort_when. split; reflexivity.
  - apply owes_inert; [intros s; reflexivity|].
    apply emits_sleep_ms. split; reflexivity.
  - apply owes_inert; [apply keeps_ctx_call|].
    apply emits_call. intros; split; reflexivity.
  - intros p. apply owes_inert; [apply keeps_ctx_call|].
    apply emits_call. intros; split; reflexivity.
  - intros fuel' k. apply owes_receive_step.
  - intros p _. apply owes_inert; [apply keeps_ctx_passthrough|].
    apply emits_passthrough; intros; split; reflexivity.
Qed.

(** X8.  However a run of [process_frames] ends -- with a status, out of
    fuel or in a fault -- the frame counter has not gone down and has not
    grown by more than the number of frames the filter put out during the
    run: those [process_frame] handed back with status 0 and those its
    flush returned.  [total_frames] and [start_time] are what the probe
    at the start of the run found; when the probe cannot open the input
    the processing context is left as it was. *)
Theorem process_frames_counts_within_filter_output (fuel : nat) (s : St W) :
  let run :=
    process_frames env encoder_config ifmt_ctx enc vstream_idx stream_map
      benchmark fuel s in
  let evs := new_events s run in
  let c' := proc_ctx (final run) in
  processed_frames (proc_ctx s) <= processed_frames c' /\
  processed_frames c' <=
    processed_frames (proc_ctx s) + tally filter_output evs + tally flushed evs /\
  if cap_isOpened env (world s) then
    total_frames c' = cap_frame_count env (world s) /\
    start_time c' = time_now env (world s)
  else c' = proc_ctx s.
Proof.
  intros run evs c'. subst c' evs run.
  destruct (emits_process_frames env encoder_config ifmt_ctx enc vstream_idx stream_map
              benchmark fuel s) as (evs & Ht & _).
  rewrite (new_events_app _ _ _ Ht).
  assert (Hbound :
    uncounted (probed env s) <=
      uncounted (final (process_frames env encoder_config ifmt_ctx enc vstream_idx
                          stream_map benchmark fuel s)) ->
    processed_frames
      (proc_ctx (final (process_frames env encoder_config ifmt_ctx enc vstream_idx
                          stream_map benchmark fuel s))) <=
    processed_frames (proc_ctx s) + tally filter_output evs + tally flushed evs).
  { unfold uncounted. rewrite Ht, !tally_app. simpl. lia. }
  revert Ht Hbound. rewrite process_frames_unfold.
  destruct (cap_isOpened env (world s)); simpl.
  2:{ intros Ht _. assert (evs = []) by (eapply app_inv_head; rewrite app_nil_r; eauto).
      subst evs. simpl. split; [lia|]. split; [lia | reflexivity]. }
  assert (Hearly : forall (res : Result W Z),
            final res = probed env s ->
            (uncounted (probed env s) <= uncounted (final res) ->
             processed_frames (proc_ctx (final res)) <=
             processed_frames (proc_ctx s) + tally filter_output evs +
             tally flushed evs) ->
            processed_frames (proc_ctx s) <= processed_frames (proc_ctx (final res)) /\
            processed_frames (proc_ctx (final res)) <=
              processed_frames (proc_ctx s) + tally filter_output evs +
              tally flushed evs /\
            total_frames (proc_ctx (final res)) = cap_frame_count env (world s) /\
            start_time (proc_ctx (final res)) = time_now env (world s)).
  { intros res Hres Hb. specialize (Hb ltac:(rewrite Hres; lia)).
    rewrite Hres in *. simpl in *. repeat split; lia. }
  destruct (av_frame_alloc_ok env (world s)); simpl;
    [|intros _ Hb; apply (Hearly (Ok (AVERROR ENOMEM) (probed env s)) eq_refl Hb)].
  destruct (av_packet_alloc_ok env (world s)); simpl;
    [|intros _ Hb; apply (Hearly (Ok (AVERROR ENOMEM) (probed env s)) eq_refl Hb)].
  pose proof (owes_read_loop fuel (probed env s)) as Hloop.
  unfold owes in Hloop. cbv zeta in Hloop.
  destruct (read_loop env encoder_config ifmt_ctx enc vstream_idx stream_map benchmark
              fuel (probed env s)) as [[status|] s2|s2|s2]; simpl in *;
    intros _ Hb; try (specialize (Hb ltac:(lia)); repeat split; lia).
  pose proof (owes_flush_sequence fuel s2) as Hfl.
  unfold owes in Hfl. cbv zeta in Hfl.
  specialize (Hb ltac:(lia)). repeat split; lia.
Qed.

End Owes.

(** ** Where the muxed packets go *)

Section Tagging.

Context {W : Type} (env : Env W).

Variable encoder_config : EncoderConfig.
Variable ifmt_ctx : AVFormatContext.
Variable enc : Encoder.
Variable vstream_idx : Z.
Variable stream_map : option nat.
Variable benchmark : bool.

Lemma tagged_receive_and_mux (a : option (list Z)) (k : Z -> M W Z) :
  (forall r, emits (tagged_for enc a) (k r)) ->
  emits (tagged_for enc a) (receive_and_mux env enc k).
Proof.
  intros Hk. unfold receive_and_mux, call_receive_packet, call_mux_write. emits_go.
Qed.

Lemma tagged_write_frame (a : option (list Z)) (fuel : nat) (frame : AVFrame)
    (frame_idx : Z) :
  emits (tagged_for enc a) (write_frame env fuel enc frame frame_idx).
Proof.
  assert (Hdrain : forall r,
            emits (tagged_for enc a) (write_frame_drain env fuel enc r)).
  { induction fuel as [|fuel' IH]; intros r; simpl.
    - emits_go.
    - destruct (r <? 0); [emits_go|]. apply tagged_receive_and_mux. exact IH. }
  unfold write_frame, packet_alloc, get_world, call_send_frame. emits_go.
Qed.

Lemma tagged_flush (a : option (list Z)) (fuel : nat) :
  emits (tagged_for enc a) (flush env fuel enc).
Proof.
  assert (Hdrain : emits (tagged_for enc a) (flush_drain env fuel enc)).
  { induction fuel as [|fuel' IH]; simpl.
    - emits_go.
    - apply tagged_receive_and_mux. intros _. exact IH. }
  unfold flush, packet_alloc, get_world, call_send_frame. emits_go.
Qed.

Lemma tagged_passthrough (packet : AVPacket) :
  holds (with_array stream_map (fun a => adds (tagged_for enc a)))
    (passthrough env encoder_config ifmt_ctx enc stream_map packet).
Proof.
  intros s. split; [apply keeps_heap_passthrough|].
  unfold adds, passthrough.
  destruct (copy_streams encoder_config);
    [|exists []; rewrite app_nil_r; split; [reflexivity | constructor]].
  unfold read_stream_map, call_mux_write, call, get_state, get_world, emit, deref, bind,
    ret, fault, pointee.
  destruct stream_map as [p|]; cbn [heap]; cbv beta iota;
    [|exists []; rewrite app_nil_r; split; [reflexivity | constructor]].
  destruct (heap s !! p) as [m|] eqn:Hm; cbv beta iota;
    [|exists []; rewrite app_nil_r; split; [reflexivity | constructor]].
  repeat (cbv beta iota; cbn [heap]; rewrite ?Hm; destruct_inner_goal).
  all: cbn [final trace]; rewrite <- ?app_assoc; cbn [app].
  all: try (exists []; rewrite app_nil_r; split; [reflexivity | constructor]).
  all: match goal with
       | |- exists evs, _ ++ ?l = _ /\ _ => exists l; split; [reflexivity|]
       end.
  all: repeat match goal with |- Forall _ _ => constructor end; try exact I.
  all: cbn [tagged_for set_stream_index stream_index]; right.
  all: match goal with H : Some _ = Some _ |- _ => inversion H; subst end.
  all: split; [lia | eauto].
Qed.

(** X9.  Every packet that a run of [process_frames] hands to the muxer
    is tagged with the index of the output video stream, or with an entry
    that is not negative of the stream map the run was given: an encoded
    packet takes the former in [write_frame] and [flush], a copied packet
    the latter. *)
Theorem muxed_packets_are_tagged (fuel : nat) (s : St W) :
  Forall (tagged_for enc (pointee s stream_map))
    (new_events s
       (process_frames env encoder_config ifmt_ctx enc vstream_idx stream_map
          benchmark fuel s)).
Proof.
  destruct (with_array_process_frames env enc encoder_config ifmt_ctx vstream_idx
              stream_map benchmark (tagged_for enc) fuel) with (s := s)
    as [_ (evs & Ht & Hevs)].
  - intros a e He. destruct e; simpl in *; tauto.
  - intros a fuel' frame. apply tagged_write_frame.
  - intros a fuel'. apply tagged_flush.
  - apply tagged_passthrough.
  - rewrite (new_events_app _ _ _ Ht). exact Hevs.
Qed.

End Tagging.

(** ** What [init] returns *)

Lemma map_streams_status (ienv : InitEnv) (vin vout : Z) (in_streams : list AVStream) :
  forall i m r m',
    map_streams ienv vin vout in_streams i m = (r, m') ->
    r <= 0 /\ (r <> 0 -> exists l, In l (ms_log m') /\ is_error l = true).
Proof.
  induction in_streams as [|st rest IH]; intros i m r m' H; simpl in H.
  - inversion H; subst. split; [lia | intros Hr; contradiction].
  - destruct (i =? vin); [eapply IH; eauto|].
    destruct (negb (is_audio_or_subtitle (codec_type (codecpar st))));
      [eapply IH; eauto|].
    unfold avformat_new_stream in H.
    destruct (new_stream_ok ienv (length (streams (ms_ofmt m)))); simpl in H.
    + destruct (parameters_copy_ret ienv (codecpar st) <? 0) eqn:E;
        [|eapply IH; eauto].
      inversion H; subst. split; [lia|]. intros _. eexists. split.
      * simpl. apply in_or_app. right. left. reflexivity.
      * reflexivity.
    + inversion H; subst. split; [vm_compute; intro; discriminate|].
      intros _. eexists. split.
      * simpl. apply in_or_app. right. left. reflexivity.
      * reflexivity.
Qed.

Lemma init_failure (ienv : InitEnv) (hw_ctx : bool) (ifmt_ctx : AVFormatContext)
    (dec_ctx : AVCodecContext) (encoder_config : EncoderConfig) (in_vstream_idx : Z) :
  let res := init ienv hw_ctx ifmt_ctx dec_ctx encoder_config in_vstream_idx in
  init_ret res <= 0 /\
  (init_ret res < 0 -> exists l, In l (init_log res) /\ is_error l = true).
Proof.
  cbv zeta. unfold init, av_malloc_array, avformat_new_stream.
  repeat (cbv beta iota; destruct_inner_goal).
  all: cbn [init_ret init_error init_encoder init_log].
  all: try (split; [first [lia | vm_compute; intro; discriminate]|];
            intros _; eexists;
            split; [apply in_or_app; right; left; reflexivity | reflexivity]).
  all: try (split; [lia | intros Hlt; lia]).
  all: try match goal with
       | Hm : map_streams _ _ _ _ _ _ = (?z0, ?m) |- ?z0 <= 0 /\ _ =>
           destruct (map_streams_status _ _ _ _ _ _ _ _ Hm) as [Hle Hlog];
           split; [exact Hle | intros Hlt; apply Hlog; lia]
       end.
  all: match goal with
       | Ha : _ && (?r <? 0) = true |- _ =>
           apply andb_prop in Ha as [_ Ha]; split; [lia|]; intros _;
           eexists; split; [apply in_or_app; right; left; reflexivity | reflexivity]
       end.
Qed.

(** X10.  [Encoder::init] returns 0 or a negative status.  Every failure
    leaves an error in the log.  After a success the accessors of the
    object hand out both contexts, the output video stream is stream 0
    of the output and carries the encoder's time base and frame rate, the
    encoder has the configured output size and a pixel format, and
    [get_stream_map] is null exactly when stream copy is off. *)
Theorem init_outcome (ienv : InitEnv) (hw_ctx : bool) (ifmt_ctx : AVFormatContext)
    (dec_ctx : AVCodecContext) (encoder_config : EncoderConfig) (in_vstream_idx : Z) :
  let res := init ienv hw_ctx ifmt_ctx dec_ctx encoder_config in_vstream_idx in
  let enc := init_encoder res in
  init_ret res <= 0 /\
  (init_ret res < 0 -> exists l, In l (init_log res) /\ is_error l = true) /\
  (init_ret res = 0 ->
   get_output_video_stream_index enc = 0 /\
   (get_stream_map enc = None <-> copy_streams encoder_config = false) /\
   exists ectx octx vstream,
     get_encoder_context enc = Some ectx /\ get_format_context enc = Some octx /\
     index_Z (streams octx) 0 = Some vstream /\
     time_base vstream = ctx_time_base ectx /\
     avg_frame_rate vstream = ctx_framerate ectx /\
     r_frame_rate vstream = ctx_framerate ectx /\
     ctx_width ectx = out_width encoder_config /\
     ctx_height ectx = out_height encoder_config /\
     ctx_pix_fmt ectx <> AV_PIX_FMT_NONE).
Proof.
  intros res enc. subst enc res.
  unfold get_output_video_stream_index, get_stream_map, get_encoder_context,
    get_format_context.
  destruct (init_failure ienv hw_ctx ifmt_ctx dec_ctx encoder_config in_vstream_idx)
    as [Hle Hlog].
  split; [exact Hle|]. split; [exact Hlog|]. intros H.
  destruct (init_success_video _ _ _ _ _ _ H)
    as (vpar & ectx & flags & pb & Henc & Hw & Hh & Hpix).
  cbv zeta in Henc. destruct (copy_streams encoder_config).
  - destruct Henc as (cells & log & m' & Hcells & Hmap & ->).
    apply map_streams_spec in Hmap; [|lia|simpl; lia].
    destruct Hmap as ((_ & _ & [added Hadd] & _) & _). simpl in Hadd.
    split; [reflexivity|]. split; [split; discriminate|].
    exists ectx. eexists. eexists. split; [reflexivity|]. split; [reflexivity|].
    split; [simpl; rewrite Hadd; reflexivity|].
    repeat split; assumption.
  - rewrite Henc. split; [reflexivity|]. split; [split; reflexivity|].
    exists ectx. eexists. eexists. split; [reflexivity|]. split; [reflexivity|].
    split; [reflexivity|]. repeat split; assumption.
Qed.

Lemma other_stream_packet_is_copied_or_dropped_witness :
  let res := init sim_ienv false sim_ifmt_ctx sim_dec_ctx (sim_config true) 1 in
  let built := init_encoder res in
  let enc := after_header sim_senv_90k built in
  let s := mkSt (sim_world [] FilterPass None 0) [] (mkProcCtx 0 0 0) [[1; 0; -1]] in
  (exists o ost,
     stream_entry built 0 = Some o /\ 1 <= o /\
     output_stream built o = Some ost /\ time_base ost = mkRational 1 48000 /\
     let out_packet :=
       set_stream_index
         (av_packet_rescale_ts sim_env_rescaling (packet_of 0 48000) (mkRational 1 48000)
            (muxer_time_base sim_senv_90k ost)) o in
     let written :=
       av_interleaved_write_frame sim_env_rescaling out_packet (world s) in
     route_packet sim_env_rescaling (sim_config true) sim_ifmt_ctx enc 1 (Some 0%nat)
       false 5 (packet_of 0 48000) s =
     Ok (if fst written <? 0 then Return (fst written) else Fallthrough)
       (mkSt (snd written)
          (trace s ++ [EvMapLookup 0 o; EvMapLookup 0 o;
                       EvMuxWrite out_packet (fst written)])
          (proc_ctx s) (heap s))) /\
  (stream_entry built 2 = Some (-1) /\
   route_packet sim_env_rescaling (sim_config true) sim_ifmt_ctx enc 1 (Some 0%nat)
     false 5 (packet_of 2 41) s =
   Ok Fallthrough
     (mkSt (world s) (trace s ++ [EvMapLookup 2 (-1)]) (proc_ctx s) (heap s))).
Proof.
  intros res built enc s. split.
  - apply (other_stream_packet_is_copied_or_dropped sim_env_rescaling sim_ienv
             sim_senv_90k false sim_ifmt_ctx sim_dec_ctx (sim_config true) 1 false 5
             (packet_of 0 48000)
             (mkStream 0 (mkCodecpar AVMEDIA_TYPE_AUDIO 86018 7 0) (mkRational 1 48000)
                zero_q zero_q) (Some 0%nat) s);
      [reflexivity | reflexivity | reflexivity | discriminate | reflexivity].
  - apply (other_stream_packet_is_copied_or_dropped sim_env_rescaling sim_ienv
             sim_senv_90k false sim_ifmt_ctx sim_dec_ctx (sim_config true) 1 false 5
             (packet_of 2 41)
             (mkStream 2 (mkCodecpar AVMEDIA_TYPE_UNKNOWN 0 0 0) (mkRational 1 1000)
                zero_q zero_q) (Some 0%nat) s);
      [reflexivity | reflexivity | reflexivity | discriminate | reflexivity].
Defined.

(** One second of audio: a packet with pts 48000 in the input's time
    base 1/48000 is written with pts 90000 in the time base 1/90000 that
    the muxer gave the output stream, to output stream 1. *)
Example copied_packet_takes_muxer_time_base :
  let built :=
    init_encoder (init sim_ienv false sim_ifmt_ctx sim_dec_ctx (sim_config true) 1) in
  let s := mkSt (sim_world [] FilterPass None 0) [] (mkProcCtx 0 0 0) [[1; 0; -1]] in
  let run :=
    route_packet sim_env_rescaling (sim_config true) sim_ifmt_ctx
      (after_header sim_senv_90k built) 1 (Some 0%nat) false 5 (packet_of 0 48000) s in
  option_map time_base (output_stream built 1) = Some (mkRational 1 48000) /\
  option_map time_base (output_stream (after_header sim_senv_90k built) 1) =
    Some (mkRational 1 90000) /\
  trace (final run) =
    [EvMapLookup 0 1; EvMapLookup 0 1; EvMuxWrite (mkPacket 1 90000 90000 1 7) 0].
Proof. vm_compute. repeat split. Qed.

Lemma unannounced_stream_packet_reads_outside_map_witness :
  let res := init sim_ienv false sim_ifmt_ctx sim_dec_ctx (sim_config true) 1 in
  let built := init_encoder res in
  let s := mkSt (sim_world [] FilterPass None 0) [] (mkProcCtx 0 0 0) [[1; 0; -1]] in
  stream_entry built 3 = None /\
  route_packet sim_env (sim_config true) sim_ifmt_ctx built 1 (Some 0%nat) false 5
    (packet_of 3 40) s = Fault s.
Proof.
  intros res built s.
  apply (unannounced_stream_packet_reads_outside_map sim_env sim_ienv false sim_ifmt_ctx
           sim_dec_ctx (sim_config true) 1 false 5 (packet_of 3 40) built (Some 0%nat)
           s);
    [reflexivity | reflexivity | reflexivity | discriminate |].
  unfold nb_streams. simpl. lia.
Defined.

(** ** A pause that is never lifted *)

Section PauseForever.

Context {W : Type} (env : Env W).
Variable enc : Encoder.
Variable vstream_idx : Z.
Variable benchmark : bool.

(** X11.  The wait for [pause] to clear has no time limit: as long as
    the controller keeps [pause] set and [abort] clear, every iteration
    the inner loop is given is spent on a sleep of 100 ms, and the loop
    has not returned when they are used up, however many they are. *)
Theorem receive_loop_pause_has_no_time_limit (fuel : nat) (s : St W) :
  paused_for env (S fuel) (world s) ->
  receive_loop env enc vstream_idx benchmark fuel s = Timeout (polled env fuel s).
Proof.
  intros Hp.
  assert (Hk : paused_for env fuel (world s)) by (intros j Hj; apply Hp; lia).
  pose proof (receive_loop_polls env enc vstream_idx benchmark fuel 0 s Hk) as H.
  rewrite Nat.add_0_r in H. rewrite H.
  destruct (Hp fuel ltac:(lia)) as [Ha _].
  simpl. unfold read_abort, get_world, bind, timeout. simpl. rewrite Ha. reflexivity.
Qed.

End PauseForever.

Lemma receive_loop_pause_has_no_time_limit_witness :
  let s := sim_start (sim_world [] FilterPass None 1000) in
  paused_for sim_env 4 (world s) /\
  receive_loop sim_env sim_encoder 1 false 3 s = Timeout (polled sim_env 3 s).
Proof.
  intros s.
  assert (H : paused_for sim_env 4 (world s)).
  { intros j Hj.
    destruct j as [|[|[|[|j]]]]; [split; reflexivity .. | lia]. }
  split; [exact H|].
  exact (receive_loop_pause_has_no_time_limit sim_env sim_encoder 1 false 3 s H).
Defined.

(** ** The numbering of the copied streams *)

Section Numbering.

Variable ienv : InitEnv.
Variables vin vout : Z.

Lemma map_streams_numbering (in_streams : list AVStream) :
  forall i m m',
    0 <= i ->
    (Z.to_nat i + length in_streams <= length (ms_map m))%nat ->
    map_streams ienv vin vout in_streams i m = (0, m') ->
    forall k st,
      in_streams !! k = Some st -> copied vin (i + Z.of_nat k) st = true ->
      index_Z (ms_map m') (i + Z.of_nat k) =
      Some (Z.of_nat (length (streams (ms_ofmt m)) +
                      count_copied vin (take k in_streams) i)).
Proof.
  induction in_streams as [|st0 rest IH]; intros i m m' Hi Hlen H k st Hk Hc.
  - discriminate Hk.
  - pose proof (map_streams_spec ienv vin vout (st0 :: rest) i m m' Hi Hlen H)
      as (_ & _ & Hall).
    simpl in H, Hlen.
    assert (Hin : (Z.to_nat i < length (ms_map m))%nat) by lia.
    assert (Hstep : forall m1,
              map_streams ienv vin vout rest (i + 1) m1 = (0, m') ->
              length (ms_map m1) = length (ms_map m) ->
              forall k' st',
                rest !! k' = Some st' -> copied vin (i + 1 + Z.of_nat k') st' = true ->
                index_Z (ms_map m') (i + 1 + Z.of_nat k') =
                Some (Z.of_nat (length (streams (ms_ofmt m1)) +
                                count_copied vin (take k' rest) (i + 1)))).
    { intros m1 H1 Hl1. apply IH; [lia | rewrite Hl1; lia | exact H1]. }
    destruct k as [|k].
    + (* the stream at hand *)
      simpl in Hk. inversion Hk; subst st0. clear Hk.
      replace (i + Z.of_nat 0) with i in * by lia.
      specialize (Hall 0%nat st eq_refl).
      replace (i + Z.of_nat 0) with i in Hall by lia.
      unfold mapped_as in Hall. unfold copied in Hc.
      destruct (i =? vin); [discriminate Hc|].
      destruct (is_audio_or_subtitle (codec_type (codecpar st))); [|discriminate Hc].
      simpl take. simpl count_copied. rewrite Nat.add_0_r.
      destruct Hall as (o & ost & Hm & Ho & Hs & Hidx & _).
      rewrite Hm. f_equal.
      (* the output stream is the one created for it: the next index *)
      revert H. simpl.
      unfold avformat_new_stream.
      destruct (new_stream_ok ienv (length (streams (ms_ofmt m)))); simpl;
        [|intros H; inversion H as [[Hr Hm']]; vm_compute in Hr; discriminate Hr].
      destruct (parameters_copy_ret ienv (codecpar st) <? 0) eqn:Ec;
        [intros H; inversion H as [[Hr Hm']]; lia|].
      intros H.
      apply map_streams_spec in H; [|lia|simpl; rewrite length_insert; lia].
      destruct H as ((_ & Hkeep & _) & _). simpl in Hkeep.
      specialize (Hkeep (Z.to_nat i) ltac:(lia)).
      rewrite list_lookup_insert_eq in Hkeep by exact Hin.
      rewrite (index_Z_nonneg _ i Hi), Hkeep in Hm.
      unfold nb_streams in Hm. congruence.
    + simpl in Hk.
      replace (i + Z.of_nat (S k)) with (i + 1 + Z.of_nat k) in * by lia.
      simpl take. simpl count_copied.
      revert H. 
      destruct (i =? vin) eqn:Ev.
      { intros H. rewrite (Hstep _ H (length_insert _ _ _) k st Hk Hc).
        simpl. unfold copied. rewrite Ev. simpl. reflexivity. }
      destruct (is_audio_or_subtitle (codec_type (codecpar st0))) eqn:Ea; simpl.
      2:{ intros H. rewrite (Hstep _ H (length_insert _ _ _) k st Hk Hc).
          simpl. unfold copied. rewrite Ev, Ea. simpl. reflexivity. }
      unfold avformat_new_stream.
      destruct (new_stream_ok ienv (length (streams (ms_ofmt m)))); simpl;
        [|intros H; inversion H as [[Hr Hm']]; vm_compute in Hr; discriminate Hr].
      destruct (parameters_copy_ret ienv (codecpar st0) <? 0) eqn:Ec;
        [intros H; inversion H as [[Hr Hm']]; lia|].
      intros H. rewrite (Hstep _ H (length_insert _ _ _) k st Hk Hc).
      unfold store_stream, nb_streams. simpl. rewrite length_insert, length_app. simpl.
      unfold copied. rewrite Ev, Ea. simpl. f_equal. lia.
Qed.

End Numbering.

Lemma count_copied_take_S (vin : Z) (l : list AVStream) :
  forall k b st,
    l !! k = Some st ->
    count_copied vin (take (S k) l) b =
    (count_copied vin (take k l) b +
     (if copied vin (b + Z.of_nat k) st then 1 else 0))%nat.
Proof.
  induction l as [|x l IH]; intros k b st Hk; [discriminate Hk|].
  destruct k as [|k].
  - simpl in Hk. inversion Hk; subst x.
    replace (b + Z.of_nat 0) with b by lia. destruct l; simpl; lia.
  - simpl in Hk. change (take (S (S k)) (x :: l)) with (x :: take (S k) l).
    change (take (S k) (x :: l)) with (x :: take k l).
    cbn [count_copied]. rewrite (IH k (b + 1) st Hk).
    replace (b + 1 + Z.of_nat k) with (b + Z.of_nat (S k)) by lia. lia.
Qed.

Lemma count_copied_take_mono (vin : Z) (l : list AVStream) :
  forall k k' b,
    (k <= k')%nat ->
    (count_copied vin (take k l) b <= count_copied vin (take k' l) b)%nat.
Proof.
  induction l as [|x l IH]; intros k k' b Hk.
  - rewrite !take_nil. lia.
  - destruct k as [|k]; [simpl; lia|]. destruct k' as [|k']; [lia|].
    simpl. specialize (IH k k' (b + 1) ltac:(lia)). lia.
Qed.

(** X13.  With stream copy, a successful [init] numbers the output
    streams in the order of the input: the output stream of an audio or
    subtitle stream has index one more than the number of such streams
    before it, the video stream aside.  So two of them never share an
    output stream, and none shares that of the video, which is 0. *)
Theorem init_numbers_copied_streams_in_input_order (ienv : InitEnv) (hw_ctx : bool)
    (ifmt_ctx : AVFormatContext) (dec_ctx : AVCodecContext)
    (encoder_config : EncoderConfig) (in_vstream_idx : Z) (i : Z) (st : AVStream) :
  let res := init ienv hw_ctx ifmt_ctx dec_ctx encoder_config in_vstream_idx in
  let enc := init_encoder res in
  let before (j : Z) :=
    Z.of_nat (count_copied in_vstream_idx (take (Z.to_nat j) (streams ifmt_ctx)) 0) in
  init_ret res = 0 ->
  copy_streams encoder_config = true ->
  index_Z (streams ifmt_ctx) i = Some st ->
  copied in_vstream_idx i st = true ->
  stream_entry enc i = Some (1 + before i) /\
  forall j st',
    index_Z (streams ifmt_ctx) j = Some st' -> copied in_vstream_idx j st' = true ->
    stream_entry enc j = stream_entry enc i -> j = i.
Proof.
  intros res enc before H Hc Hst Hcop. subst enc res.
  destruct (init_success_video _ _ _ _ _ _ H) as (vpar & ectx & flags & pb & Henc & _).
  cbv zeta in Henc. rewrite Hc in Henc.
  destruct Henc as (cells & log & m' & Hcells & Hmap & ->).
  unfold stream_entry. cbn [stream_map_].
  assert (Hentry : forall j st',
            index_Z (streams ifmt_ctx) j = Some st' ->
            copied in_vstream_idx j st' = true ->
            0 <= j /\ streams ifmt_ctx !! Z.to_nat j = Some st' /\
            index_Z (ms_map m') j = Some (1 + before j)).
  { intros j st' Hj Hcj. apply index_Z_Some in Hj as [Hj0 Hj].
    split; [exact Hj0|]. split; [exact Hj|].
    match type of Hmap with
    | map_streams _ _ _ _ _ ?m0 = _ =>
        assert (Hlen : (Z.to_nat 0 + length (streams ifmt_ctx) <= length (ms_map m0))%nat)
          by (simpl; lia);
        pose proof (map_streams_numbering ienv in_vstream_idx 0 (streams ifmt_ctx) 0 m0 m'
                      (Z.le_refl 0) Hlen Hmap (Z.to_nat j) st' Hj) as Hn
    end.
    replace (0 + Z.of_nat (Z.to_nat j)) with j in Hn by lia.
    rewrite (Hn Hcj). simpl. subst before. cbv beta. f_equal. lia. }
  destruct (Hentry i st Hst Hcop) as (Hi & Hsti & Hei).
  split; [exact Hei|].
  intros j st' Hj Hcj Heq.
  destruct (Hentry j st' Hj Hcj) as (Hj0 & Hstj & Hej).
  rewrite Hei, Hej in Heq. inversion Heq as [Hb]. subst before. cbv beta in Hb.
  destruct (Z.lt_trichotomy j i) as [Hlt | [Heqji | Hgt]]; [|exact Heqji|].
  - pose proof (count_copied_take_S in_vstream_idx (streams ifmt_ctx) (Z.to_nat j) 0 st'
                  Hstj) as HS.
    replace (0 + Z.of_nat (Z.to_nat j)) with j in HS by lia. rewrite Hcj in HS.
    pose proof (count_copied_take_mono in_vstream_idx (streams ifmt_ctx)
                  (S (Z.to_nat j)) (Z.to_nat i) 0 ltac:(lia)).
    lia.
  - pose proof (count_copied_take_S in_vstream_idx (streams ifmt_ctx) (Z.to_nat i) 0 st
                  Hsti) as HS.
    replace (0 + Z.of_nat (Z.to_nat i)) with i in HS by lia. rewrite Hcop in HS.
    pose proof (count_copied_take_mono in_vstream_idx (streams ifmt_ctx)
                  (S (Z.to_nat i)) (Z.to_nat j) 0 ltac:(lia)).
    lia.
Qed.

Lemma init_numbers_copied_streams_in_input_order_witness :
  let res := init sim_ienv false sim_ifmt_ctx sim_dec_ctx (sim_config true) 1 in
  stream_entry (init_encoder res) 0 = Some (1 + 0).
Proof.
  intros res.
  exact (proj1 (init_numbers_copied_streams_in_input_order sim_ienv false sim_ifmt_ctx
                  sim_dec_ctx (sim_config true) 1 0
                  (mkStream 0 (mkCodecpar AVMEDIA_TYPE_AUDIO 86018 7 0)
                     (mkRational 1 48000) zero_q zero_q)
                  eq_refl eq_refl eq_refl eq_refl)).
Defined.

Example seven_streams_are_numbered_in_input_order :
  let stream_of i t := mkStream i (mkCodecpar t 0 0 0) (mkRational 1 1000) zero_q zero_q in
  let ifmt_ctx :=
    mkFormatContext
      [stream_of 0 AVMEDIA_TYPE_AUDIO; stream_of 1 AVMEDIA_TYPE_VIDEO;
       stream_of 2 AVMEDIA_TYPE_UNKNOWN; stream_of 3 AVMEDIA_TYPE_SUBTITLE;
       stream_of 4 AVMEDIA_TYPE_DATA; stream_of 5 AVMEDIA_TYPE_ATTACHMENT;
       stream_of 6 AVMEDIA_TYPE_AUDIO] 0 true in
  let res := init sim_ienv false ifmt_ctx sim_dec_ctx (sim_config true) 1 in
  init_ret res = 0 /\
  get_stream_map (init_encoder res) = Some [1; 0; -1; 2; -1; -1; 3].
Proof. vm_compute. split; reflexivity. Qed.

(** ** The first failing call ends the run *)

Lemma failed_negative (e : Event) (status : Z) : failed e = Some status -> status < 0.
Proof.
  destruct e; simpl; try discriminate;
    repeat match goal with
      | |- context [if ?b then _ else _] => destruct b eqn:?
      end;
    intros H; inversion H; subst; lia.
Qed.

Lemma failed_encode_side (e : Event) : encode_side e -> failed e = failed_call e.
Proof. destruct e; simpl; tauto. Qed.

Lemma unfailed_of_quiet (evs : list Event) :
  Forall encode_side evs -> Forall quiet evs -> Forall unfailed evs.
Proof.
  induction 1 as [|e evs He _ IH]; intros Hq; [constructor|].
  inversion Hq; subst. constructor; [|auto].
  unfold unfailed. rewrite (failed_encode_side e He). assumption.
Qed.

Section Stops.

Context {W : Type} (env : Env W).

Lemma stops_prefix {A} (status_of : A -> option Z) (pre evs : list Event)
    (res : Result W A) :
  Forall unfailed pre -> stops_at_failure status_of evs res ->
  stops_at_failure status_of (pre ++ evs) res.
Proof.
  intros Hpre [Hq | (evs' & e & status & a & s' & -> & Hq & Hf & Hres & Ha)].
  - left. apply Forall_app; auto.
  - right. exists (pre ++ evs'), e, status, a, s'.
    rewrite app_assoc. repeat split; auto. apply Forall_app; auto.
Qed.

(** From a report on the encoder's calls to one on the calls of the
    pipeline. *)
Lemma stops_of_reports (m : M W Z) :
  emits encode_side m ->
  (forall s, exists evs,
      trace (final (m s)) = trace s ++ evs /\ reports_failure evs (m s)) ->
  ends_as (stops_at_failure Some) m.
Proof.
  intros Hm Hrep s. destruct (Hm s) as (evs & Ht & Henc).
  destruct (Hrep s) as (evs0 & Ht0 & Hr).
  assert (evs0 = evs) by (rewrite Ht in Ht0; eapply app_inv_head; eauto). subst evs0.
  exists evs. split; [exact Ht|].
  destruct Hr as [Hq | (evs' & e & status & s' & -> & Hq & Hf & Hres)].
  - left. apply unfailed_of_quiet; assumption.
  - apply Forall_app in Henc as [Henc' Hlast]. inversion Hlast; subst.
    right. exists evs', e, status, status, s'. split; [reflexivity|].
    split; [apply unfailed_of_quiet; assumption|].
    split; [rewrite failed_encode_side; assumption|]. split; [assumption | reflexivity].
Qed.

Lemma stops_of_emits {A} (status_of : A -> option Z) (m : M W A) :
  emits unfailed m -> ends_as (stops_at_failure status_of) m.
Proof.
  intros Hm s. destruct (Hm s) as (evs & Ht & Hevs). exists evs.
  split; [exact Ht | left; exact Hevs].
Qed.

Lemma stops_ret {A} (status_of : A -> option Z) (a : A) :
  ends_as (stops_at_failure status_of) (ret (W := W) a).
Proof. apply stops_of_emits. apply emits_ret. Qed.

Lemma stops_call {A} (f : W -> A * W) (ev : A -> Event) :
  ends_as (stops_at_failure (fun a => failed (ev a))) (call f ev).
Proof.
  intros s. unfold call. destruct (f (world s)) as [a w1].
  exists [ev a]. split; [reflexivity|].
  destruct (failed (ev a)) as [status|] eqn:Hf.
  - right. exists [], (ev a), status, a. eexists.
    split; [reflexivity|]. split; [constructor|]. split; [exact Hf|].
    split; [reflexivity | exact Hf].
  - left. repeat constructor. exact Hf.
Qed.

(** A computation that stops at its first failing call, followed by one
    that does so too and that returns at once when the first has reported
    a failure. *)
Lemma stops_bind {A B} (pa : A -> option Z) (pb : B -> option Z)
    (m : M W A) (k : A -> M W B) :
  ends_as (stops_at_failure pa) m ->
  (forall a status, pa a = Some status -> status < 0 ->
     exists b, (forall s, k a s = Ok b s) /\ pb b = Some status) ->
  (forall a, ends_as (stops_at_failure pb) (k a)) ->
  ends_as (stops_at_failure pb) (bind m k).
Proof.
  intros Hm Hfail Hk s. unfold bind. destruct (Hm s) as (evs1 & Ht1 & Hs1).
  destruct Hs1 as [Hq | (evs' & e & status & a & s' & -> & Hq & Hf & Hres & Ha)].
  - destruct (m s) as [a s1|s1|s1]; simpl in Ht1;
      try (exists evs1; split; [exact Ht1 | left; exact Hq]).
    destruct (Hk a s1) as (evs2 & Ht2 & Hs2).
    exists (evs1 ++ evs2). split; [rewrite Ht2, Ht1, app_assoc; reflexivity|].
    apply stops_prefix; assumption.
  - rewrite Hres in *. simpl in Ht1.
    destruct (Hfail a status Ha (failed_negative e status Hf)) as (b & Hb & Hpb).
    rewrite Hb. exists (evs' ++ [e]). split; [exact Ht1|].
    right. exists evs', e, status, b, s'. auto.
Qed.

(** The same when the first computation reports nothing. *)
Lemma stops_after {A B} (pb : B -> option Z) (m : M W A) (k : A -> M W B) :
  emits unfailed m -> (forall a, ends_as (stops_at_failure pb) (k a)) ->
  ends_as (stops_at_failure pb) (bind m k).
Proof.
  intros Hm Hk.
  apply (stops_bind (fun _ => None) pb); [apply stops_of_emits; exact Hm | | exact Hk].
  intros a status H. discriminate H.
Qed.

Variable encoder_config : EncoderConfig.
Variable ifmt_ctx : AVFormatContext.
Variable enc : Encoder.
Variable vstream_idx : Z.
Variable stream_map : option nat.
Variable benchmark : bool.

Lemma stops_write_frame (fuel : nat) (frame : AVFrame) (frame_idx : Z) :
  ends_as (stops_at_failure Some) (write_frame env fuel enc frame frame_idx).
Proof.
  apply stops_of_reports; [apply emits_write_frame|].
  intros s. apply write_frame_reports.
Qed.

Lemma flush_reports (fuel : nat) (s : St W) :
  exists evs,
    trace (final (flush env fuel enc s)) = trace s ++ evs /\
    reports_failure evs (flush env fuel enc s).
Proof.
  unfold flush. unfold_calls. simpl.
  destruct (av_packet_alloc_ok env (world s)); simpl.
  2:{ exists []. rewrite app_nil_r. split; [reflexivity | left; constructor]. }
  destruct (avcodec_send_frame env None (world s)) as [r w1]. simpl.
  destruct (r <? 0) eqn:Hr.
  - exists [EvSendFrame None r]. split; [reflexivity|].
    right. exists [], (EvSendFrame None r), r. eexists.
    split; [reflexivity|]. split; [constructor|]. split; [|reflexivity].
    simpl. rewrite Hr. reflexivity.
  - match goal with
    | |- context [flush_drain env fuel enc ?s1] =>
        destruct (flush_drain_reports env enc fuel s1) as (evs & Ht & Hrep)
    end.
    exists ([EvSendFrame None r] ++ evs). split.
    + rewrite Ht. simpl. rewrite <- app_assoc. reflexivity.
    + apply reports_failure_prefix; [|exact Hrep].
      repeat constructor. unfold quiet; simpl. rewrite Hr. reflexivity.
Qed.

Lemma stops_flush (fuel : nat) : ends_as (stops_at_failure Some) (flush env fuel enc).
Proof. apply stops_of_reports; [apply emits_flush | apply flush_reports]. Qed.

Lemma stops_submit_unless_benchmark (fuel : nat) (frame : AVFrame) :
  ends_as (stops_at_failure returned)
    (submit_unless_benchmark env enc vstream_idx benchmark fuel frame).
Proof.
  unfold submit_unless_benchmark. destruct (negb benchmark); [|apply stops_ret].
  apply (stops_bind Some returned); [apply stops_write_frame| |].
  - intros r status H Hneg. inversion H; subst.
    exists (Return status). destruct (status <? 0) eqn:E; [|lia].
    split; [reflexivity | reflexivity].
  - intros r. destruct (r <? 0); apply stops_ret.
Qed.

Lemma stops_receive_step (fuel : nat) (k : M W Ctl) :
  ends_as (stops_at_failure returned) k ->
  ends_as (stops_at_failure returned)
    (receive_step env enc vstream_idx benchmark fuel k).
Proof.
  intros Hk. unfold receive_step, call_receive_frame, call_filter_process.
  eapply stops_bind; [apply stops_call| |].
  - intros [r frame] status H Hneg. simpl in H.
    destruct (is_again_or_eof r); [discriminate H|].
    destruct (r <? 0); inversion H; subst.
    exists (Return status). split; reflexivity.
  - intros [r frame].
    destruct (is_again_or_eof r); [apply stops_ret|].
    destruct (r <? 0); [apply stops_ret|].
    eapply stops_bind; [apply stops_call| |].
    + intros [r' pf] status H Hneg. simpl in H.
      destruct ((r' <? 0) && negb (r' =? AVERROR EAGAIN)); inversion H; subst.
      exists (Return status). split; reflexivity.
    + intros [r' pf].
      destruct ((r' <? 0) && negb (r' =? AVERROR EAGAIN)); [apply stops_ret|].
      destruct (r' =? 0); [|exact Hk]. destruct pf as [pf|]; [|exact Hk].
      apply (stops_bind returned returned);
        [apply stops_submit_unless_benchmark| |].
      * intros [r0|] status H Hneg; inversion H; subst.
        exists (Return status). split; reflexivity.
      * intros [r0|]; [apply stops_ret|].
        apply stops_after; [apply emits_incr_silent | intros _; exact Hk].
Qed.

Lemma stops_receive_loop (fuel : nat) :
  ends_as (stops_at_failure returned)
    (receive_loop env enc vstream_idx benchmark fuel).
Proof.
  induction fuel as [|fuel IH]; simpl.
  - apply stops_after; [apply emits_read_abort_when; reflexivity|].
    intros abort. destruct abort; [apply stops_ret|].
    apply stops_of_emits. apply emits_silent. reflexivity.
  - apply stops_after; [apply emits_read_abort_when; reflexivity|].
    intros abort. destruct abort; [apply stops_ret|].
    apply stops_after; [apply emits_read_pause|].
    intros pause. destruct pause.
    + apply stops_after; [apply emits_sleep_ms; reflexivity | intros _; exact IH].
    + apply stops_receive_step. exact IH.
Qed.

Lemma stops_passthrough (packet : AVPacket) :
  ends_as (stops_at_failure returned)
    (passthrough env encoder_config ifmt_ctx enc stream_map packet).
Proof.
  unfold passthrough, call_mux_write.
  assert (Hmap : forall i, emits unfailed (read_stream_map (W := W) stream_map i))
    by (intros; apply emits_read_stream_map_any; reflexivity).
  destruct (copy_streams encoder_config); [|apply stops_ret].
  apply stops_after; [apply Hmap|]. intros out.
  destruct (out >=? 0); [|apply stops_ret].
  apply stops_after; [apply emits_deref|]. intros in_stream.
  apply stops_after; [apply Hmap|]. intros out_stream_index.
  apply stops_after; [apply emits_deref|]. intros ofmt_ctx.
  apply stops_after; [apply emits_deref|]. intros out_stream.
  eapply stops_bind; [apply stops_call| |].
  - intros r status H Hneg. simpl in H.
    destruct (r <? 0) eqn:E; inversion H; subst.
    exists (Return status). split; reflexivity.
  - intros r. destruct (r <? 0); apply stops_ret.
Qed.

Lemma stops_route_packet (fuel : nat) (packet : AVPacket) :
  ends_as (stops_at_failure returned)
    (route_packet env encoder_config ifmt_ctx enc vstream_idx stream_map benchmark
       fuel packet).
Proof.
  unfold route_packet, call_send_packet.
  destruct (stream_index packet =? vstream_idx); [|apply stops_passthrough].
  eapply stops_bind; [apply stops_call| |].
  - intros r status H Hneg. simpl in H.
    destruct (r <? 0) eqn:E; inversion H; subst.
    exists (Return status). split; reflexivity.
  - intros r. destruct (r <? 0); [apply stops_ret | apply stops_receive_loop].
Qed.

Lemma stops_read_loop (fuel : nat) :
  ends_as (stops_at_failure returned)
    (read_loop env encoder_config ifmt_ctx enc vstream_idx stream_map benchmark fuel).
Proof.
  induction fuel as [|fuel IH]; simpl.
  - apply stops_after; [apply emits_read_abort_when; reflexivity|].
    intros abort. destruct abort; [apply stops_ret|].
    apply stops_of_emits. apply emits_silent. reflexivity.
  - apply stops_after; [apply emits_read_abort_when; reflexivity|].
    intros abort. destruct abort; [apply stops_ret|].
    unfold call_read_frame. eapply stops_bind; [apply stops_call| |].
    + intros [r packet] status H Hneg. simpl in H.
      destruct (r <? 0) eqn:E; [|discriminate H].
      destruct (r =? AVERROR_EOF) eqn:E'; inversion H; subst.
      exists (Return status). split; reflexivity.
    + intros [r packet]. destruct (r <? 0).
      { destruct (r =? AVERROR_EOF); apply stops_ret. }
      apply (stops_bind returned returned); [apply stops_route_packet| |].
      * intros [r0|] status H Hneg; inversion H; subst.
        exists (Return status). split; reflexivity.
      * intros [r0|]; [apply stops_ret | exact IH].
Qed.

Lemma stops_write_flushed (fuel : nat) (frames : list AVFrame) :
  ends_as (stops_at_failure returned) (write_flushed env enc vstream_idx fuel frames).
Proof.
  induction frames as [|f frames IH]; simpl; [apply stops_ret|].
  apply (stops_bind Some returned); [apply stops_write_frame| |].
  - intros r status H Hneg. inversion H; subst.
    exists (Return status). destruct (status <? 0) eqn:E; [|lia].
    split; reflexivity.
  - intros r. destruct (r <? 0); [apply stops_ret|].
    apply stops_after; [apply emits_incr_silent | intros _; exact IH].
Qed.

Lemma stops_flush_sequence (fuel : nat) :
  ends_as (stops_at_failure Some) (flush_sequence env enc vstream_idx fuel).
Proof.
  unfold flush_sequence, call_filter_flush.
  eapply stops_bind; [apply stops_call| |].
  - intros [r frames] status H Hneg. simpl in H.
    destruct (r <? 0) eqn:E; inversion H; subst.
    exists status. split; reflexivity.
  - intros [r frames]. destruct (r <? 0); [apply stops_ret|].
    apply (stops_bind returned Some); [apply stops_write_flushed| |].
    + intros [r0|] status H Hneg; inversion H; subst.
      exists status. split; reflexivity.
    + intros [r0|]; [apply stops_ret | apply stops_flush].
Qed.

Lemma stops_process_frames (fuel : nat) :
  ends_as (stops_at_failure Some)
    (process_frames env encoder_config ifmt_ctx enc vstream_idx stream_map
       benchmark fuel).
Proof.
  unfold process_frames.
  apply stops_after; [apply emits_silent; reflexivity|]. intros w.
  destruct (negb (cap_isOpened env w)); [apply stops_ret|].
  apply stops_after; [apply emits_silent; reflexivity|]. intros _.
  destruct (negb (av_frame_alloc_ok env w)); [apply stops_ret|].
  destruct (negb (av_packet_alloc_ok env w)); [apply stops_ret|].
  apply (stops_bind returned Some); [apply stops_read_loop| |].
  - intros [r0|] status H Hneg; inversion H; subst.
    exists status. split; reflexivity.
  - intros [r0|]; [apply stops_ret | apply stops_flush_sequence].
Qed.

(** X14.  [process_frames] stops at the first call that fails and returns
    that call's status, whichever call it is: a read of the input other
    than at its end, a send to the decoder, a receive from the decoder or
    the encoder other than "try again" or "end of stream", a filter call
    other than "try again", the filter flush, a send to the encoder or a
    write to the muxer.  No call follows it: no flush, no retry. *)
Theorem process_frames_stops_at_first_failure (fuel : nat) (s : St W)
    (pre post : list Event) (e : Event) (status : Z) :
  let run :=
    process_frames env encoder_config ifmt_ctx enc vstream_idx stream_map
      benchmark fuel s in
  new_events s run = pre ++ e :: post ->
  failed e = Some status ->
  post = [] /\ exists s', run = Ok status s'.
Proof.
  intros run Hev He. subst run.
  destruct (stops_process_frames fuel s) as (evs & Ht & Hstop).
  rewrite (new_events_app _ _ _ Ht) in Hev.
  destruct Hstop as [Hq | (evs' & e' & status' & a & s' & -> & Hq & Hf & Hres & Ha)].
  - subst evs. apply Forall_app in Hq as [_ Hq]. inversion Hq; subst.
    unfold unfailed in *. congruence.
  - destruct (cut_at_last unfailed evs' pre post e' e Hq) as [-> ->]; auto.
    + unfold unfailed. congruence.
    + split; [reflexivity|]. exists s'. inversion Ha; subst. congruence.
Qed.

End Stops.

Lemma process_frames_stops_at_first_failure_witness :
  let s := sim_start (sim_world [packet_of 7 0; packet_of 1 0] FilterPass None 0) in
  let run :=
    process_frames (sim_env_of sim_ifmt_ctx) (sim_config false) sim_ifmt_ctx
      sim_encoder 1 None false 9 s in
  @nil Event = [] /\ exists s', run = Ok AVERROR_UNKNOWN s'.
Proof.
  intros s run.
  apply (process_frames_stops_at_first_failure (sim_env_of sim_ifmt_ctx)
           (sim_config false) sim_ifmt_ctx sim_encoder 1 None false 9 s
           [] [] (EvReadFrame AVERROR_UNKNOWN (packet_of 7 0)) AVERROR_UNKNOWN);
    reflexivity.
Defined.

(** ** The frames of the filter reach the encoder in order *)

Lemma to_submit_app (benchmark : bool) (t1 t2 : list Event) :
  to_submit benchmark (t1 ++ t2) = to_submit benchmark t1 ++ to_submit benchmark t2.
Proof. apply flat_map_app. Qed.

Lemma sent_frames_app (t1 t2 : list Event) :
  sent_frames (t1 ++ t2) = sent_frames t1 ++ sent_frames t2.
Proof. apply flat_map_app. Qed.

Lemma inert_events (benchmark : bool) (evs : list Event) :
  Forall (inert benchmark) evs -> to_submit benchmark evs = [] /\ sent_frames evs = [].
Proof.
  induction 1 as [|e evs [Hd Hs] _ [IH1 IH2]]; [split; reflexivity|].
  unfold to_submit, sent_frames in *. simpl. rewrite Hd, Hs, IH1, IH2. split; reflexivity.
Qed.

Lemma forwards_inert (benchmark : bool) (owed : list AVFrame) (evs : list Event) :
  Forall (inert benchmark) evs -> forwards benchmark owed evs owed.
Proof.
  intros H. destruct (inert_events benchmark evs H) as [Hd Hs].
  exists []. rewrite Hd, Hs, app_nil_r. split; [reflexivity | constructor].
Qed.

Lemma forwards_app (benchmark : bool) (owed rest1 rest2 : list AVFrame)
    (evs1 evs2 : list Event) :
  forwards benchmark owed evs1 rest1 -> forwards benchmark rest1 evs2 rest2 ->
  forwards benchmark owed (evs1 ++ evs2) rest2.
Proof.
  intros (done1 & H1 & F1) (done2 & H2 & F2). exists (done1 ++ done2). split.
  - rewrite to_submit_app, app_assoc, H1, <- !app_assoc, H2. reflexivity.
  - rewrite sent_frames_app. apply Forall2_app; assumption.
Qed.

Section Submits.

Context {W : Type} (env : Env W).

Variable benchmark : bool.

Lemma submits_of_emits {A} (owed : list AVFrame) (left : A -> option (list AVFrame))
    (m : M W A) :
  emits (inert benchmark) m ->
  (forall a rest, left a = Some rest -> rest = owed) ->
  ends_as (submits benchmark owed left) m.
Proof.
  intros Hm Hl s. destruct (Hm s) as (evs & Ht & Hevs). exists evs.
  split; [exact Ht|]. split.
  - exists owed. apply forwards_inert. exact Hevs.
  - intros a s' _ rest Ha. rewrite (Hl a rest Ha). apply forwards_inert. exact Hevs.
Qed.

Lemma submits_ret {A} (owed : list AVFrame) (left : A -> option (list AVFrame)) (a : A) :
  (forall rest, left a = Some rest -> rest = owed) ->
  ends_as (submits benchmark owed left) (ret (W := W) a).
Proof.
  intros Hl s. exists []. rewrite app_nil_r. split; [reflexivity|]. split.
  - exists owed. apply forwards_inert. constructor.
  - intros a' s' H rest Ha. inversion H; subst.
    rewrite (Hl rest Ha). apply forwards_inert. constructor.
Qed.

(** A call that sends nothing adds what it puts out to what is owed. *)
Lemma submits_call {A} (owed : list AVFrame) (f : W -> A * W) (ev : A -> Event) :
  (forall a, sent_frame (ev a) = []) ->
  ends_as (submits benchmark owed (fun a => Some (owed ++ due benchmark (ev a))))
    (call f ev).
Proof.
  intros Hs s. unfold call. destruct (f (world s)) as [a w1].
  exists [ev a]. split; [reflexivity|].
  assert (H : forwards benchmark owed [ev a] (owed ++ due benchmark (ev a))).
  { exists []. unfold to_submit, sent_frames. simpl. rewrite Hs, app_nil_r.
    split; [reflexivity | constructor]. }
  split; [eexists; exact H|].
  intros a' s' Hres rest Ha. inversion Hres; subst. inversion Ha; subst. exact H.
Qed.

(** One frame sent for the first frame owed. *)
Lemma submits_send (frame sent : AVFrame) (rest : list AVFrame) :
  keeps_pts frame sent ->
  ends_as (submits benchmark (frame :: rest) (fun _ : Z => Some rest))
    (call_send_frame env (Some sent)).
Proof.
  intros Hk s. unfold call_send_frame, call.
  destruct (avcodec_send_frame env (Some sent) (world s)) as [r w1].
  exists [EvSendFrame (Some sent) r]. split; [reflexivity|].
  assert (H : forwards benchmark (frame :: rest) [EvSendFrame (Some sent) r] rest).
  { exists [frame]. unfold to_submit, sent_frames. simpl. rewrite app_nil_r.
    split; [reflexivity | repeat constructor; exact Hk]. }
  split; [eexists; exact H|].
  intros a' s' Hres rest' Ha. inversion Ha; subst. exact H.
Qed.

(** A computation followed by another that takes over what the first
    leaves, and that returns at once when the first promises nothing. *)
Lemma submits_bind {A B} (owed : list AVFrame) (la : A -> option (list AVFrame))
    (lb : B -> option (list AVFrame)) (m : M W A) (k : A -> M W B) :
  ends_as (submits benchmark owed la) m ->
  (forall a, la a = None -> exists b, (forall s, k a s = Ok b s) /\ lb b = None) ->
  (forall a rest, la a = Some rest -> ends_as (submits benchmark rest lb) (k a)) ->
  ends_as (submits benchmark owed lb) (bind m k).
Proof.
  intros Hm Hnone Hsome s. unfold bind.
  destruct (Hm s) as (evs1 & Ht1 & Hany & Hdone).
  destruct (m s) as [a s1|s1|s1]; simpl in Ht1;
    try (exists evs1; split; [exact Ht1|]; split; [exact Hany|];
         intros a' s' H; discriminate H).
  destruct (la a) as [rest|] eqn:Hla.
  - specialize (Hdone a s1 eq_refl rest Hla).
    destruct (Hsome a rest Hla s1) as (evs2 & Ht2 & (rest2 & Hany2) & Hdone2).
    exists (evs1 ++ evs2). split; [rewrite Ht2, Ht1, app_assoc; reflexivity|]. split.
    + exists rest2. eapply forwards_app; eassumption.
    + intros b s' Hres rest' Hb. eapply forwards_app; [exact Hdone|].
      eapply Hdone2; eassumption.
  - destruct (Hnone a Hla) as (b & Hb & Hlb). rewrite Hb.
    exists evs1. split; [exact Ht1|]. split; [exact Hany|].
    intros b' s' Hres rest Hb'. inversion Hres; subst. congruence.
Qed.

(** The same after a computation that leaves what it found. *)
Lemma submits_after {A B} (owed : list AVFrame) (lb : B -> option (list AVFrame))
    (m : M W A) (k : A -> M W B) :
  emits (inert benchmark) m ->
  (forall a, ends_as (submits benchmark owed lb) (k a)) ->
  ends_as (submits benchmark owed lb) (bind m k).
Proof.
  intros Hm Hk.
  apply (submits_bind owed (fun _ => Some owed) lb).
  - apply submits_of_emits; [exact Hm|]. intros a rest H. inversion H; reflexivity.
  - intros a H. discriminate H.
  - intros a rest H. inversion H; subst. apply Hk.
Qed.

(** The same after a call that sends nothing. *)
Lemma submits_after_call {A B} (owed : list AVFrame) (lb : B -> option (list AVFrame))
    (f : W -> A * W) (ev : A -> Event) (k : A -> M W B) :
  (forall a, sent_frame (ev a) = []) ->
  (forall a, ends_as (submits benchmark (owed ++ due benchmark (ev a)) lb) (k a)) ->
  ends_as (submits benchmark owed lb) (bind (call f ev) k).
Proof.
  intros Hs Hk.
  apply (submits_bind owed (fun a => Some (owed ++ due benchmark (ev a))) lb).
  - apply submits_call. exact Hs.
  - intros a H. discriminate H.
  - intros a rest H. inversion H; subst. apply Hk.
Qed.

Lemma left_status_owed (rest rest' : list AVFrame) (r : Z) :
  left_status rest r = Some rest' -> rest' = rest.
Proof. unfold left_status. destruct (r <? 0); congruence. Qed.

Lemma left_ctl_owed (rest rest' : list AVFrame) (c : Ctl) :
  left_ctl rest c = Some rest' -> rest' = rest.
Proof. destruct c; simpl; [apply left_status_owed | congruence]. Qed.

Lemma drain_side_inert (e : Event) : drain_side e -> inert benchmark e.
Proof. destruct e; simpl; try tauto; intros _; split; reflexivity. Qed.

Variable encoder_config : EncoderConfig.
Variable ifmt_ctx : AVFormatContext.
Variable enc : Encoder.
Variable vstream_idx : Z.
Variable stream_map : option nat.

Lemma submits_write_frame (fuel : nat) (frame : AVFrame) (frame_idx : Z)
    (rest : list AVFrame) :
  ends_as (submits benchmark (frame :: rest) (left_status rest))
    (write_frame env fuel enc frame frame_idx).
Proof.
  unfold write_frame.
  set (frame' := if pts frame <=? 0 then set_pts frame frame_idx else frame).
  assert (Hown : 0 < pts frame -> pts frame' = pts frame).
  { intros H. subst frame'. destruct (pts frame <=? 0) eqn:E; [lia | reflexivity]. }
  apply submits_after; [apply emits_deref|]. intros ectx.
  assert (Hsend : forall sent, keeps_pts frame sent ->
            ends_as (submits benchmark (frame :: rest) (left_status rest))
              (ok <- packet_alloc env ;;
               if negb ok then ret (AVERROR ENOMEM)
               else r <- call_send_frame env (Some sent) ;;
                    if r <? 0 then ret r else write_frame_drain env fuel enc r)).
  { intros sent Hk.
    apply submits_after; [apply emits_silent; reflexivity|]. intros ok.
    destruct (negb ok).
    { apply submits_ret. intros rest' H. discriminate H. }
    apply (submits_bind _ (fun _ => Some rest) _); [apply submits_send; exact Hk| |].
    - intros r H. discriminate H.
    - intros r rest' H. inversion H; subst rest'.
      destruct (r <? 0) eqn:E.
      + apply submits_ret. unfold left_status. rewrite E. intros ? H'. discriminate H'.
      + apply submits_of_emits; [|intros; eapply left_status_owed; eassumption].
        eapply emits_weaken; [apply drain_side_inert | apply emits_write_frame_drain]. }
  destruct (format frame' =? ctx_pix_fmt ectx).
  - apply Hsend. exact Hown.
  - destruct (convert_avframe_pix_fmt env frame' (ctx_pix_fmt ectx)) as [c|].
    + apply Hsend. intros H. rewrite <- (Hown H). destruct c; reflexivity.
    + apply submits_ret. intros rest' H. discriminate H.
Qed.

Lemma submits_flush (fuel : nat) :
  ends_as (submits benchmark [] (left_status [])) (flush env fuel enc).
Proof.
  apply submits_of_emits; [|intros; eapply left_status_owed; eassumption].
  eapply emits_weaken; [|apply emits_flush_unsubmitted].
  intros e [He Hs]. destruct e as [| | | | | | |[f|] r| | | | |]; simpl in *;
    try tauto; try discriminate; split; reflexivity.
Qed.

Lemma submits_stop {A} (owed : list AVFrame) (left : A -> option (list AVFrame))
    (a : A) :
  left a = None -> ends_as (submits benchmark owed left) (ret (W := W) a).
Proof. intros H. apply submits_ret. intros rest H'. congruence. Qed.

Lemma submits_submit_unless_benchmark (fuel : nat) (frame : AVFrame) :
  ends_as (submits benchmark (if benchmark then [] else [frame]) (left_ctl []))
    (submit_unless_benchmark env enc vstream_idx benchmark fuel frame).
Proof.
  unfold submit_unless_benchmark. destruct (negb benchmark) eqn:Eb.
  2:{ apply negb_false_iff in Eb.
      replace (if benchmark then [] else [frame]) with (@nil AVFrame)
        by (rewrite Eb; reflexivity).
      apply submits_ret. intros rest H. inversion H; reflexivity. }
  apply negb_true_iff in Eb.
  replace (if benchmark then [] else [frame]) with [frame] by (rewrite Eb; reflexivity).
  clear Eb.
  apply (submits_bind _ (left_status []) _); [apply submits_write_frame| |].
  - intros r H. exists (Return r). unfold left_status in H.
    destruct (r <? 0) eqn:E; [|discriminate H].
    split; [reflexivity|]. simpl. unfold left_status. rewrite E. reflexivity.
  - intros r rest H. unfold left_status in H.
    destruct (r <? 0) eqn:E; [discriminate H|]. inversion H; subst.
    apply submits_ret. intros rest H'. inversion H'; reflexivity.
Qed.

Lemma submits_receive_step (fuel : nat) (k : M W Ctl) :
  ends_as (submits benchmark [] (left_ctl [])) k ->
  ends_as (submits benchmark [] (left_ctl []))
    (receive_step env enc vstream_idx benchmark fuel k).
Proof.
  intros Hk. unfold receive_step, call_receive_frame, call_filter_process.
  apply submits_after_call; [reflexivity|]. intros [r frame]. simpl.
  destruct (is_again_or_eof r).
  { apply submits_ret. intros rest H. inversion H; reflexivity. }
  destruct (r <? 0) eqn:E.
  { apply submits_stop. simpl. unfold left_status. rewrite E. reflexivity. }
  apply submits_after_call; [reflexivity|]. intros [r' pf]. simpl.
  destruct ((r' <? 0) && negb (r' =? AVERROR EAGAIN)) eqn:Ef.
  { apply submits_stop. simpl. unfold left_status.
    apply andb_true_iff in Ef as [-> _]. reflexivity. }
  destruct (r' =? 0) eqn:E0; [|destruct pf; exact Hk].
  destruct pf as [pf|]; [|exact Hk]. simpl.
  replace (if negb benchmark then [pf] else []) with (if benchmark then [] else [pf])
    by (destruct benchmark; reflexivity).
  apply (submits_bind _ (left_ctl []) _); [apply submits_submit_unless_benchmark| |].
  - intros [r0|] H; [|discriminate H]. exists (Return r0). split; [reflexivity | exact H].
  - intros c rest H. apply left_ctl_owed in H. subst rest. destruct c as [r0|].
    + apply submits_ret. intros rest H. eapply left_ctl_owed. exact H.
    + apply submits_after; [apply emits_incr_silent | intros _; exact Hk].
Qed.

Lemma inert_abort : inert benchmark EvAbortObserved.
Proof. split; reflexivity. Qed.

Lemma submits_receive_loop (fuel : nat) :
  ends_as (submits benchmark [] (left_ctl []))
    (receive_loop env enc vstream_idx benchmark fuel).
Proof.
  assert (Hgo : forall c rest, left_ctl [] c = Some rest -> rest = [])
    by (intros; eapply left_ctl_owed; eassumption).
  induction fuel as [|fuel IH]; simpl.
  - apply submits_after; [apply emits_read_abort_when; exact inert_abort|].
    intros abort. destruct abort; [apply submits_ret; apply Hgo|].
    apply submits_of_emits; [apply emits_silent; reflexivity | exact Hgo].
  - apply submits_after; [apply emits_read_abort_when; exact inert_abort|].
    intros abort. destruct abort; [apply submits_ret; apply Hgo|].
    apply submits_after; [apply emits_read_pause|].
    intros pause. destruct pause.
    + apply submits_after; [apply emits_sleep_ms; split; reflexivity | intros _; exact IH].
    + apply submits_receive_step. exact IH.
Qed.

Lemma submits_passthrough (packet : AVPacket) :
  ends_as (submits benchmark [] (left_ctl []))
    (passthrough env encoder_config ifmt_ctx enc stream_map packet).
Proof.
  assert (Hgo : forall c rest, left_ctl [] c = Some rest -> rest = [])
    by (intros; eapply left_ctl_owed; eassumption).
  unfold passthrough, call_mux_write.
  assert (Hmap : forall i, emits (inert benchmark) (read_stream_map (W := W) stream_map i))
    by (intros; apply emits_read_stream_map_any; split; reflexivity).
  destruct (copy_streams encoder_config); [|apply submits_ret; apply Hgo].
  apply submits_after; [apply Hmap|]. intros out.
  destruct (out >=? 0); [|apply submits_ret; apply Hgo].
  apply submits_after; [apply emits_deref|]. intros in_stream.
  apply submits_after; [apply Hmap|]. intros out_stream_index.
  apply submits_after; [apply emits_deref|]. intros ofmt_ctx.
  apply submits_after; [apply emits_deref|]. intros out_stream.
  apply submits_after_call; [reflexivity|]. intros r. simpl.
  destruct (r <? 0); apply submits_ret; apply Hgo.
Qed.

Lemma submits_route_packet (fuel : nat) (packet : AVPacket) :
  ends_as (submits benchmark [] (left_ctl []))
    (route_packet env encoder_config ifmt_ctx enc vstream_idx stream_map benchmark
       fuel packet).
Proof.
  unfold route_packet, call_send_packet.
  destruct (stream_index packet =? vstream_idx); [|apply submits_passthrough].
  apply submits_after_call; [reflexivity|]. intros r. simpl.
  destruct (r <? 0); [|apply submits_receive_loop].
  apply submits_ret. intros rest H. eapply left_ctl_owed. exact H.
Qed.

Lemma submits_read_loop (fuel : nat) :
  ends_as (submits benchmark [] (left_ctl []))
    (read_loop env encoder_config ifmt_ctx enc vstream_idx stream_map benchmark fuel).
Proof.
  assert (Hgo : forall c rest, left_ctl [] c = Some rest -> rest = [])
    by (intros; eapply left_ctl_owed; eassumption).
  induction fuel as [|fuel IH]; simpl.
  - apply submits_after; [apply emits_read_abort_when; exact inert_abort|].
    intros abort. destruct abort; [apply submits_ret; apply Hgo|].
    apply submits_of_emits; [apply emits_silent; reflexivity | exact Hgo].
  - apply submits_after; [apply emits_read_abort_when; exact inert_abort|].
    intros abort. destruct abort; [apply submits_ret; apply Hgo|].
    unfold call_read_frame. apply submits_after_call; [reflexivity|].
    intros [r packet]. simpl. destruct (r <? 0).
    { destruct (r =? AVERROR_EOF); apply submits_ret; apply Hgo. }
    apply (submits_bind _ (left_ctl []) _); [apply submits_route_packet| |].
    + intros [r0|] H; [|discriminate H]. exists (Return r0). split; [reflexivity | exact H].
    + intros c rest H. apply Hgo in H. subst rest.
      destruct c as [r0|]; [apply submits_ret; apply Hgo | exact IH].
Qed.

Lemma submits_write_flushed (fuel : nat) (frames : list AVFrame) :
  ends_as (submits benchmark frames (left_ctl []))
    (write_flushed env enc vstream_idx fuel frames).
Proof.
  induction frames as [|f frames IH]; simpl.
  { apply submits_ret. intros rest H. eapply left_ctl_owed. exact H. }
  apply (submits_bind _ (left_status frames) _); [apply submits_write_frame| |].
  - intros r H. exists (Return r). unfold left_status in H.
    destruct (r <? 0) eqn:E; [|discriminate H].
    split; [reflexivity|]. simpl. unfold left_status. rewrite E. reflexivity.
  - intros r rest H. unfold left_status in H.
    destruct (r <? 0) eqn:E; [discriminate H|]. inversion H; subst.
    apply submits_after; [apply emits_incr_silent | intros _; exact IH].
Qed.

Lemma submits_flush_sequence (fuel : nat) :
  ends_as (submits benchmark [] (left_status []))
    (flush_sequence env enc vstream_idx fuel).
Proof.
  unfold flush_sequence, call_filter_flush.
  apply submits_after_call; [reflexivity|]. intros [r frames]. simpl.
  destruct (r <? 0) eqn:E.
  { apply submits_stop. unfold left_status. rewrite E. reflexivity. }
  apply (submits_bind _ (left_ctl []) _); [apply submits_write_flushed| |].
  - intros [r0|] H; [|discriminate H]. exists r0. split; [reflexivity | exact H].
  - intros c rest H. apply left_ctl_owed in H. subst rest.
    destruct c as [r0|]; [|apply submits_flush].
    apply submits_ret. intros rest H. eapply left_status_owed. exact H.
Qed.

Lemma submits_process_frames (fuel : nat) :
  ends_as (submits benchmark [] (left_status []))
    (process_frames env encoder_config ifmt_ctx enc vstream_idx stream_map
       benchmark fuel).
Proof.
  assert (Hgo : forall r rest, left_status [] r = Some rest -> rest = [])
    by (intros; eapply left_status_owed; eassumption).
  unfold process_frames.
  apply submits_after; [apply emits_silent; reflexivity|]. intros w.
  destruct (negb (cap_isOpened env w)); [apply submits_ret; apply Hgo|].
  apply submits_after; [apply emits_silent; reflexivity|]. intros _.
  destruct (negb (av_frame_alloc_ok env w)); [apply submits_ret; apply Hgo|].
  destruct (negb (av_packet_alloc_ok env w)); [apply submits_ret; apply Hgo|].
  apply (submits_bind _ (left_ctl []) _); [apply submits_read_loop| |].
  - intros [r0|] H; [|discriminate H]. exists r0. split; [reflexivity | exact H].
  - intros c rest H. apply left_ctl_owed in H. subst rest.
    destruct c as [r0|]; [apply submits_ret; apply Hgo | apply submits_flush_sequence].
Qed.


End Submits.

Example held_frames_are_sent_after_the_passed_ones :
  let s :=
    sim_start
      (sim_world [packet_of 0 3; packet_of 0 4; packet_of 0 5; packet_of 0 6]
         (FilterHold 2) None 0) in
  let evs benchmark :=
    new_events s
      (process_frames sim_env (sim_config false) sim_ifmt_ctx sim_encoder 0 None
         benchmark 20 s) in
  map pts (to_submit false (evs false)) = [3; 4; 5; 6] /\
  map pts (sent_frames (evs false)) = [3; 4; 5; 6] /\
  map pts (to_submit true (evs true)) = [5; 6] /\
  map pts (sent_frames (evs true)) = [5; 6].
Proof. vm_compute. repeat split. Qed.
